(** * Poirot-Research: the knowledge-graph engine

    A shallow embedding of [core/knowledge_graph.py], [core/path_analyzer.py],
    [core/relationship_analyzer.py] and [core/search_engine.py], and of the
    components, the degrees, the density and the diameter of
    [analysis/statistics.py]; the properties of the engine that the
    specification states about them, and further properties that the code
    shows.

    Conventions of the embedding.
    - A Python [float] weight is a real number ([R]); [max], [min], [sum],
      division and [math.log] are the operations of the reals.
    - A Python [str] is a [string]; a [Set[str]] is a [gset string]; the
      [entity_data] dictionary is a [gmap string pydict].
    - A dictionary whose iteration order is observed (metadata mappings, the
      node and adjacency dictionaries of networkx) is a list in insertion
      order.
    - A call that may raise returns a [result]. *)

From Stdlib Require Import Reals Lra Lia ZArith.
From stdpp Require Import gmap strings list sorting.

Set Default Proof Using "Type".

(** * Python values *)

(** JSON-serialisable values, the contents of a metadata mapping. *)
#[local] Unset Elimination Schemes.
Inductive json : Type :=
| JNull
| JBool (b : bool)
| JNum (x : R)
| JStr (s : string)
| JList (l : list json)
| JDict (d : list (string * json)).
#[local] Set Elimination Schemes.

(** [Dict[str, Any]], in insertion order. *)
Abbreviation pydict := (list (string * json)).

(** Truth value of a dictionary: [{}] is falsy. *)
Definition dict_truthy (d : pydict) : bool :=
  match d with
  | [] => false
  | _ :: _ => true
  end.

(** Truth value of an [Optional[Dict]]: [None] and [{}] are falsy. *)
Definition truthy (metadata : option pydict) : bool :=
  match metadata with
  | Some d => dict_truthy d
  | None => false
  end.

(** [metadata or {}] *)
Definition or_empty (metadata : option pydict) : pydict :=
  match metadata with
  | Some d => if dict_truthy d then d else []
  | None => []
  end.

(** Truth value of an [Optional[int]]: [None] and [0] are falsy. *)
Definition int_truthy (n : option Z) : bool :=
  match n with
  | Some z => negb (z =? 0)%Z
  | None => false
  end.

(** [l[:n]] *)
Definition slice_to {A} (l : list A) (n : Z) : list A :=
  if (0 <=? n)%Z then take (Z.to_nat n) l
  else take (Z.to_nat (Z.of_nat (length l) + n)) l.

(** * Exceptions *)

Inductive exn : Type :=
| NodeNotFound
| NetworkXNoPath
| NetworkXError.

Inductive result (A : Type) : Type :=
| Ok (a : A)
| Raise (e : exn).
Arguments Ok {A} a.
Arguments Raise {A} e.

#[global] Instance result_ret : MRet result := λ A a, Ok a.
#[global] Instance result_bind : MBind result := λ A B f m,
  match m with
  | Ok a => f a
  | Raise e => Raise e
  end.

(** A [for] loop whose body may raise, threading the loop state. *)
Fixpoint foldM {A S} (body : S → A → result S) (l : list A) (s : S) : result S :=
  match l with
  | [] => Ok s
  | x :: l' => s' ← body s x; foldM body l' s'
  end.

(** [sorted(l, key=key, reverse=True)]: a stable sort, descending by key.
    An element is placed before the first element whose key is not
    strictly greater, so elements with equal keys keep their order. *)
Section StableSort.
Context {A K : Type} (key : A → K) (ltb : K → K → bool).

Fixpoint insert_desc (x : A) (l : list A) : list A :=
  match l with
  | [] => [x]
  | y :: l' =>
      if ltb (key x) (key y) then y :: insert_desc x l' else x :: y :: l'
  end.

Fixpoint sort_desc (l : list A) : list A :=
  match l with
  | [] => []
  | x :: l' => insert_desc x (sort_desc l')
  end.
End StableSort.

Definition Rltb (x y : R) : bool := if Rlt_dec x y then true else false.

(** [sum(l)] over floats *)
Definition Rsum (l : list R) : R := foldr Rplus 0%R l.

(** * networkx *)

(** The part of networkx the engine calls.  A [DiGraph] keeps its nodes in a
    dictionary and its edges in per-node adjacency dictionaries, all in
    insertion order.  The model keeps the nodes and the edges in the order of
    their first insertion; the views are derived from them in the order
    networkx iterates. *)
Module nx.

(** The attribute dictionary of an edge.  The engine creates edges only
    through [add_relationship], which sets exactly these three keys. *)
Record attrs : Type := Attrs {
  weight : R;
  relationship_type : string;
  metadata : pydict
}.

Abbreviation edge := (string * string * attrs)%type.

Record DiGraph : Type := MkDiGraph {
  nodes : list string;
  edges : list edge
}.

(** [nx.DiGraph()] *)
Definition empty : DiGraph := MkDiGraph [] [].

(** [n in G] *)
Definition has_node (G : DiGraph) (n : string) : bool :=
  bool_decide (n ∈ nodes G).

(** [G.add_node(n)], no attributes *)
Definition add_node (G : DiGraph) (n : string) : DiGraph :=
  if has_node G n then G else MkDiGraph (nodes G ++ [n]) (edges G).

(** [G[u][v]] when the edge exists *)
Fixpoint lookup_edge (es : list edge) (u v : string) : option attrs :=
  match es with
  | [] => None
  | e :: es' => if bool_decide (e.1 = (u, v)) then Some e.2 else lookup_edge es' u v
  end.

Definition get_edge (G : DiGraph) (u v : string) : option attrs :=
  lookup_edge (edges G) u v.

(** [G.has_edge(u, v)] *)
Definition has_edge (G : DiGraph) (u v : string) : bool :=
  bool_decide (is_Some (get_edge G u v)).

(** The update of the adjacency dictionaries by [add_edge]: an existing
    entry keeps its place and takes the new attributes (all three keys are
    given, so [datadict.update] replaces them all); a new entry goes last. *)
Fixpoint set_edge (es : list edge) (u v : string) (d : attrs) : list edge :=
  match es with
  | [] => [(u, v, d)]
  | e :: es' =>
      if bool_decide (e.1 = (u, v)) then (u, v, d) :: es' else e :: set_edge es' u v d
  end.

(** [G.add_edge(u, v, weight=.., relationship_type=.., metadata=..)] *)
Definition add_edge (G : DiGraph) (u v : string) (d : attrs) : DiGraph :=
  let G1 := add_node G u in
  let G2 := add_node G1 v in
  MkDiGraph (nodes G2) (set_edge (edges G2) u v d).

(** [G.out_edges(n, data=True)] for a node of the graph *)
Definition out_edges (G : DiGraph) (n : string) : list edge :=
  filter (λ e : edge, e.1.1 = n) (edges G).

(** [G.in_edges(n, data=True)] for a node of the graph *)
Definition in_edges (G : DiGraph) (n : string) : list edge :=
  filter (λ e : edge, e.1.2 = n) (edges G).

(** [G.edges(data=True)]: node by node, each node's out-edges *)
Definition edges_view (G : DiGraph) : list edge :=
  n ← nodes G; out_edges G n.

(** [G.successors(n)] *)
Definition successors (G : DiGraph) (n : string) : list string :=
  (λ e : edge, e.1.2) <$> out_edges G n.

(** ** Simple paths *)

(** [_all_simple_edge_paths], read as node paths: the depth-first search
    that considers [next_node] as the next node of the current path [cur]
    (kept in reverse).  A target is yielded when it is reached; the search
    goes on through [next_node] while the path is shorter than the cutoff
    ([budget] is the cutoff minus the length of [cur]) and the target is
    still to be reached. *)
Fixpoint simple_paths_visit (G : DiGraph) (target : string) (budget : nat)
    (cur : list string) (next_node : string) : list (list string) :=
  (if bool_decide (next_node = target) then [reverse (next_node :: cur)] else [])
  ++
  match budget with
  | O => []
  | S budget' =>
      if bool_decide ((target ∉ cur) ∧ next_node ≠ target)
      then
        child ← filter (λ c, c ∉ (next_node :: cur)) (successors G next_node);
        simple_paths_visit G target budget' (next_node :: cur) child
      else []
  end.

(** [list(nx.all_simple_paths(G, source, target, cutoff))], as of
    networkx 3.2.  Both callers check that [target] is a node of the graph
    before the call; for a string that is not a node networkx would search
    for the characters of the string instead, which is left out here. *)
Definition all_simple_paths (G : DiGraph) (source target : string)
    (cutoff : option Z) : result (list (list string)) :=
  if negb (has_node G source) then Raise NodeNotFound
  else if negb (has_node G target) then Raise NodeNotFound
  else
    let cutoff := default (Z.of_nat (length (nodes G)) - 1)%Z cutoff in
    if (0 <=? cutoff)%Z
    then Ok (simple_paths_visit G target (Z.to_nat cutoff) [] source)
    else Ok [].

(** ** The undirected view *)

(** An undirected [Graph]: its nodes and its edges, each edge once per
    direction it came from. *)
Record Graph : Type := MkGraph {
  unodes : list string;
  uedges : list (string * string)
}.

(** [G.to_undirected()] *)
Definition to_undirected (G : DiGraph) : Graph :=
  MkGraph (nodes G) ((λ e : edge, e.1) <$> edges_view G).

(** The keys of [U._adj[n]].  A self-loop makes a node its own neighbour.
    The order of the keys is never observed by the engine. *)
Definition adj (U : Graph) (n : string) : gset string :=
  list_to_set
    (e ← uedges U;
     (if bool_decide (e.1 = n) then [e.2] else [])
       ++ (if bool_decide (e.2 = n) then [e.1] else [])).

(** [U.neighbors(n)] *)
Definition neighbors (U : Graph) (n : string) : result (gset string) :=
  if bool_decide (n ∈ unodes U) then Ok (adj U n) else Raise NetworkXError.

(** The graph without the node [n] and the edges that touch it *)
Definition without_node (U : Graph) (n : string) : Graph :=
  MkGraph (filter (λ m, m ≠ n) (unodes U))
          (filter (λ e, e.1 ≠ n ∧ e.2 ≠ n) (uedges U)).

(** [U.copy()] followed by [remove_node(n)] on the copy *)
Definition remove_node (U : Graph) (n : string) : result Graph :=
  if bool_decide (n ∈ unodes U) then Ok (without_node U n)
  else Raise NetworkXError.

(** [_plain_bfs]: the [while nextlevel] loop, level by level.  Every turn
    with a non-empty level adds a node to [seen], so the number of nodes
    bounds the number of turns. *)
Fixpoint plain_bfs (fuel : nat) (U : Graph) (seen nextlevel : gset string)
    : gset string :=
  match fuel with
  | O => seen
  | S fuel' =>
      if bool_decide (nextlevel = ∅) then seen
      else
        let found := ⋃ (adj U <$> elements nextlevel) ∖ seen in
        plain_bfs fuel' U (seen ∪ found) found
  end.

(** The component of [source] *)
Definition component (U : Graph) (source : string) : gset string :=
  plain_bfs (length (unodes U)) U {[source]} {[source]}.

(** [connected_components]: one component per node not seen before *)
Definition connected_components (U : Graph) : list (gset string) :=
  (foldl
     (λ (st : gset string * list (gset string)) v,
        if bool_decide (v ∈ st.1) then st
        else let c := component U v in (st.1 ∪ c, st.2 ++ [c]))
     (∅, []) (unodes U)).2.

(** [nx.number_connected_components(U)] *)
Definition number_connected_components (U : Graph) : nat :=
  length (connected_components U).

End nx.

(** * KnowledgeGraph *)

Record KnowledgeGraph : Type := MkKG {
  graph : nx.DiGraph;
  entity_data : gmap string pydict
}.

(** [KnowledgeGraph()] *)
Definition kg_init : KnowledgeGraph := MkKG nx.empty ∅.

(** [entity in kg] *)
Definition contains (kg : KnowledgeGraph) (entity : string) : bool :=
  nx.has_node (graph kg) entity.

Definition add_entity (kg : KnowledgeGraph) (entity : string)
    (metadata : option pydict) : KnowledgeGraph :=
  let g := nx.add_node (graph kg) entity in
  if truthy metadata
  then MkKG g (<[entity := default [] metadata]> (entity_data kg))
  else MkKG g (entity_data kg).

Definition add_relationship (kg : KnowledgeGraph) (source target : string)
    (weight : R) (relationship_type : string) (metadata : option pydict)
    : KnowledgeGraph :=
  let weight := Rmax 0 (Rmin 1 weight) in
  let kg1 := if contains kg source then kg else add_entity kg source None in
  let kg2 := if contains kg1 target then kg1 else add_entity kg1 target None in
  MkKG (nx.add_edge (graph kg2) source target
          (nx.Attrs weight relationship_type (or_empty metadata)))
       (entity_data kg2).

Definition get_entities (kg : KnowledgeGraph) : list string :=
  nx.nodes (graph kg).

Definition get_relationships (kg : KnowledgeGraph) : list nx.edge :=
  nx.edges_view (graph kg).

(** The dictionary [{'outgoing': .., 'incoming': ..}] *)
Record entity_relationships : Type := MkRels {
  outgoing : list (string * R * string);
  incoming : list (string * R * string)
}.

Definition get_entity_relationships (kg : KnowledgeGraph) (entity : string)
    : entity_relationships :=
  if negb (contains kg entity) then MkRels [] []
  else
    MkRels
      ((λ e : nx.edge, (e.1.2, nx.weight e.2, nx.relationship_type e.2))
         <$> nx.out_edges (graph kg) entity)
      ((λ e : nx.edge, (e.1.1, nx.weight e.2, nx.relationship_type e.2))
         <$> nx.in_edges (graph kg) entity).

(** The [for _ in range(order)] loop of [get_neighbors] *)
Fixpoint neighbors_bfs (undirected : nx.Graph) (n : nat)
    (current_level visited : gset string) : result (gset string) :=
  match n with
  | O => Ok current_level
  | S n' =>
      next_level ←
        foldM (λ next_level node,
                 neighbors ← nx.neighbors undirected node;
                 Ok (next_level ∪ (neighbors ∖ visited)))
              (elements current_level) ∅;
      neighbors_bfs undirected n' next_level (visited ∪ next_level)
  end.

Definition get_neighbors (kg : KnowledgeGraph) (entity : string) (order : Z)
    : result (gset string) :=
  if negb (contains kg entity) then Ok ∅
  else
    let undirected := nx.to_undirected (graph kg) in
    if (order =? 1)%Z then nx.neighbors undirected entity
    else neighbors_bfs undirected (Z.to_nat order) {[entity]} {[entity]}.

Definition find_all_paths (kg : KnowledgeGraph) (source target : string)
    (max_length : option Z) : result (list (list string)) :=
  if negb (contains kg source) || negb (contains kg target) then Ok []
  else
    let paths :=
      if int_truthy max_length
      then nx.all_simple_paths (graph kg) source target max_length
      else nx.all_simple_paths (graph kg) source target None in
    match paths with
    | Raise NetworkXNoPath => Ok []
    | r => r
    end.

Section ShortestPath.
(** [nx.shortest_path(G, source, target)]: the engine relies on nothing but
    its raising [NetworkXNoPath] when there is no path. *)
Variable nx_shortest_path :
  nx.DiGraph → string → string → result (list string).

Definition find_shortest_path (kg : KnowledgeGraph) (source target : string)
    : result (option (list string)) :=
  if negb (contains kg source) || negb (contains kg target) then Ok None
  else
    match nx_shortest_path (graph kg) source target with
    | Ok p => Ok (Some p)
    | Raise NetworkXNoPath => Ok None
    | Raise e => Raise e
    end.
End ShortestPath.

Fixpoint get_path_weights (kg : KnowledgeGraph) (path : list string) : list R :=
  match path with
  | [] => []
  | a :: rest =>
      match rest with
      | [] => []
      | b :: _ =>
          match nx.get_edge (graph kg) a b with
          | Some d => nx.weight d :: get_path_weights kg rest
          | None => get_path_weights kg rest
          end
      end
  end.

Definition get_average_path_weight (kg : KnowledgeGraph) (path : list string) : R :=
  let weights := get_path_weights kg path in
  match weights with
  | [] => 0%R
  | _ :: _ => (Rsum weights / INR (length weights))%R
  end.

(** ** Export and import *)

(** [{'id': .., 'metadata': ..}]; a key read with [.get] may be missing. *)
Record node_record : Type := MkNodeRec {
  node_id : string;
  node_metadata : option pydict
}.

(** [{'source': .., 'target': .., 'weight': .., 'relationship_type': ..,
    'metadata': ..}] *)
Record edge_record : Type := MkEdgeRec {
  edge_source : string;
  edge_target : string;
  edge_weight : option R;
  edge_relationship_type : option string;
  edge_metadata : option pydict
}.

(** [{'nodes': [..], 'edges': [..]}] *)
Record graph_record : Type := MkGraphRec {
  rec_nodes : option (list node_record);
  rec_edges : option (list edge_record)
}.

Definition to_dict (kg : KnowledgeGraph) : graph_record :=
  MkGraphRec
    (Some ((λ node, MkNodeRec node (Some (default [] (entity_data kg !! node))))
             <$> nx.nodes (graph kg)))
    (Some ((λ e : nx.edge,
              MkEdgeRec e.1.1 e.1.2 (Some (nx.weight e.2))
                (Some (nx.relationship_type e.2)) (Some (nx.metadata e.2)))
             <$> nx.edges_view (graph kg))).

Definition from_dict (data : graph_record) : KnowledgeGraph :=
  let kg :=
    foldl (λ kg node_data,
             add_entity kg (node_id node_data) (node_metadata node_data))
          kg_init (default [] (rec_nodes data)) in
  foldl (λ kg edge_data,
           add_relationship kg (edge_source edge_data) (edge_target edge_data)
             (default (5 / 10)%R (edge_weight edge_data))
             (default "related_to" (edge_relationship_type edge_data))
             (edge_metadata edge_data))
        kg (default [] (rec_edges data)).

(** * PathAnalyzer *)

Definition _calculate_path_strength (kg : KnowledgeGraph) (path : list string) : R :=
  if (length path <? 2)%nat then 0%R
  else
    let weights := get_path_weights kg path in
    match weights with
    | [] => 0%R
    | _ :: _ =>
        let avg_weight := (Rsum weights / INR (length weights))%R in
        let path_length := (Z.of_nat (length path) - 1)%Z in
        let length_penalty := (1 / (1 + IZR (path_length - 1) * (2 / 10)))%R in
        (avg_weight * length_penalty)%R
    end.

Definition find_critical_entities (kg : KnowledgeGraph)
    : result (list (string * nat)) :=
  let entities := get_entities kg in
  let undirected := nx.to_undirected (graph kg) in
  let current_components := nx.number_connected_components undirected in
  critical_entities ←
    foldM (λ critical_entities entity,
             temp_graph ← nx.remove_node undirected entity;
             let new_components := nx.number_connected_components temp_graph in
             Ok (if (current_components <? new_components)%nat
                 then critical_entities ++ [(entity, new_components)]
                 else critical_entities))
          entities [];
  Ok (sort_desc snd Nat.ltb critical_entities).

(** * RelationshipAnalyzer *)

Definition find_strongest_connections (kg : KnowledgeGraph) (entity : string)
    (n : Z) : list (string * R * string) :=
  if negb (contains kg entity) then []
  else
    let relationships := get_entity_relationships kg entity in
    let all_connections :=
      ((λ c, (c, "outgoing")) <$> outgoing relationships)
        ++ ((λ c, (c, "incoming")) <$> incoming relationships) in
    let sorted :=
      sort_desc (λ conn : string * R * string * string, conn.1.1.2) Rltb
        all_connections in
    fst <$> slice_to sorted n.

Definition get_entity_influence_score (kg : KnowledgeGraph) (entity : string) : R :=
  if negb (contains kg entity) then 0%R
  else
    let relationships := get_entity_relationships kg entity in
    let total_weight :=
      (Rsum ((λ c : string * R * string, c.1.2) <$> outgoing relationships)
       + Rsum ((λ c : string * R * string, c.1.2) <$> incoming relationships))%R in
    let num_connections :=
      (length (outgoing relationships) + length (incoming relationships))%nat in
    if (num_connections =? 0)%nat then 0%R
    else
      let avg_weight := (total_weight / INR num_connections)%R in
      let influence := (avg_weight * (1 + ln (INR (num_connections + 1)) / 10))%R in
      Rmin 1 influence.

(** * The states the engine can be in *)

(** What every graph built through [add_entity] and [add_relationship]
    satisfies. *)
Record wf (kg : KnowledgeGraph) : Prop := MkWf {
  wf_nodes : NoDup (nx.nodes (graph kg));
  wf_keys : NoDup (nx.edges (graph kg)).*1;
  wf_ends : ∀ e, e ∈ nx.edges (graph kg) →
    e.1.1 ∈ nx.nodes (graph kg) ∧ e.1.2 ∈ nx.nodes (graph kg);
  wf_weight : ∀ e, e ∈ nx.edges (graph kg) → (0 <= nx.weight e.2 <= 1)%R;
  wf_data : ∀ n m, entity_data kg !! n = Some m →
    n ∈ nx.nodes (graph kg) ∧ m ≠ []
}.

(** The graphs reached from the empty graph by the two mutators. *)
Inductive reachable : KnowledgeGraph → Prop :=
| reachable_init : reachable kg_init
| reachable_add_entity kg entity metadata :
    reachable kg → reachable (add_entity kg entity metadata)
| reachable_add_relationship kg source target weight relationship_type metadata :
    reachable kg →
    reachable (add_relationship kg source target weight relationship_type metadata).

(** [clamp(w, lo, hi)], as the specification words it. *)
Definition clamp (w lo hi : R) : R :=
  if Rlt_dec w lo then lo else if Rlt_dec hi w then hi else w.

(** [entity_data.get(entity, {})], the metadata an export shows *)
Definition stored_metadata (kg : KnowledgeGraph) (entity : string) : pydict :=
  default [] (entity_data kg !! entity).

(** A directed path of the graph: a relationship leads from every entity
    of the sequence to the next. *)
Fixpoint is_path (G : nx.DiGraph) (p : list string) : Prop :=
  match p with
  | [] => True
  | a :: rest =>
      match rest with
      | [] => True
      | b :: _ => nx.has_edge G a b = true ∧ is_path G rest
      end
  end.

(** A simple path from [source] to [target]: a path of distinct entities. *)
Definition simple_path (G : nx.DiGraph) (source target : string)
    (p : list string) : Prop :=
  head p = Some source ∧ last p = Some target ∧ NoDup p ∧ is_path G p.

(** The weights of the relationships an entity takes part in, outgoing
    before incoming: the terms of its influence score. *)
Definition incident_weights (kg : KnowledgeGraph) (entity : string) : list R :=
  let relationships := get_entity_relationships kg entity in
  ((λ c : string * R * string, c.1.2) <$> outgoing relationships)
    ++ ((λ c : string * R * string, c.1.2) <$> incoming relationships).

Definition num_connections (kg : KnowledgeGraph) (entity : string) : nat :=
  length (incident_weights kg entity).

Definition average_incident_weight (kg : KnowledgeGraph) (entity : string) : R :=
  (Rsum (incident_weights kg entity) / INR (num_connections kg entity))%R.

(** The influence score as the specification words it: nothing for no
    connection, else [min(1.0, avg_weight * (1 + ln(num_connections + 1) / 10))]. *)
Definition influence (avg_weight : R) (num_connections : nat) : R :=
  match num_connections with
  | O => 0%R
  | S _ => Rmin 1 (avg_weight * (1 + ln (INR num_connections + 1) / 10))%R
  end.

(** The number of connected components of the undirected view once an
    entity is removed from it. *)
Definition components_without (kg : KnowledgeGraph) (entity : string) : nat :=
  nx.number_connected_components
    (nx.without_node (nx.to_undirected (graph kg)) entity).

(** Two nodes of an undirected graph are connected when a chain of edges,
    each taken in either direction, leads from one to the other. *)
Definition adjacent (U : nx.Graph) (a b : string) : Prop := b ∈ nx.adj U a.

Definition connected (U : nx.Graph) : relation string := rtc (adjacent U).

(** An undirected graph as networkx keeps it: every node once, and the
    ends of every edge among the nodes. *)
Definition graph_ok (U : nx.Graph) : Prop :=
  NoDup (nx.unodes U)
  ∧ ∀ e, e ∈ nx.uedges U → e.1 ∈ nx.unodes U ∧ e.2 ∈ nx.unodes U.

(** A list of sets of nodes that lists the classes of connected nodes, each
    once: every set is the class of a node, every node is in a set of the
    list, and no two sets of the list share a node. *)
Definition lists_components (U : nx.Graph) (cs : list (gset string)) : Prop :=
  (∀ c, c ∈ cs → ∃ v, v ∈ nx.unodes U ∧ ∀ x, x ∈ c ↔ connected U v x)
  ∧ (∀ v, v ∈ nx.unodes U → ∃ c, c ∈ cs ∧ v ∈ c)
  ∧ (∀ i j c1 c2, cs !! i = Some c1 → cs !! j = Some c2 → i ≠ j → c1 ## c2).

(** The state of [connected_components] between two nodes: the sets found
    so far are classes of connected nodes, no two of them share a node, and
    [seen] is their union. *)
Definition components_inv (U : nx.Graph) (st : gset string * list (gset string)) : Prop :=
  (∀ x, x ∈ st.1 ↔ ∃ c, c ∈ st.2 ∧ x ∈ c)
  ∧ (∀ c, c ∈ st.2 → ∃ v, v ∈ nx.unodes U ∧ ∀ x, x ∈ c ↔ connected U v x)
  ∧ (∀ i j c1 c2, st.2 !! i = Some c1 → st.2 !! j = Some c2 → i ≠ j → c1 ## c2).

(** * The rest of the engine *)

(** [range(lo, hi)] *)
Definition py_range (lo hi : Z) : list Z := seqZ lo (hi - lo).

(** The dictionary of [get_all_neighbors_up_to_order], in the order its keys
    are set; the keys of a [range] are distinct, so no entry is replaced. *)
Definition get_all_neighbors_up_to_order (kg : KnowledgeGraph) (entity : string)
    (max_order : Z) : result (list (Z * gset string)) :=
  foldM (λ neighbors_by_order order,
           neighbors ← get_neighbors kg entity order;
           Ok (neighbors_by_order ++ [(order, neighbors)]))
        (py_range 1 (max_order + 1)) [].

(** A call of one of the two mutators of the store *)
Inductive mutation : Type :=
| AddEntity (entity : string) (metadata : option pydict)
| AddRelationship (source target : string) (weight : R)
    (relationship_type : string) (metadata : option pydict).

Definition mutate (kg : KnowledgeGraph) (m : mutation) : KnowledgeGraph :=
  match m with
  | AddEntity entity metadata => add_entity kg entity metadata
  | AddRelationship source target weight relationship_type metadata =>
      add_relationship kg source target weight relationship_type metadata
  end.

(** The names a call mentions *)
Definition mutation_names (m : mutation) : list string :=
  match m with
  | AddEntity entity _ => [entity]
  | AddRelationship source target _ _ _ => [source; target]
  end.

Definition rank_entities_by_influence (kg : KnowledgeGraph) (n : Z)
    : list (string * R) :=
  let entities := get_entities kg in
  let scores :=
    (λ entity, (entity, get_entity_influence_score kg entity)) <$> entities in
  slice_to (sort_desc snd Rltb scores) n.

Definition Rleb (x y : R) : bool := if Rle_dec x y then true else false.

(** [sum(1 for w in weights if p(w))] *)
Definition count_where (p : R → bool) (weights : list R) : nat :=
  length (List.filter p weights).

(** The loop [type_counts[rt] = type_counts.get(rt, 0) + 1] *)
Definition count_types (rel_types : list string) : gmap string nat :=
  foldl (λ type_counts rt, <[rt := default 0 (type_counts !! rt) + 1]> type_counts)
        ∅ rel_types.

(** The dictionary [get_relationship_summary] returns; the keys
    ['min_weight'] and ['max_weight'] are absent for a graph without
    relationships. *)
Record relationship_summary : Type := MkSummary {
  total_relationships : nat;
  average_weight : R;
  min_weight : option R;
  max_weight : option R;
  weight_distribution : list (string * nat);
  relationship_types : gmap string nat
}.

Definition get_relationship_summary (kg : KnowledgeGraph) : relationship_summary :=
  let relationships := get_relationships kg in
  match relationships with
  | [] => MkSummary 0 0 None None [] ∅
  | r :: rs =>
      let w0 := nx.weight r.2 in
      let ws := (λ e : nx.edge, nx.weight e.2) <$> rs in
      let weights := w0 :: ws in
      let rel_types := (λ e : nx.edge, nx.relationship_type e.2) <$> relationships in
      let weight_ranges :=
        [("weak (0-0.3)", count_where (λ w, Rleb w (3 / 10)) weights);
         ("moderate (0.3-0.6)",
          count_where (λ w, Rltb (3 / 10) w && Rleb w (6 / 10)) weights);
         ("strong (0.6-0.8)",
          count_where (λ w, Rltb (6 / 10) w && Rleb w (8 / 10)) weights);
         ("very_strong (0.8-1.0)", count_where (λ w, Rltb (8 / 10) w) weights)] in
      MkSummary (length relationships)
        (Rsum weights / INR (length weights))
        (Some (foldl Rmin w0 ws))
        (Some (foldl Rmax w0 ws))
        weight_ranges
        (count_types rel_types)
  end.

(** ** Paths between two entities *)

(** The dictionary [find_connection_paths] builds for a path *)
Module connection.
Record path_info : Type := MkPathInfo {
  path : list string;
  length : Z;
  average_weight : R;
  weights : list R;
  strength : R
}.
End connection.

Definition find_connection_paths (kg : KnowledgeGraph) (entity1 entity2 : string)
    (max_paths max_length : Z) : result (list connection.path_info) :=
  paths ← find_all_paths kg entity1 entity2 (Some max_length);
  let path_info :=
    (λ path,
       let avg_weight := get_average_path_weight kg path in
       let weights := get_path_weights kg path in
       connection.MkPathInfo path (Z.of_nat (length path) - 1) avg_weight weights
         (if (0 <? length path)%nat then (avg_weight / INR (length path))%R
          else 0%R))
      <$> slice_to paths max_paths in
  Ok (sort_desc connection.strength Rltb path_info).

(** [sum(weights) / len(weights) if weights else 0] *)
Definition mean_or_zero (weights : list R) : R :=
  match weights with
  | [] => 0%R
  | _ :: _ => (Rsum weights / INR (length weights))%R
  end.

(** [min(weights) if weights else 0] *)
Definition min_or_zero (weights : list R) : R :=
  match weights with
  | [] => 0%R
  | w :: ws => foldl Rmin w ws
  end.

(** [max(weights) if weights else 0] *)
Definition max_or_zero (weights : list R) : R :=
  match weights with
  | [] => 0%R
  | w :: ws => foldl Rmax w ws
  end.

(** The dictionary [find_multi_hop_paths] builds for a path *)
Module multi_hop.
Record hop_info : Type := MkHopInfo {
  path : list string;
  weights : list R;
  average_weight : R;
  min_weight : R;
  max_weight : R
}.
End multi_hop.

(** The dictionary [paths_by_length], in the order its keys are set; the
    keys come from a [range], so no entry is replaced. *)
Definition find_multi_hop_paths (kg : KnowledgeGraph) (source target : string)
    (min_hops max_hops : Z) : result (list (Z * list multi_hop.hop_info)) :=
  foldM (λ paths_by_length hop_count,
           paths ← find_all_paths kg source target (Some hop_count);
           let exact_length_paths :=
             filter (λ p, (Z.of_nat (length p) - 1)%Z = hop_count) paths in
           match exact_length_paths with
           | [] => Ok paths_by_length
           | _ :: _ =>
               let path_infos :=
                 (λ path,
                    let weights := get_path_weights kg path in
                    multi_hop.MkHopInfo path weights (mean_or_zero weights)
                      (min_or_zero weights) (max_or_zero weights))
                   <$> exact_length_paths in
               Ok (paths_by_length
                     ++ [(hop_count,
                          sort_desc multi_hop.average_weight Rltb path_infos)])
           end)
        (py_range min_hops (max_hops + 1)) [].

(** The dictionary [find_all_connecting_paths] builds for a path *)
Module connecting.
Record connecting_info : Type := MkConnectingInfo {
  path : list string;
  direction : string;
  length : Z;
  weights : list R;
  average_weight : R;
  strength_score : R
}.
End connecting.

Definition find_all_connecting_paths (kg : KnowledgeGraph)
    (entity1 entity2 : string) (max_length : Z)
    : result (list connecting.connecting_info) :=
  paths_1_to_2 ← find_all_paths kg entity1 entity2 (Some max_length);
  paths_2_to_1 ← find_all_paths kg entity2 entity1 (Some max_length);
  let info direction path :=
    let weights := get_path_weights kg path in
    connecting.MkConnectingInfo path direction (Z.of_nat (length path) - 1)
      weights (mean_or_zero weights) (_calculate_path_strength kg path) in
  let all_path_infos :=
    (info (entity1 +:+ " → " +:+ entity2) <$> paths_1_to_2)
      ++ (info (entity2 +:+ " → " +:+ entity1) <$> paths_2_to_1) in
  Ok (sort_desc connecting.strength_score Rltb all_path_infos).

Definition find_common_neighbors (kg : KnowledgeGraph) (entity1 entity2 : string)
    (order : Z) : result (gset string) :=
  neighbors1 ← get_neighbors kg entity1 order;
  neighbors2 ← get_neighbors kg entity2 order;
  Ok (neighbors1 ∩ neighbors2).

(** What the body of the loop of [find_multi_hop_paths] computes for a hop
    count: the paths of exactly that many relationships, and the record of a
    path. *)
Definition exact_length_paths (kg : KnowledgeGraph) (source target : string)
    (hop_count : Z) : list (list string) :=
  match find_all_paths kg source target (Some hop_count) with
  | Ok paths => filter (λ p, (Z.of_nat (length p) - 1)%Z = hop_count) paths
  | Raise _ => []
  end.

Definition hop_record (kg : KnowledgeGraph) (path : list string)
    : multi_hop.hop_info :=
  let weights := get_path_weights kg path in
  multi_hop.MkHopInfo path weights (mean_or_zero weights)
    (min_or_zero weights) (max_or_zero weights).

(** * GraphStatistics *)

(** [[list(comp) for comp in components]].  Python lists a set in its
    hashing order; the model lists it with [elements], and nothing that is
    proved of the components depends on that order. *)
Definition get_connected_components (kg : KnowledgeGraph) : list (list string) :=
  let undirected := nx.to_undirected (graph kg) in
  let components := nx.connected_components undirected in
  elements <$> components.

(** [G.degree()] of a directed graph: node by node, the number of out-edges
    plus the number of in-edges of the node, so that a self-loop counts
    twice. *)
Definition degree (G : nx.DiGraph) : list (string * nat) :=
  (λ n, (n, (length (nx.out_edges G n) + length (nx.in_edges G n))%nat))
    <$> nx.nodes G.

(** The nodes of a graph are distinct, so [dict(G.degree()).values()] are
    the degrees in the order of the nodes. *)
Definition get_degree_distribution (kg : KnowledgeGraph) : gmap nat nat :=
  let degrees := degree (graph kg) in
  foldl (λ degree_dist degree,
           <[degree := (default 0 (degree_dist !! degree) + 1)%nat]> degree_dist)
        ∅ degrees.*2.

(** [sum(k * v for k, v in degree_dist.items())] *)
Definition total_degree (degree_dist : gmap nat nat) : nat :=
  sum_list ((λ kv : nat * nat, (kv.1 * kv.2)%nat) <$> map_to_list degree_dist).

(** ** Neighbourhoods of an entity *)

(** The dictionaries of [analyze_neighborhood_orders]: a connection of the
    entity, and the analysis of an order.  The keys ['details'] and
    ['average_weight'] are set for the order 1 only.  A set is listed in the
    hashing order of Python; the model lists it with [elements]. *)
Module neighborhood.
Record detail : Type := MkDetail {
  entity : string;
  weight : R;
  relationship_type : string;
  direction : string
}.

Record analysis : Type := MkAnalysis {
  count : nat;
  entities : list string;
  details : option (list detail);
  average_weight : option R
}.
End neighborhood.

Definition analyze_neighborhood_orders (kg : KnowledgeGraph) (entity : string)
    (max_order : Z) : result (list (Z * neighborhood.analysis)) :=
  if negb (contains kg entity) then Ok []
  else
    foldM (λ analysis order,
             neighbors ← get_neighbors kg entity order;
             if (order =? 1)%Z
             then
               let relationships := get_entity_relationships kg entity in
               let neighbor_details :=
                 ((λ c : string * R * string,
                     neighborhood.MkDetail c.1.1 c.1.2 c.2 "outgoing")
                    <$> outgoing relationships)
                   ++ ((λ c : string * R * string,
                          neighborhood.MkDetail c.1.1 c.1.2 c.2 "incoming")
                         <$> incoming relationships) in
               Ok (analysis
                     ++ [(order,
                          neighborhood.MkAnalysis (size neighbors)
                            (elements neighbors) (Some neighbor_details)
                            (Some (mean_or_zero
                                     (neighborhood.weight <$> neighbor_details))))])
             else
               Ok (analysis
                     ++ [(order,
                          neighborhood.MkAnalysis (size neighbors)
                            (elements neighbors) None None)]))
          (py_range 1 (max_order + 1)) [].

(** [d[k]] for a key of the dictionary, [None] for [k not in d] *)
Fixpoint dict_get {A} (d : list (Z * A)) (k : Z) : option A :=
  match d with
  | [] => None
  | kv :: d' => if bool_decide (kv.1 = k) then Some kv.2 else dict_get d' k
  end.

(** What [analyze_entity_connectivity] returns: [{'entity': .., 'exists':
    False}] for a name that is no entity, the full dictionary otherwise. *)
Inductive connectivity : Type :=
| Absent (entity : string)
| Present (entity : string)
    (direct_connections outgoing_connections incoming_connections : nat)
    (neighborhoods : list (Z * neighborhood.analysis))
    (total_reachable : nat) (reachable_entities : list string).

Definition analyze_entity_connectivity (kg : KnowledgeGraph) (entity : string)
    (max_order : Z) : result connectivity :=
  if negb (contains kg entity) then Ok (Absent entity)
  else
    neighborhoods ← analyze_neighborhood_orders kg entity max_order;
    let total_reachable : gset string :=
      foldl (λ total_reachable order,
               match dict_get neighborhoods order with
               | Some a => total_reachable ∪ list_to_set (neighborhood.entities a)
               | None => total_reachable
               end)
            ∅ (py_range 1 (max_order + 1)) in
    let relationships := get_entity_relationships kg entity in
    let total_connections :=
      (length (outgoing relationships) + length (incoming relationships))%nat in
    Ok (Present entity total_connections
          (length (outgoing relationships)) (length (incoming relationships))
          neighborhoods (size total_reachable) (elements total_reachable)).

(** The connections of an entity as [analyze_neighborhood_orders] lists
    them, and the analysis it stores for an order and its neighbours. *)
Definition neighbor_details (kg : KnowledgeGraph) (entity : string)
    : list neighborhood.detail :=
  let relationships := get_entity_relationships kg entity in
  ((λ c : string * R * string,
      neighborhood.MkDetail c.1.1 c.1.2 c.2 "outgoing")
     <$> outgoing relationships)
    ++ ((λ c : string * R * string,
           neighborhood.MkDetail c.1.1 c.1.2 c.2 "incoming")
          <$> incoming relationships).

Definition order_analysis (kg : KnowledgeGraph) (entity : string) (order : Z)
    (neighbors : gset string) : neighborhood.analysis :=
  if (order =? 1)%Z
  then neighborhood.MkAnalysis (size neighbors) (elements neighbors)
         (Some (neighbor_details kg entity))
         (Some (mean_or_zero
                  (neighborhood.weight <$> neighbor_details kg entity)))
  else neighborhood.MkAnalysis (size neighbors) (elements neighbors) None None.

(** * SearchEngine *)

(** The engine asks a remote language model when it has a client.  What the
    remote answers is not in the hands of the program: it is a parameter of
    the embedding, which may depend on the number of requests made so far as
    well as on the request.  An answer is taken to be well typed, every key
    of it being optional as the engine reads it with [.get]; the other case
    ([inr], with the message of the exception) stands for a request or a
    parsing that fails, which the engine catches. *)
Module remote.
Record relationship : Type := MkRelationship {
  relationship_exists : option bool;
  relationship_type : option string;
  weight : option R;
  description : option string;
  bidirectional : option bool;
  confidence : option R
}.

Record client : Type := MkClient {
  entity_info : nat → string → string → string + string;
  analyze : nat → string → string → string → relationship + string;
  related : nat → string → string → Z → list string + string
}.
End remote.

(** [self.client] is [None] when there is no API key. *)
Record SearchEngine : Type := MkSearchEngine {
  client : option remote.client
}.

(** The functions of the engine take the number of requests made so far and
    return it with their result. *)
Definition search_entity_info (se : SearchEngine) (requests : nat)
    (entity context : string) : pydict * nat :=
  match client se with
  | None =>
      ([("entity", JStr entity);
        ("description", JStr ("Information about " +:+ entity));
        ("context", JStr context)],
       requests)
  | Some c =>
      match remote.entity_info c requests entity context with
      | inl description =>
          ([("entity", JStr entity);
            ("description", JStr description);
            ("context", JStr context)],
           S requests)
      | inr e =>
          ([("entity", JStr entity);
            ("description", JStr ("Information about " +:+ entity));
            ("error", JStr e)],
           S requests)
      end
  end.

(** The dictionary [analyze_relationship] returns; the keys ['confidence'],
    ['exists'] and ['error'] are not always set. *)
Module rel.
Record info : Type := MkInfo {
  entity1 : string;
  entity2 : string;
  relationship_type : string;
  weight : R;
  description : string;
  bidirectional : bool;
  confidence : option R;
  exists_ : option bool;
  error : option string
}.
End rel.

Definition analyze_relationship (se : SearchEngine) (requests : nat)
    (entity1 entity2 context : string) : rel.info * nat :=
  match client se with
  | None =>
      (rel.MkInfo entity1 entity2 "related_to" (5 / 10)
         ("Relationship between " +:+ entity1 +:+ " and " +:+ entity2)
         false None None None,
       requests)
  | Some c =>
      match remote.analyze c requests entity1 entity2 context with
      | inl result =>
          (rel.MkInfo entity1 entity2
             (default "related_to" (remote.relationship_type result))
             (default (5 / 10)%R (remote.weight result))
             (default "" (remote.description result))
             (default false (remote.bidirectional result))
             (Some (default (5 / 10)%R (remote.confidence result)))
             (Some (default true (remote.relationship_exists result)))
             None,
           S requests)
      | inr e =>
          (rel.MkInfo entity1 entity2 "unknown" (3 / 10)
             "Could not analyze relationship" false None (Some false) (Some e),
           S requests)
      end
  end.

(** The body of the inner loop of [batch_analyze_relationships]: the pair is
    analysed, and the analysis is kept when it says that the relationship
    exists with a weight above 0.1. *)
Definition analyze_pair (se : SearchEngine) (context entity1 : string)
    (st : list rel.info * nat) (entity2 : string) : list rel.info * nat :=
  let r := analyze_relationship se st.2 entity1 entity2 context in
  if default false (rel.exists_ r.1) && Rltb (1 / 10) (rel.weight r.1)
  then (st.1 ++ [r.1], r.2)
  else (st.1, r.2).

(** The loops of [batch_analyze_relationships]: [entity1] against the
    entities after it, for every [entity1] of the list. *)
Fixpoint batch_analyze_relationships_from (se : SearchEngine) (context : string)
    (entities : list string) (st : list rel.info * nat) : list rel.info * nat :=
  match entities with
  | [] => st
  | entity1 :: rest =>
      batch_analyze_relationships_from se context rest
        (foldl (analyze_pair se context entity1) st rest)
  end.

Definition batch_analyze_relationships (se : SearchEngine) (requests : nat)
    (entities : list string) (context : string) : list rel.info * nat :=
  batch_analyze_relationships_from se context entities ([], requests).

Definition discover_related_entities (se : SearchEngine) (requests : nat)
    (entity context : string) (max_entities : Z) : list string * nat :=
  match client se with
  | None => ([], requests)
  | Some c =>
      match remote.related c requests entity context max_entities with
      | inl related_entities => (slice_to related_entities max_entities, S requests)
      | inr _ => ([], S requests)
      end
  end.

(** The body of the inner loop of [expand_entity_network] *)
Definition discover_into (se : SearchEngine) (context : string)
    (max_per_entity : Z) (st : gset string * nat) (entity : string)
    : gset string * nat :=
  let related :=
    discover_related_entities se st.2 entity context max_per_entity in
  (st.1 ∪ list_to_set related.1, related.2).

(** The [for order in range(expansion_order)] loop of
    [expand_entity_network], with its [break]; [n] turns are left.  A set is
    iterated in the hashing order of Python, which the model leaves to
    [elements]. *)
Fixpoint expand_levels (se : SearchEngine) (context : string)
    (max_per_entity : Z) (n : nat) (all_entities current_level : gset string)
    (requests : nat) : gset string * nat :=
  match n with
  | O => (all_entities, requests)
  | S n' =>
      let st :=
        foldl (discover_into se context max_per_entity) (∅, requests)
          (elements current_level) in
      let next_level := st.1 ∖ all_entities in
      let all_entities := all_entities ∪ next_level in
      if bool_decide (next_level = ∅) then (all_entities, st.2)
      else expand_levels se context max_per_entity n' all_entities next_level st.2
  end.

Definition expand_entity_network (se : SearchEngine) (requests : nat)
    (seed_entities : list string) (context : string)
    (expansion_order max_per_entity : Z) : list string * nat :=
  let r :=
    expand_levels se context max_per_entity (Z.to_nat expansion_order)
      (list_to_set seed_entities) (list_to_set seed_entities) requests in
  (elements r.1, r.2).

(** ** Building the graph *)

(** The analyzer holds a graph and an engine; its two builders change the
    graph, and the engine may make requests. *)
Definition ensure_entity (se : SearchEngine) (context : string)
    (st : KnowledgeGraph * nat) (entity : string) : KnowledgeGraph * nat :=
  if contains st.1 entity then st
  else
    let entity_info := search_entity_info se st.2 entity context in
    (add_entity st.1 entity (Some entity_info.1), entity_info.2).

Definition add_analyzed (threshold : R) (kg : KnowledgeGraph) (r : rel.info)
    : KnowledgeGraph :=
  if Rleb threshold (rel.weight r)
  then
    let metadata :=
      [("description", JStr (rel.description r));
       ("confidence", JNum (default (5 / 10)%R (rel.confidence r)))] in
    let kg :=
      add_relationship kg (rel.entity1 r) (rel.entity2 r)
        (rel.weight r) (rel.relationship_type r) (Some metadata) in
    if rel.bidirectional r
    then add_relationship kg (rel.entity2 r) (rel.entity1 r)
           (rel.weight r) (rel.relationship_type r) (Some metadata)
    else kg
  else kg.

(** The three loops of [build_graph_from_entities]: [ensure_entity] for the
    entities, the analysis of the pairs, and [add_analyzed] for the
    relationships found. *)
Definition build_graph_from_entities (se : SearchEngine)
    (kg : KnowledgeGraph) (requests : nat) (entities : list string)
    (context : string) (threshold : R) : KnowledgeGraph * nat :=
  let st := foldl (ensure_entity se context) (kg, requests) entities in
  let relationships := batch_analyze_relationships se st.2 entities context in
  (foldl (add_analyzed threshold) st.1 relationships.1, relationships.2).

Definition expand_graph (se : SearchEngine) (kg : KnowledgeGraph)
    (requests : nat) (seed_entities : list string) (context : string)
    (expansion_order max_per_entity : Z) (threshold : R)
    : KnowledgeGraph * nat :=
  let all_entities :=
    expand_entity_network se requests seed_entities context expansion_order
      max_per_entity in
  build_graph_from_entities se kg all_entities.2 all_entities.1 context threshold.

(** What a builder that starts from the graph [kg] and ends with [kg'] keeps
    of [kg]: the entities of [kg] stay in front, in their order and with
    their metadata, and no relationship is lost.  Whatever is new comes
    from the builder: the new entities are among [names], and the
    relationships that are new or changed satisfy [added]. *)
Definition built_from (names : list string) (added : nx.edge → Prop)
    (kg kg' : KnowledgeGraph) : Prop :=
  reachable kg'
  ∧ get_entities kg `prefix_of` get_entities kg'
  ∧ (∀ x, x ∈ get_entities kg' → x ∈ get_entities kg ∨ x ∈ names)
  ∧ (∀ x, x ∈ get_entities kg → stored_metadata kg' x = stored_metadata kg x)
  ∧ (∀ e, e ∈ get_relationships kg' → e ∈ get_relationships kg ∨ added e)
  ∧ (∀ u v, nx.has_edge (graph kg) u v = true →
            nx.has_edge (graph kg') u v = true).

(** [nx.density(G)] of a directed graph: the number of edges over the number
    of ordered pairs of different nodes, and 0 for a graph without edges or
    with one node at most. *)
Definition density (G : nx.DiGraph) : R :=
  let n := length (nx.nodes G) in
  let m := length (nx.edges_view G) in
  if (m =? 0)%nat || (n <=? 1)%nat then 0%R
  else (INR m / INR (n * (n - 1)))%R.

Definition calculate_graph_density (kg : KnowledgeGraph) : R :=
  density (graph kg).

(** [nx.is_connected(U)].  For a graph without nodes networkx raises
    [NetworkXPointlessConcept], which is [None] here; otherwise the
    component of the first node is compared with the whole graph. *)
Definition is_connected (U : nx.Graph) : option bool :=
  match nx.unodes U with
  | [] => None
  | v :: _ => Some (bool_decide (size (nx.component U v) = length (nx.unodes U)))
  end.

Section Diameter.
(** [nx.diameter(U)]: the engine relies on nothing but its result, and
    takes any exception it raises for the answer [-1]. *)
Variable nx_diameter : nx.Graph → result Z.

(** The call of [is_connected] is outside the [try], so that its exception
    is the one of [calculate_diameter]. *)
Definition calculate_diameter (kg : KnowledgeGraph) : option Z :=
  let undirected := nx.to_undirected (graph kg) in
  connected ← is_connected undirected;
  if negb connected then Some (-1)%Z
  else
    match nx_diameter undirected with
    | Ok d => Some d
    | Raise _ => Some (-1)%Z
    end.
End Diameter.

(** ** The connections of an entity, read off the relationships *)

(** The weights of the relationships of the graph that leave an entity, and
    of those that reach it, in the order of [get_relationships]. *)
Definition weights_from (kg : KnowledgeGraph) (entity : string) : list R :=
  (λ e : nx.edge, nx.weight e.2)
    <$> filter (λ e : nx.edge, e.1.1 = entity) (get_relationships kg).

Definition weights_to (kg : KnowledgeGraph) (entity : string) : list R :=
  (λ e : nx.edge, nx.weight e.2)
    <$> filter (λ e : nx.edge, e.1.2 = entity) (get_relationships kg).

(** The connections of an entity: the relationships that leave it and the
    relationships that reach it.  A relationship of the entity to itself
    is among both. *)
Definition connection_weights (kg : KnowledgeGraph) (entity : string) : list R :=
  weights_from kg entity ++ weights_to kg entity.

(** The relationships incident to an entity, each once. *)
Definition incident_relationships (kg : KnowledgeGraph) (entity : string)
    : list nx.edge :=
  filter (λ e : nx.edge, e.1.1 = entity ∨ e.1.2 = entity) (get_relationships kg).

(** The mean of a list of weights *)
Definition mean (weights : list R) : R := (Rsum weights / INR (length weights))%R.

(** * Facts about the networkx model *)

Section nx_facts.
Implicit Types (G : nx.DiGraph) (es : list nx.edge) (u v n : string) (d : nx.attrs).

Lemma lookup_set_edge_eq es u v d :
  nx.lookup_edge (nx.set_edge es u v d) u v = Some d.
Proof.
  induction es as [|e es IH]; simpl.
  - by rewrite bool_decide_eq_true_2.
  - case_bool_decide; simpl.
    + by rewrite bool_decide_eq_true_2.
    + by rewrite bool_decide_eq_false_2.
Qed.


Lemma lookup_edge_None es u v :
  nx.lookup_edge es u v = None ↔ (u, v) ∉ es.*1.
Proof.
  induction es as [|e es IH]; simpl.
  - split; [intros _; apply not_elem_of_nil|done].
  - rewrite not_elem_of_cons. case_bool_decide as He; [|rewrite IH].
    + split; [done|]. intros [Hne _]. by destruct Hne.
    + split; [intros ?; split; [congruence|done]|by intros [_ ?]].
Qed.

Lemma lookup_edge_elem_of es u v d :
  nx.lookup_edge es u v = Some d → (u, v, d) ∈ es.
Proof.
  induction es as [|[k a] es IH]; simpl; [done|].
  case_bool_decide; simpl in *.
  - intros [= ->]. subst k. left.
  - intros ?. right. auto.
Qed.

Lemma elem_of_lookup_edge es u v d :
  NoDup es.*1 → (u, v, d) ∈ es → nx.lookup_edge es u v = Some d.
Proof.
  induction es as [|[k a] es IH]; simpl; [by intros _ ?%elem_of_nil|].
  rewrite NoDup_cons. intros [Hk Hnd] [Heq|Hin]%elem_of_cons.
  - injection Heq as <- <-. by rewrite bool_decide_eq_true_2.
  - case_bool_decide; [|by auto]. subst k.
    destruct Hk. by apply (list_elem_of_fmap_2 fst) in Hin.
Qed.

Lemma elem_of_set_edge es u v d e :
  e ∈ nx.set_edge es u v d → e = (u, v, d) ∨ e ∈ es.
Proof.
  induction es as [|e' es IH]; simpl.
  - rewrite list_elem_of_singleton. auto.
  - case_bool_decide; rewrite !elem_of_cons; [tauto|].
    intros [?|?]; [tauto|]. destruct IH; auto.
Qed.

Lemma set_edge_keys es u v d :
  (nx.set_edge es u v d).*1
  = if bool_decide ((u, v) ∈ es.*1) then es.*1 else es.*1 ++ [(u, v)].
Proof.
  induction es as [|[k a] es IH]; [done|]. csimpl.
  destruct (decide (k = (u, v))) as [->|Hne].
  - by rewrite !bool_decide_eq_true_2 by (done || left).
  - rewrite (bool_decide_eq_false_2 (k = (u, v))) by done. csimpl. rewrite IH.
    destruct (decide ((u, v) ∈ es.*1)) as [Hin|Hin].
    + by rewrite !bool_decide_eq_true_2 by (done || by right).
    + rewrite !bool_decide_eq_false_2; [done| |done].
      rewrite not_elem_of_cons. split; [congruence|done].
Qed.

Lemma set_edge_new es u v d :
  (u, v) ∉ es.*1 → nx.set_edge es u v d = es ++ [(u, v, d)].
Proof.
  induction es as [|e es IH]; simpl; [done|].
  rewrite not_elem_of_cons. intros [? ?].
  rewrite bool_decide_eq_false_2 by congruence. by rewrite IH.
Qed.

Lemma set_edge_NoDup es u v d :
  NoDup es.*1 → NoDup (nx.set_edge es u v d).*1.
Proof.
  intros Hnd. rewrite set_edge_keys. case_bool_decide; [done|].
  apply NoDup_app. split_and!; [done| |apply NoDup_singleton].
  intros k Hk ->%list_elem_of_singleton. done.
Qed.

Lemma set_edge_length_old es u v d :
  (u, v) ∈ es.*1 → length (nx.set_edge es u v d) = length es.
Proof.
  intros Hin. rewrite <-(length_fmap fst (nx.set_edge es u v d)), set_edge_keys.
  by rewrite bool_decide_eq_true_2, length_fmap.
Qed.

Lemma has_node_true G n : nx.has_node G n = true ↔ n ∈ nx.nodes G.
Proof. unfold nx.has_node. by rewrite bool_decide_eq_true. Qed.

Lemma has_node_false G n : nx.has_node G n = false ↔ n ∉ nx.nodes G.
Proof. unfold nx.has_node. by rewrite bool_decide_eq_false. Qed.

Lemma add_node_edges G n : nx.edges (nx.add_node G n) = nx.edges G.
Proof. unfold nx.add_node. by destruct (nx.has_node G n). Qed.

Lemma add_node_old G n : n ∈ nx.nodes G → nx.add_node G n = G.
Proof. intros Hn. unfold nx.add_node. by rewrite (proj2 (has_node_true G n)). Qed.

Lemma elem_of_add_node G n m :
  m ∈ nx.nodes (nx.add_node G n) ↔ m = n ∨ m ∈ nx.nodes G.
Proof.
  unfold nx.add_node. destruct (nx.has_node G n) eqn:Hn; simpl.
  - apply has_node_true in Hn. split; [auto|]. by intros [->|?].
  - rewrite elem_of_app, list_elem_of_singleton. tauto.
Qed.

Lemma add_node_NoDup G n : NoDup (nx.nodes G) → NoDup (nx.nodes (nx.add_node G n)).
Proof.
  intros Hnd. unfold nx.add_node. destruct (nx.has_node G n) eqn:Hn; simpl; [done|].
  apply has_node_false in Hn. apply NoDup_app. split_and!; [done| |apply NoDup_singleton].
  intros m Hm ->%list_elem_of_singleton. done.
Qed.

Lemma fmap_list_bind {A B C} (f : B → C) (g : A → list B) (l : list A) :
  f <$> (l ≫= g) = l ≫= (λ x, f <$> g x).
Proof.
  induction l as [|x l IH]; [done|].
  by rewrite !bind_cons, fmap_app, IH.
Qed.

Lemma elem_of_edges_view G e :
  e ∈ nx.edges_view G ↔ e ∈ nx.edges G ∧ e.1.1 ∈ nx.nodes G.
Proof.
  unfold nx.edges_view, nx.out_edges. rewrite list_elem_of_bind. split.
  - intros (n & [-> ?]%list_elem_of_filter & ?). done.
  - intros [? ?]. exists e.1.1. by rewrite list_elem_of_filter.
Qed.

Lemma edges_view_NoDup G :
  NoDup (nx.nodes G) → NoDup (nx.edges G).*1 → NoDup (nx.edges_view G).*1.
Proof.
  intros Hn He. unfold nx.edges_view.
  rewrite fmap_list_bind. apply NoDup_bind; [| |done].
  - intros n1 n2 k _ _. simpl. unfold nx.out_edges.
    intros (e1 & -> & [<- _]%list_elem_of_filter)%list_elem_of_fmap.
    intros (e2 & Hk & [<- _]%list_elem_of_filter)%list_elem_of_fmap.
    by rewrite Hk.
  - intros n _. simpl. unfold nx.out_edges.
    induction (nx.edges G) as [|e es IH]; simpl; [constructor|].
    simpl in He. apply NoDup_cons in He as [Hk Hes].
    rewrite filter_cons. case_decide; simpl; [|auto].
    apply NoDup_cons. split; [|auto].
    intros (e' & Hk' & [_ ?]%list_elem_of_filter)%list_elem_of_fmap.
    apply Hk. rewrite Hk'. by apply list_elem_of_fmap_2.
Qed.

End nx_facts.

(** * Facts about the store *)

Section store_facts.
Implicit Types (kg : KnowledgeGraph) (u v n : string).

Lemma clamp_unit w : Rmax 0 (Rmin 1 w) = clamp w 0 1.
Proof.
  unfold clamp, Rmax, Rmin.
  repeat destruct Rle_dec; repeat destruct Rlt_dec; lra.
Qed.

Lemma clamp_unit_bounds w : (0 <= Rmax 0 (Rmin 1 w) <= 1)%R.
Proof. unfold Rmax, Rmin. repeat destruct Rle_dec; lra. Qed.

Lemma clamp_unit_id w : (0 <= w <= 1)%R → Rmax 0 (Rmin 1 w) = w.
Proof. unfold Rmax, Rmin. repeat destruct Rle_dec; lra. Qed.

Lemma contains_true kg n : contains kg n = true ↔ n ∈ nx.nodes (graph kg).
Proof. apply has_node_true. Qed.

Lemma add_entity_graph kg n m :
  graph (add_entity kg n m) = nx.add_node (graph kg) n.
Proof. unfold add_entity. by destruct (truthy m). Qed.

Lemma add_entity_None_data kg n : entity_data (add_entity kg n None) = entity_data kg.
Proof. done. Qed.

Lemma ensure_entity_graph kg n :
  graph (if contains kg n then kg else add_entity kg n None)
  = nx.add_node (graph kg) n.
Proof.
  unfold contains. destruct (nx.has_node (graph kg) n) eqn:Hn.
  - symmetry. by apply add_node_old, has_node_true.
  - apply add_entity_graph.
Qed.

(** The graph after [add_relationship]: both ends are nodes, then the edge
    is set. *)
Lemma add_relationship_graph kg u v w ty m :
  graph (add_relationship kg u v w ty m)
  = nx.add_edge (graph kg) u v (nx.Attrs (Rmax 0 (Rmin 1 w)) ty (or_empty m)).
Proof.
  unfold add_relationship. cbv zeta. cbn [graph].
  rewrite !ensure_entity_graph. unfold nx.add_edge. cbv zeta.
  set (G2 := nx.add_node (nx.add_node (graph kg) u) v).
  assert (u ∈ nx.nodes G2) as Hu
    by (apply elem_of_add_node; right; apply elem_of_add_node; auto).
  assert (v ∈ nx.nodes G2) as Hv by (apply elem_of_add_node; auto).
  by rewrite (add_node_old _ u Hu), (add_node_old _ v Hv).
Qed.

Lemma add_relationship_data kg u v w ty m :
  entity_data (add_relationship kg u v w ty m) = entity_data kg.
Proof.
  unfold add_relationship.
  destruct (contains kg u); [destruct (contains kg v)|
    destruct (contains (add_entity kg u None) v)]; done.
Qed.

Lemma add_edge_nodes G u v d n :
  n ∈ nx.nodes (nx.add_edge G u v d) ↔ n = u ∨ n = v ∨ n ∈ nx.nodes G.
Proof. unfold nx.add_edge. simpl. rewrite !elem_of_add_node. tauto. Qed.

Lemma add_edge_edges G u v d :
  nx.edges (nx.add_edge G u v d) = nx.set_edge (nx.edges G) u v d.
Proof. unfold nx.add_edge. simpl. by rewrite !add_node_edges. Qed.

Lemma wf_init : wf kg_init.
Proof.
  split; simpl.
  - constructor.
  - constructor.
  - by intros e ?%elem_of_nil.
  - by intros e ?%elem_of_nil.
  - intros n m. by rewrite lookup_empty.
Qed.

Lemma wf_add_entity kg n m : wf kg → wf (add_entity kg n m).
Proof.
  intros [Hn Hk He Hw Hd]. split; rewrite ?add_entity_graph, ?add_node_edges.
  - by apply add_node_NoDup.
  - done.
  - intros e [? ?]%He. rewrite !elem_of_add_node. auto.
  - done.
  - intros n' m'. rewrite elem_of_add_node. unfold add_entity.
    destruct m as [[|x d]|]; simpl.
    + intros [? ?]%Hd. auto.
    + rewrite lookup_insert. case_decide as Heq.
      * intros [= <-]. subst. auto.
      * intros [? ?]%Hd. auto.
    + intros [? ?]%Hd. auto.
Qed.

Lemma wf_add_relationship kg u v w ty m :
  wf kg → wf (add_relationship kg u v w ty m).
Proof.
  intros [Hn Hk He Hw Hd].
  split; rewrite ?add_relationship_graph, ?add_relationship_data, ?add_edge_edges.
  - unfold nx.add_edge. simpl. by do 2 apply add_node_NoDup.
  - by apply set_edge_NoDup.
  - intros e [->|Hin]%elem_of_set_edge; rewrite !add_edge_nodes; simpl; [auto|].
    apply He in Hin as [? ?]. auto.
  - intros e [->|Hin]%elem_of_set_edge; simpl; [apply clamp_unit_bounds|auto].
  - intros n' m' [? ?]%Hd. rewrite add_edge_nodes. auto.
Qed.

Lemma reachable_wf kg : reachable kg → wf kg.
Proof.
  induction 1; auto using wf_init, wf_add_entity, wf_add_relationship.
Qed.

End store_facts.

(** * The store: weights, uniqueness of edges, entity metadata *)

Section store_claims.
Implicit Types (kg : KnowledgeGraph) (u v n : string).

Lemma get_edge_add_relationship kg u v w ty m :
  nx.get_edge (graph (add_relationship kg u v w ty m)) u v
  = Some (nx.Attrs (clamp w 0 1) ty (or_empty m)).
Proof.
  unfold nx.get_edge.
  by rewrite add_relationship_graph, add_edge_edges, lookup_set_edge_eq, clamp_unit.
Qed.


Lemma get_edge_in_relationships kg u v d :
  wf kg → nx.get_edge (graph kg) u v = Some d → (u, v, d) ∈ get_relationships kg.
Proof.
  intros Hwf Hd%lookup_edge_elem_of. apply elem_of_edges_view.
  split; [done|]. by apply (wf_ends _ Hwf) in Hd as [? _].
Qed.


Lemma relationships_keys_NoDup kg : wf kg → NoDup (get_relationships kg).*1.
Proof. intros Hwf. apply edges_view_NoDup; apply Hwf. Qed.

End store_claims.

(** C2.  [add_relationship] stores [clamp(w, 0, 1)], that is
    [max(0.0, min(1.0, w))], as the weight of the edge, whatever the real
    [w]; hence every weight in a graph built through the mutators lies in
    [[0, 1]]. *)
Theorem add_relationship_clamps_weight :
  (∀ kg source target w relationship_type metadata,
     let kg' := add_relationship kg source target w relationship_type metadata in
     nx.weight <$> nx.get_edge (graph kg') source target = Some (clamp w 0 1)
     ∧ clamp w 0 1 = Rmax 0 (Rmin 1 w)
     ∧ ∃ d, (source, target, d) ∈ get_relationships kg'
            ∧ nx.weight d = clamp w 0 1)
  ∧ (∀ kg, reachable kg →
       ∀ e, e ∈ get_relationships kg → (0 <= nx.weight e.2 <= 1)%R).
Proof.
  split.
  - intros kg u v w ty m kg'. subst kg'. split_and!.
    + by rewrite get_edge_add_relationship.
    + by rewrite clamp_unit.
    + exists (nx.Attrs (clamp w 0 1) ty (or_empty m)). split; [|reflexivity].
      apply elem_of_edges_view.
      rewrite add_relationship_graph, add_edge_edges, add_edge_nodes. simpl.
      split; [|auto].
      apply lookup_edge_elem_of. by rewrite lookup_set_edge_eq, clamp_unit.
  - intros kg Hwf%reachable_wf e [He _]%elem_of_edges_view.
    by apply (wf_weight _ Hwf).
Qed.

(** C2, at the one edge of a graph built with the weight 7. *)
Lemma add_relationship_clamps_weight_witness :
  let kg := add_relationship kg_init "A" "B" 7 "knows" None in
  let d := nx.Attrs (clamp 7 0 1) "knows" [] in
  ("A", "B", d) ∈ get_relationships kg ∧ (0 <= nx.weight d <= 1)%R.
Proof.
  intros kg d.
  assert (reachable kg) as Hr by apply reachable_add_relationship, reachable_init.
  assert (("A", "B", d) ∈ get_relationships kg) as Hin.
  { apply get_edge_in_relationships; [by apply reachable_wf|].
    apply get_edge_add_relationship. }
  split; [done|].
  exact (proj2 add_relationship_clamps_weight kg Hr ("A", "B", d) Hin).
Defined.



(** C9 as the specification words it fails: an empty mapping supplied to
    [add_entity] is falsy, and the metadata stored before stays. *)
Lemma add_entity_empty_metadata_kept :
  let kg := add_entity kg_init "A" (Some [("kind", JStr "person")]) in
  contains kg "A" = true
  ∧ stored_metadata (add_entity kg "A" (Some [])) "A" = [("kind", JStr "person")]
  ∧ stored_metadata (add_entity kg "A" (Some [])) "A" ≠ [].
Proof. by vm_compute. Qed.

(** C9, amended.  [add_entity] on an entity of the graph leaves the nodes and
    the relationships as they are; with no mapping or an empty one the
    metadata of every entity stays, and with a non-empty mapping the entity
    takes that mapping whole while the other entities keep theirs. *)
Theorem add_entity_existing (kg : KnowledgeGraph) (entity : string)
    (metadata : option pydict) :
  entity ∈ get_entities kg →
  let kg' := add_entity kg entity metadata in
  graph kg' = graph kg
  ∧ get_entities kg' = get_entities kg
  ∧ get_relationships kg' = get_relationships kg
  ∧ (metadata = None ∨ metadata = Some [] → entity_data kg' = entity_data kg)
  ∧ (∀ m, metadata = Some m → m ≠ [] →
       stored_metadata kg' entity = m
       ∧ ∀ other, other ≠ entity →
           stored_metadata kg' other = stored_metadata kg other).
Proof.
  intros Hin kg'.
  assert (graph kg' = graph kg) as Hg.
  { unfold kg'. rewrite add_entity_graph. by apply add_node_old. }
  split_and!.
  - done.
  - unfold get_entities. by rewrite Hg.
  - unfold get_relationships. by rewrite Hg.
  - by intros [->| ->].
  - intros m -> Hm. unfold kg', stored_metadata, add_entity.
    destruct m as [|x m]; [done|]. simpl. split.
    + by rewrite lookup_insert_eq.
    + intros other Hne. by rewrite lookup_insert_ne.
Qed.

(** C9 amended, at an entity that has metadata and is given other metadata. *)
Lemma add_entity_existing_witness :
  let kg := add_entity kg_init "A" (Some [("kind", JStr "person")]) in
  let kg' := add_entity kg "A" (Some [("kind", JStr "place")]) in
  get_entities kg' = get_entities kg
  ∧ stored_metadata kg' "A" = [("kind", JStr "place")].
Proof.
  intros kg kg'.
  assert ("A" ∈ get_entities kg) as Hin by (vm_compute; left).
  destruct (add_entity_existing kg "A" (Some [("kind", JStr "place")]) Hin)
    as (_ & Hn & _ & _ & Hm).
  split; [exact Hn|].
  by destruct (Hm [("kind", JStr "place")] eq_refl).
Defined.

(** C8.  A query about a name that is not an entity of the graph raises
    nothing and answers with the empty result: no relationships, no
    neighbours, no paths, no shortest path, no connections. *)
Theorem absent_entity_queries_degrade
    (nx_shortest_path : nx.DiGraph → string → string → result (list string))
    (kg : KnowledgeGraph) (name : string) :
  name ∉ get_entities kg →
  get_entity_relationships kg name = MkRels [] []
  ∧ (∀ order, get_neighbors kg name order = Ok ∅)
  ∧ (∀ other max_length,
       find_all_paths kg name other max_length = Ok []
       ∧ find_all_paths kg other name max_length = Ok [])
  ∧ (∀ other,
       find_shortest_path nx_shortest_path kg name other = Ok None
       ∧ find_shortest_path nx_shortest_path kg other name = Ok None)
  ∧ (∀ n, find_strongest_connections kg name n = []).
Proof.
  intros Hn%has_node_false.
  assert (contains kg name = false) as Hc by done.
  split_and!.
  - unfold get_entity_relationships. by rewrite Hc.
  - intros order. unfold get_neighbors. by rewrite Hc.
  - intros other max_length. unfold find_all_paths. rewrite Hc. simpl.
    by rewrite orb_true_r.
  - intros other. unfold find_shortest_path. rewrite Hc. simpl.
    by rewrite orb_true_r.
  - intros n. unfold find_strongest_connections. by rewrite Hc.
Qed.

(** C8, at the name Z in a graph with the one edge A to B, whatever the
    shortest-path routine would raise. *)
Lemma absent_entity_queries_degrade_witness :
  let kg := add_relationship kg_init "A" "B" 1 "knows" None in
  get_entity_relationships kg "Z" = MkRels [] []
  ∧ get_neighbors kg "Z" 2 = Ok ∅
  ∧ find_all_paths kg "A" "Z" None = Ok []
  ∧ find_shortest_path (λ _ _ _, Raise NodeNotFound) kg "Z" "A" = Ok None
  ∧ find_strongest_connections kg "Z" 5 = [].
Proof.
  intros kg.
  assert ("Z" ∉ get_entities kg) as Hn.
  { apply has_node_false. by vm_compute. }
  destruct (absent_entity_queries_degrade (λ _ _ _, Raise NodeNotFound) kg "Z" Hn)
    as (H1 & H2 & H3 & H4 & H5).
  split_and!; [exact H1|exact (H2 2%Z)|exact (proj2 (H3 "A" None))
              |exact (proj1 (H4 "A"))|exact (H5 5%Z)].
Defined.

(** * Simple paths *)

Section simple_paths.
Implicit Types (G : nx.DiGraph) (p q cur : list string) (s t a b : string).

Lemma has_edge_true G a b : nx.has_edge G a b = true ↔ (a, b) ∈ (nx.edges G).*1.
Proof.
  unfold nx.has_edge, nx.get_edge. rewrite bool_decide_eq_true.
  rewrite <-not_eq_None_Some, lookup_edge_None.
  split; [apply dec_stable|auto].
Qed.

Lemma elem_of_successors G a b :
  b ∈ nx.successors G a ↔ nx.has_edge G a b = true.
Proof.
  rewrite has_edge_true. unfold nx.successors, nx.out_edges.
  rewrite !list_elem_of_fmap. split.
  - intros (e & -> & [<- He]%list_elem_of_filter).
    exists e. split; [by destruct e as [[??]?]|done].
  - intros ([[a' b'] d] & [= <- <-] & He). exists (a, b, d).
    split; [done|]. by apply list_elem_of_filter.
Qed.

Lemma NoDup_reverse_2 p : NoDup p → NoDup (reverse p).
Proof. intros Hp. by rewrite reverse_Permutation. Qed.

Lemma visit_sound G t budget cur next p :
  NoDup (next :: cur) →
  p ∈ nx.simple_paths_visit G t budget cur next →
  ∃ q, p = reverse cur ++ next :: q
       ∧ NoDup p ∧ is_path G (next :: q)
       ∧ last (next :: q) = Some t ∧ length q ≤ budget.
Proof.
  revert cur next. induction budget as [|budget IH]; intros cur next Hnd; simpl.
  - rewrite app_nil_r. case_bool_decide as Heq; [|by intros ?%elem_of_nil].
    intros ->%list_elem_of_singleton. exists []. subst next.
    rewrite reverse_cons. split_and!; try done.
    rewrite <-reverse_cons. by apply NoDup_reverse_2.
  - rewrite elem_of_app. intros [Hp|Hp].
    + case_bool_decide as Heq; [|by apply elem_of_nil in Hp].
      apply list_elem_of_singleton in Hp as ->. exists []. subst next.
      rewrite reverse_cons. split_and!; try done; [|simpl; lia].
      rewrite <-reverse_cons. by apply NoDup_reverse_2.
    + case_bool_decide as Hgo; [|by apply elem_of_nil in Hp].
      apply list_elem_of_bind in Hp as (c & Hp & [Hc Hsucc]%list_elem_of_filter).
      apply IH in Hp as (q & -> & Hndp & Hpath & Hlast & Hlen);
        [|by apply NoDup_cons].
      exists (c :: q). rewrite reverse_cons, <-app_assoc in *.
      split; [done|]. split; [done|].
      split; [split; [by apply elem_of_successors|done]|].
      split; [by rewrite last_cons_cons|simpl; lia].
Qed.

Lemma visit_complete G t q : ∀ budget cur next,
  NoDup (reverse cur ++ next :: q) →
  is_path G (next :: q) →
  last (next :: q) = Some t →
  length q ≤ budget →
  t ∉ cur →
  reverse cur ++ next :: q ∈ nx.simple_paths_visit G t budget cur next.
Proof.
  induction q as [|c q IH]; intros budget cur next Hnd Hpath Hlast Hlen Ht.
  - simpl in Hlast. injection Hlast as ->.
    destruct budget; simpl; rewrite bool_decide_eq_true_2 by done;
      rewrite reverse_cons; apply elem_of_app; left; left.
  - destruct budget as [|budget]; [simpl in Hlen; lia|].
    destruct Hpath as [Hedge Hpath]. rewrite last_cons_cons in Hlast.
    apply NoDup_app in Hnd as (Hcur & Hdisj & Hrest).
    apply NoDup_cons in Hrest as [Hnext Hrest].
    assert (next ≠ t) as Hne.
    { intros ->. apply Hnext. by apply last_Some_elem_of. }
    simpl. apply elem_of_app. right.
    rewrite bool_decide_eq_true_2 by done.
    apply list_elem_of_bind. exists c. split.
    + replace (reverse cur ++ next :: c :: q)
        with (reverse (next :: cur) ++ c :: q)
        by (by rewrite reverse_cons, <-app_assoc).
      apply IH; try done.
      * rewrite reverse_cons, <-app_assoc. simpl.
        apply NoDup_app. split_and!; [done|done|by apply NoDup_cons].
      * simpl in Hlen. lia.
      * rewrite not_elem_of_cons. split; [congruence|done].
    + apply list_elem_of_filter. split; [|by apply elem_of_successors].
      rewrite not_elem_of_cons. split.
      * intros ->. apply Hnext. left.
      * intros Hc%elem_of_reverse. apply (Hdisj c Hc). right. left.
Qed.

(** The nodes of a path that starts at a node of the graph are nodes. *)
Lemma is_path_nodes G p a :
  (∀ e, e ∈ nx.edges G → e.1.2 ∈ nx.nodes G) →
  head p = Some a → a ∈ nx.nodes G → is_path G p →
  ∀ x, x ∈ p → x ∈ nx.nodes G.
Proof.
  intros Hends. revert a. induction p as [|b p IH]; intros a Hh Ha Hp x Hx.
  { by apply elem_of_nil in Hx. }
  simpl in Hh. injection Hh as ->.
  apply elem_of_cons in Hx as [->|Hx]; [done|].
  destruct p as [|c p]; [by apply elem_of_nil in Hx|].
  destruct Hp as [Hedge Hp]. apply (IH c); try done.
  apply has_edge_true, list_elem_of_fmap in Hedge as (e & He & Hin).
  apply Hends in Hin. by rewrite <-He in Hin.
Qed.

(** What [all_simple_paths] lists: with no cutoff the simple paths from
    [s] to [t], all of them; with a cutoff those of at most that many
    edges. *)
Lemma all_simple_paths_spec G s t cutoff :
  NoDup (nx.nodes G) →
  (∀ e, e ∈ nx.edges G → e.1.2 ∈ nx.nodes G) →
  s ∈ nx.nodes G → t ∈ nx.nodes G →
  ∃ l, nx.all_simple_paths G s t cutoff = Ok l
       ∧ ∀ p, p ∈ l ↔
           simple_path G s t p
           ∧ match cutoff with
             | Some c => (Z.of_nat (length p) - 1 <= c)%Z
             | None => True
             end.
Proof.
  intros Hnd Hends Hs Ht. unfold nx.all_simple_paths.
  rewrite (proj2 (has_node_true G s) Hs), (proj2 (has_node_true G t) Ht). simpl.
  set (c := default (Z.of_nat (length (nx.nodes G)) - 1)%Z cutoff).
  assert (∀ p, simple_path G s t p → 1 ≤ length p ≤ length (nx.nodes G)) as Hlen.
  { intros p (Hh & _ & Hp & Hpath). split.
    - destruct p; [done|simpl; lia].
    - apply submseteq_length, NoDup_submseteq; [done|].
      by apply (is_path_nodes G p s). }
  destruct (Z.leb_spec 0 c) as [Hc|Hc]; eexists; (split; [done|]); intros p.
  - split.
    + intros (q & -> & Hp & Hpath & Hlast & Hq)%visit_sound;
        [|apply NoDup_singleton].
      rewrite reverse_nil. simpl. split; [done|].
      destruct cutoff as [c'|]; [|done]. simpl in c. subst c. lia.
    + intros [Hsp Hcut]. pose proof (Hlen p Hsp) as Hl.
      destruct Hsp as (Hh & Hlast & Hp & Hpath).
      destruct p as [|a q]; [done|]. simpl in Hh. injection Hh as ->.
      apply (visit_complete G t q _ [] s); try done; [|apply not_elem_of_nil].
      simpl in Hl. destruct cutoff as [c'|]; simpl in c; subst c; simpl in *; lia.
  - split; [by intros ?%elem_of_nil|].
    intros [Hsp Hcut]. pose proof (Hlen p Hsp) as Hl.
    destruct cutoff as [c'|]; simpl in c; subst c; lia.
Qed.

End simple_paths.

Section find_all_paths_facts.
Implicit Types (kg : KnowledgeGraph) (s t : string).

Lemma find_all_paths_falsy kg s t max_length :
  int_truthy max_length = false →
  find_all_paths kg s t max_length = find_all_paths kg s t None.
Proof. intros Hm. unfold find_all_paths. by rewrite Hm. Qed.

Lemma find_all_paths_spec kg s t max_length :
  wf kg → s ∈ get_entities kg → t ∈ get_entities kg →
  ∃ l, find_all_paths kg s t max_length = Ok l
       ∧ ∀ p, p ∈ l ↔
           simple_path (graph kg) s t p
           ∧ match max_length with
             | Some c => c = 0%Z ∨ (Z.of_nat (length p) - 1 <= c)%Z
             | None => True
             end.
Proof.
  intros Hwf Hs Ht.
  assert (∀ e, e ∈ nx.edges (graph kg) → e.1.2 ∈ nx.nodes (graph kg)) as Hends
    by (intros e He; by apply (wf_ends _ Hwf)).
  unfold find_all_paths.
  rewrite (proj2 (contains_true kg s) Hs), (proj2 (contains_true kg t) Ht). simpl.
  destruct (int_truthy max_length) eqn:Hm.
  - destruct (all_simple_paths_spec (graph kg) s t max_length
                (wf_nodes _ Hwf) Hends Hs Ht) as (l & -> & Hl).
    exists l. split; [done|]. intros p. rewrite Hl.
    destruct max_length as [c|]; [|done]. simpl in Hm.
    apply negb_true_iff, Z.eqb_neq in Hm. intuition lia.
  - destruct (all_simple_paths_spec (graph kg) s t None
                (wf_nodes _ Hwf) Hends Hs Ht) as (l & -> & Hl).
    exists l. split; [done|]. intros p. rewrite Hl.
    destruct max_length as [c|]; [|done]. simpl in Hm.
    apply negb_false_iff, Z.eqb_eq in Hm. intuition.
Qed.

End find_all_paths_facts.

(** C10.  [find_all_paths] caps the length only for a truthy [max_length]:
    called with [max_length = 0] it does what it does with no [max_length],
    and lists every simple directed path from the source to the target,
    however long; called with another [max_length] it lists those of at most
    that many edges.  On the chain A, B, C, D the cap 0 yields the path of
    three edges. *)
Theorem find_all_paths_zero_is_uncapped :
  (∀ kg source target,
     find_all_paths kg source target (Some 0%Z)
     = find_all_paths kg source target None)
  ∧ (∀ kg source target,
       reachable kg → source ∈ get_entities kg → target ∈ get_entities kg →
       ∃ l, find_all_paths kg source target (Some 0%Z) = Ok l
            ∧ ∀ p, p ∈ l ↔ simple_path (graph kg) source target p)
  ∧ (∀ kg source target max_length,
       reachable kg → source ∈ get_entities kg → target ∈ get_entities kg →
       max_length ≠ 0%Z →
       ∃ l, find_all_paths kg source target (Some max_length) = Ok l
            ∧ ∀ p, p ∈ l ↔
                simple_path (graph kg) source target p
                ∧ (Z.of_nat (length p) - 1 <= max_length)%Z)
  ∧ (let kg :=
       add_relationship
         (add_relationship
            (add_relationship kg_init "A" "B" (8 / 10) "r" None)
            "B" "C" (7 / 10) "r" None)
         "C" "D" (9 / 10) "r" None in
     find_all_paths kg "A" "D" (Some 0%Z) = Ok [["A"; "B"; "C"; "D"]]
     ∧ find_all_paths kg "A" "D" (Some 2%Z) = Ok []).
Proof.
  split_and!.
  - intros kg s t. by apply find_all_paths_falsy.
  - intros kg s t Hwf%reachable_wf Hs Ht.
    destruct (find_all_paths_spec kg s t (Some 0%Z) Hwf Hs Ht) as (l & Hl & Hp).
    exists l. split; [done|]. intros p. rewrite Hp. intuition.
  - intros kg s t c Hwf%reachable_wf Hs Ht Hc.
    destruct (find_all_paths_spec kg s t (Some c) Hwf Hs Ht) as (l & Hl & Hp).
    exists l. split; [done|]. intros p. rewrite Hp. intuition.
  - by vm_compute.
Qed.

(** C10, on the chain A, B, C: the path of two edges is listed under the
    cap 0. *)
Lemma find_all_paths_zero_is_uncapped_witness :
  let kg :=
    add_relationship (add_relationship kg_init "A" "B" 1 "r" None)
      "B" "C" 1 "r" None in
  ∃ l, find_all_paths kg "A" "C" (Some 0%Z) = Ok l
       ∧ ∀ p, p ∈ l ↔ simple_path (graph kg) "A" "C" p.
Proof.
  intros kg.
  assert (reachable kg) as Hr by (do 2 apply reachable_add_relationship;
                                  apply reachable_init).
  refine (proj1 (proj2 find_all_paths_zero_is_uncapped) kg "A" "C" Hr _ _).
  - apply has_node_true. by vm_compute.
  - apply has_node_true. by vm_compute.
Defined.

(** * Neighbourhoods *)

Section neighbours.
Implicit Types (U : nx.Graph) (cur vis next : gset string) (e : string).

(** The level built by one turn of the loop holds nothing visited. *)
Lemma next_level_fresh U vis (l : list string) : ∀ acc next,
  foldM (λ next_level node,
           neighbors ← nx.neighbors U node;
           Ok (next_level ∪ (neighbors ∖ vis))) l acc = Ok next →
  ∀ x, x ∈ next → x ∈ acc ∨ x ∉ vis.
Proof.
  induction l as [|node l IH]; intros acc next; simpl.
  - intros [= ->]. auto.
  - destruct (nx.neighbors U node) as [nb|]; simpl; [|done].
    intros Hl x Hx. destruct (IH _ _ Hl x Hx) as [Hin|Hout]; [|by right].
    apply elem_of_union in Hin as [?|Hin]; [by left|].
    apply elem_of_difference in Hin as [_ ?]. by right.
Qed.

(** The loop of [get_neighbors], run at least once, never answers with a
    visited entity; the start entity is visited from the beginning. *)
Lemma neighbors_bfs_excludes_visited U n : ∀ cur vis S e,
  e ∈ vis → neighbors_bfs U (Datatypes.S n) cur vis = Ok S → e ∉ S.
Proof.
  induction n as [|n IH]; intros cur vis S e He; simpl.
  - destruct (foldM _ _ _) as [next|] eqn:Hf; simpl; [|done].
    intros [= <-] Hin.
    destruct (next_level_fresh _ _ _ _ _ Hf e Hin) as [?%elem_of_empty|?]; done.
  - destruct (foldM _ _ _) as [next|] eqn:Hf; simpl; [|done].
    intros Hrec. apply (IH next (vis ∪ next) S e); [|done].
    apply elem_of_union. by left.
Qed.

(** For an order of 2 or more [get_neighbors] leaves the entity out, with
    or without a self-loop. *)
Lemma get_neighbors_bfs_excludes_self (kg : KnowledgeGraph) e (order : Z) S :
  (2 <= order)%Z → get_neighbors kg e order = Ok S → e ∉ S.
Proof.
  intros Ho. unfold get_neighbors.
  destruct (contains kg e); simpl; [|intros [= <-]; apply not_elem_of_empty].
  destruct (Z.eqb_spec order 1) as [->|_]; [lia|].
  destruct (Z.to_nat order) as [|n] eqn:Hn; [lia|].
  apply neighbors_bfs_excludes_visited. by apply elem_of_singleton.
Qed.

End neighbours.

(** C3.  The claim fails for order 1 on a self-loop: [get_neighbors] then
    answers with the neighbours of the undirected view as they are, and a
    graph whose one edge leads from A to A has A among the neighbours of A.
    The loop taken for the other orders leaves A out, also when run once. *)
Theorem get_neighbors_self_loop :
  let kg := add_relationship kg_init "A" "A" (5 / 10) "related_to" None in
  get_neighbors kg "A" 1 = Ok {["A"]}
  ∧ get_neighbors kg "A" 2 = Ok ∅
  ∧ neighbors_bfs (nx.to_undirected (graph kg)) 1 {["A"]} {["A"]} = Ok ∅.
Proof. by vm_compute. Qed.

(** * Path strength *)

Section path_strength.
Implicit Types (kg : KnowledgeGraph) (path : list string).

Lemma has_edge_get_edge (G : nx.DiGraph) a b :
  nx.has_edge G a b = true → is_Some (nx.get_edge G a b).
Proof. unfold nx.has_edge. by rewrite bool_decide_eq_true. Qed.

(** Along a path of the graph there is a weight for every edge. *)
Lemma path_weights_length kg path :
  is_path (graph kg) path →
  length (get_path_weights kg path) = length path - 1.
Proof.
  induction path as [|a [|b path] IH]; [done|done|].
  intros [[d Hd]%has_edge_get_edge Hp].
  change (get_path_weights kg (a :: b :: path))
    with (match nx.get_edge (graph kg) a b with
          | Some d => nx.weight d :: get_path_weights kg (b :: path)
          | None => get_path_weights kg (b :: path)
          end).
  rewrite Hd. cbn [length]. rewrite IH by done. cbn [length]. lia.
Qed.

Lemma average_nonzero_weights kg path :
  get_average_path_weight kg path ≠ 0%R → get_path_weights kg path ≠ [].
Proof. unfold get_average_path_weight. by destruct (get_path_weights kg path). Qed.

Lemma path_strength_unfold kg path :
  2 ≤ length path → get_path_weights kg path ≠ [] →
  _calculate_path_strength kg path
  = (get_average_path_weight kg path
     * (1 / (1 + (INR (length path - 1) - 1) * (2 / 10))))%R.
Proof.
  intros Hlen Hw. unfold _calculate_path_strength, get_average_path_weight.
  destruct (Nat.ltb_spec (length path) 2) as [?|_]; [lia|].
  destruct (get_path_weights kg path) as [|w ws] eqn:Hws; [done|].
  replace (INR (length path - 1)) with (INR (length path) - 1)%R
    by (rewrite minus_INR by lia; simpl; lra).
  by rewrite !minus_IZR, <-INR_IZR_INZ.
Qed.

End path_strength.

(** C4.  The strength of a path is 0 when the path has fewer than 2 entities
    or none of its edges exists; otherwise it is the average weight times
    [1 / (1 + (L - 1) * 0.2)], [L] being the number of edges of the path,
    which on a path of the graph is also the number of its weights.  So one
    hop of average weight 0.9 scores 0.9 and three hops of average weight
    0.9 score 0.9 / 1.4. *)
Theorem path_strength_score (kg : KnowledgeGraph) (path : list string) :
  (length path < 2 ∨ get_path_weights kg path = [] →
     _calculate_path_strength kg path = 0%R)
  ∧ (2 ≤ length path → get_path_weights kg path ≠ [] →
       _calculate_path_strength kg path
       = (get_average_path_weight kg path
          * (1 / (1 + (INR (length path - 1) - 1) * (2 / 10))))%R)
  ∧ (is_path (graph kg) path →
       length (get_path_weights kg path) = length path - 1)
  ∧ (length path - 1 = 1 → get_average_path_weight kg path = (9 / 10)%R →
       _calculate_path_strength kg path = (9 / 10)%R)
  ∧ (length path - 1 = 3 → get_average_path_weight kg path = (9 / 10)%R →
       _calculate_path_strength kg path = (9 / 10 / (14 / 10))%R).
Proof.
  split_and!.
  - intros [Hlen|Hw]; unfold _calculate_path_strength.
    + by destruct (Nat.ltb_spec (length path) 2) as [_|?]; [|lia].
    + rewrite Hw. by destruct (length path <? 2).
  - apply path_strength_unfold.
  - apply path_weights_length.
  - intros Hlen Havg.
    rewrite path_strength_unfold;
      [|lia|apply average_nonzero_weights; rewrite Havg; lra].
    rewrite Havg, Hlen. simpl. lra.
  - intros Hlen Havg.
    rewrite path_strength_unfold;
      [|lia|apply average_nonzero_weights; rewrite Havg; lra].
    rewrite Havg, Hlen. simpl. lra.
Qed.

(** C4, at the one hop from A to B of weight 0.9. *)
Lemma path_strength_score_witness :
  let kg := add_relationship kg_init "A" "B" (9 / 10) "related_to" None in
  get_average_path_weight kg ["A"; "B"] = (9 / 10)%R
  ∧ _calculate_path_strength kg ["A"; "B"] = (9 / 10)%R.
Proof.
  intros kg.
  assert (get_average_path_weight kg ["A"; "B"] = (9 / 10)%R) as Havg.
  { unfold get_average_path_weight, get_path_weights, kg.
    rewrite get_edge_add_relationship. simpl.
    rewrite <-clamp_unit, clamp_unit_id by lra. lra. }
  split; [exact Havg|].
  exact (proj1 (proj2 (proj2 (proj2 (path_strength_score kg ["A"; "B"]))))
           eq_refl Havg).
Defined.

(** * Influence *)

Section influence_facts.
Implicit Types (kg : KnowledgeGraph) (entity : string) (l : list R).

Lemma Rsum_app l1 l2 : Rsum (l1 ++ l2) = (Rsum l1 + Rsum l2)%R.
Proof.
  induction l1 as [|x l1 IH]; simpl; [lra|].
  unfold Rsum in *. simpl. rewrite IH. lra.
Qed.

(** The mean of weights of the unit interval is in the unit interval. *)
Lemma Rsum_bounds l :
  Forall (λ w, 0 <= w <= 1)%R l → (0 <= Rsum l <= INR (length l))%R.
Proof.
  induction 1 as [|w l Hw _ IH].
  - simpl. lra.
  - change (Rsum (w :: l)) with (w + Rsum l)%R.
    change (length (w :: l)) with (S (length l)). rewrite S_INR. lra.
Qed.

Lemma mean_bounds l :
  Forall (λ w, 0 <= w <= 1)%R l → (0 <= Rsum l / INR (length l) <= 1)%R.
Proof.
  intros Hl. pose proof (Rsum_bounds l Hl) as Hs.
  destruct l as [|w l].
  - simpl. unfold Rdiv. rewrite Rinv_0. lra.
  - assert (0 < INR (length (w :: l)))%R as Hpos by (apply lt_0_INR; simpl; lia).
    split.
    + apply Rmult_le_pos; [lra|]. left. by apply Rinv_0_lt_compat.
    + apply (Rmult_le_reg_r (INR (length (w :: l)))); [done|].
      unfold Rdiv. rewrite Rmult_assoc, Rinv_l by lra. lra.
Qed.

Lemma incident_weights_bounds kg entity :
  wf kg → Forall (λ w, 0 <= w <= 1)%R (incident_weights kg entity).
Proof.
  intros Hwf. unfold incident_weights, get_entity_relationships.
  destruct (contains kg entity); simpl; [|constructor].
  apply Forall_app. split; rewrite <-list_fmap_compose; apply Forall_fmap,
    Forall_forall; intros e [_ He]%list_elem_of_filter; simpl;
    by apply (wf_weight _ Hwf).
Qed.

Lemma ln_le x y : (0 < x)%R → (x <= y)%R → (ln x <= ln y)%R.
Proof.
  intros Hx [Hlt| ->]; [|lra]. left. by apply ln_increasing.
Qed.

(** The factor of the score: at least 1, and growing with the count. *)
Lemma influence_factor_mono (n1 n2 : nat) :
  n1 ≤ n2 →
  (1 <= 1 + ln (INR n1 + 1) / 10 <= 1 + ln (INR n2 + 1) / 10)%R.
Proof.
  intros Hn. pose proof (pos_INR n1) as Hp. apply le_INR in Hn.
  assert (0 <= ln (INR n1 + 1))%R.
  { rewrite <-ln_1. apply ln_le; lra. }
  assert (ln (INR n1 + 1) <= ln (INR n2 + 1))%R by (apply ln_le; lra).
  lra.
Qed.

Lemma influence_nonneg a n : (0 <= a)%R → (0 <= influence a n)%R.
Proof.
  intros Ha. destruct n as [|n]; unfold influence; [lra|].
  pose proof (influence_factor_mono (S n) (S n) (le_n _)) as [Hf _].
  apply Rmin_glb; [lra|]. apply Rmult_le_pos; lra.
Qed.

Lemma influence_mono a1 a2 n1 n2 :
  (0 <= a1 <= a2)%R → n1 ≤ n2 → (influence a1 n1 <= influence a2 n2)%R.
Proof.
  intros [Ha1 Ha] Hn. destruct n1 as [|n1].
  - apply influence_nonneg. lra.
  - destruct n2 as [|n2]; [lia|]. unfold influence.
    pose proof (influence_factor_mono (S n1) (S n2) Hn) as [Hf1 Hf2].
    apply Rle_min_compat_l.
    apply Rmult_le_compat; lra.
Qed.

Lemma influence_score_formula kg entity :
  get_entity_influence_score kg entity
  = influence (average_incident_weight kg entity) (num_connections kg entity).
Proof.
  unfold get_entity_influence_score, average_incident_weight, num_connections,
    incident_weights, get_entity_relationships.
  destruct (contains kg entity); simpl; [|done].
  rewrite length_app, !length_fmap, Rsum_app.
  destruct (length _ + length _) as [|k]; [done|].
  cbn [Nat.eqb]. unfold influence. by rewrite (plus_INR (S k) 1).
Qed.

End influence_facts.

(** * Connected components *)

Section components.
Implicit Types (U : nx.Graph) (a b v x y : string) (seen next : gset string).

Lemma elem_of_adj U a b :
  b ∈ nx.adj U a ↔ (a, b) ∈ nx.uedges U ∨ (b, a) ∈ nx.uedges U.
Proof.
  unfold nx.adj. rewrite elem_of_list_to_set, list_elem_of_bind. split.
  - intros ([x y] & Hb & He). simpl in Hb.
    apply elem_of_app in Hb as [Hb|Hb]; case_bool_decide; subst;
      try (by apply elem_of_nil in Hb);
      apply list_elem_of_singleton in Hb as ->; auto.
  - intros [He|He].
    + exists (a, b). split; [|done]. simpl.
      rewrite bool_decide_eq_true_2 by done. apply elem_of_app. left. left.
    + exists (b, a). split; [|done]. simpl.
      rewrite (bool_decide_eq_true_2 (a = a)) by done.
      apply elem_of_app. right. left.
Qed.

Lemma adjacent_sym U a b : adjacent U a b → adjacent U b a.
Proof. unfold adjacent. rewrite !elem_of_adj. tauto. Qed.

Lemma connected_sym U a b : connected U a b → connected U b a.
Proof.
  induction 1 as [|a c b Hac _ IH]; [done|].
  eapply rtc_r; [exact IH|]. by apply adjacent_sym.
Qed.

Lemma adj_nodes U a b :
  graph_ok U → b ∈ nx.adj U a → b ∈ nx.unodes U.
Proof.
  intros [_ Hok] [He|He]%elem_of_adj; apply Hok in He; simpl in He; tauto.
Qed.

(** The levels found by one turn of [_plain_bfs]. *)
Lemma elem_of_found U seen next y :
  y ∈ ⋃ (nx.adj U <$> elements next) ∖ seen
  ↔ (y ∉ seen) ∧ ∃ x, x ∈ next ∧ y ∈ nx.adj U x.
Proof.
  rewrite elem_of_difference, elem_of_union_list. split.
  - intros [(X & (x & -> & Hx)%list_elem_of_fmap & Hy) Hn].
    split; [done|]. exists x. by rewrite <-elem_of_elements.
  - intros [Hn (x & Hx & Hy)]. split; [|done].
    exists (nx.adj U x). split; [|done].
    apply list_elem_of_fmap. exists x. by rewrite elem_of_elements.
Qed.

(** With fuel for every node still to be seen, the search ends with a set
    that is closed under adjacency and holds nothing but what is connected
    to a node it started from. *)
Lemma plain_bfs_spec U (N : gset string) fuel : ∀ seen next,
  (∀ x y, x ∈ N → y ∈ nx.adj U x → y ∈ N) →
  next ⊆ seen → seen ⊆ N →
  (∀ x, x ∈ seen → x ∉ next → nx.adj U x ⊆ seen) →
  size N < fuel + size seen →
  seen ⊆ nx.plain_bfs fuel U seen next
  ∧ (∀ x, x ∈ nx.plain_bfs fuel U seen next →
       nx.adj U x ⊆ nx.plain_bfs fuel U seen next)
  ∧ (∀ y, y ∈ nx.plain_bfs fuel U seen next →
       ∃ x, x ∈ seen ∧ connected U x y).
Proof.
  induction fuel as [|fuel IH]; intros seen next HN Hnext Hseen Hclosed Hfuel.
  { apply subseteq_size in Hseen. lia. }
  simpl. case_bool_decide as Hempty.
  { subst next. split_and!; [done| |].
    - intros x Hx. apply Hclosed; [done|apply not_elem_of_empty].
    - intros y Hy. by exists y. }
  set (found := ⋃ (nx.adj U <$> elements next) ∖ seen).
  assert (∀ x, x ∈ seen → nx.adj U x ⊆ seen ∪ found) as Hall.
  { intros x Hx y Hy. destruct (decide (x ∈ next)) as [Hin|Hout].
    - destruct (decide (y ∈ seen)); [by apply elem_of_union_l|].
      apply elem_of_union_r, elem_of_found. eauto.
    - apply elem_of_union_l. by apply (Hclosed x). }
  assert (∀ y, y ∈ found → ∃ x, x ∈ seen ∧ adjacent U x y) as Hfrom.
  { intros y (_ & x & Hx & Hy)%elem_of_found. exists x. split; [|done].
    by apply Hnext. }
  assert (seen ∪ found ⊆ N) as Hsub.
  { intros y [Hy|Hy]%elem_of_union; [by apply Hseen|].
    destruct (Hfrom y Hy) as (x & Hx & Hxy). apply (HN x); [|done].
    by apply Hseen. }
  destruct (decide (found = ∅)) as [Hnone|Hsome].
  - rewrite Hnone, (right_id_L ∅ (∪)) in *.
    replace (nx.plain_bfs fuel U seen ∅) with seen
      by (destruct fuel; simpl; try case_bool_decide; done).
    split_and!; [done|done|]. intros y Hy. by exists y.
  - assert (found ## seen) as Hdisj.
    { intros y [Hy _]%elem_of_found Hy'. done. }
    assert (size found ≠ 0) as Hpos
      by (apply size_non_empty_iff; by intros ?%leibniz_equiv).
    destruct (IH (seen ∪ found) found) as (H1 & H2 & H3); try done.
    + apply union_subseteq_r.
    + intros x [Hx|Hx]%elem_of_union Hx'; [by apply Hall|done].
    + rewrite (comm_L (∪)), size_union by done. lia.
    + split_and!; [|done|].
      * etrans; [|exact H1]. apply union_subseteq_l.
      * intros y Hy. destruct (H3 y Hy) as (x & [Hx|Hx]%elem_of_union & Hxy);
          [by exists x|].
        destruct (Hfrom x Hx) as (z & Hz & Hzx). exists z. split; [done|].
        by eapply rtc_l.
Qed.

(** The component of a node is the set of the nodes connected to it. *)
Lemma elem_of_component U v x :
  graph_ok U → v ∈ nx.unodes U →
  x ∈ nx.component U v ↔ connected U v x.
Proof.
  intros Hok Hv. unfold nx.component.
  destruct (plain_bfs_spec U (list_to_set (nx.unodes U))
              (length (nx.unodes U)) {[v]} {[v]}) as (H1 & H2 & H3).
  - intros a b Ha%elem_of_list_to_set Hb. apply elem_of_list_to_set.
    by apply (adj_nodes U a).
  - done.
  - intros a ->%elem_of_singleton. by apply elem_of_list_to_set.
  - intros a Ha Ha'. done.
  - rewrite size_list_to_set, size_singleton by apply Hok. lia.
  - split.
    + intros (a & ->%elem_of_singleton & Hc)%H3. done.
    + revert x. apply rtc_ind_r.
      * apply H1. by apply elem_of_singleton.
      * intros a b _ Hab IH. by apply (H2 a).
Qed.

Lemma components_inv_closed U st x y :
  components_inv U st → x ∈ st.1 → connected U x y → y ∈ st.1.
Proof.
  intros (Hseen & Hclass & _) (c & Hc & Hx)%Hseen Hxy.
  apply Hseen. exists c. split; [done|].
  destruct (Hclass c Hc) as (v & _ & Hv). apply Hv. apply Hv in Hx.
  by etrans.
Qed.

Lemma components_inv_step U st v :
  graph_ok U → v ∈ nx.unodes U → v ∉ st.1 →
  components_inv U st →
  components_inv U (st.1 ∪ nx.component U v, st.2 ++ [nx.component U v]).
Proof.
  intros Hok Hv Hnew Hinv. pose proof Hinv as (Hseen & Hclass & Hdisj).
  assert (∀ c, c ∈ st.2 → c ## nx.component U v) as Hfresh.
  { intros c Hc x Hx Hx'. apply Hnew.
    apply (components_inv_closed U st x v Hinv).
    - apply Hseen. eauto.
    - apply connected_sym. by apply elem_of_component. }
  split_and!; simpl.
  - intros x. rewrite elem_of_union, Hseen. split.
    + intros [(c & Hc & Hx)|Hx].
      * exists c. split; [apply elem_of_app; by left|done].
      * exists (nx.component U v). split; [apply elem_of_app; right; left|done].
    + intros (c & [Hc|Hc%list_elem_of_singleton]%elem_of_app & Hx).
      * left. eauto.
      * right. by subst c.
  - intros c [Hc|Hc%list_elem_of_singleton]%elem_of_app; [by apply Hclass|].
    subst c. exists v. split; [done|]. intros x. by apply elem_of_component.
  - intros i j c1 c2 Hi Hj Hij.
    apply lookup_app_Some in Hi as [Hi|[Hli Hi]];
      apply lookup_app_Some in Hj as [Hj|[Hlj Hj]].
    + by apply (Hdisj i j).
    + apply list_lookup_singleton_Some in Hj as [_ <-].
      apply Hfresh. by eapply list_elem_of_lookup_2.
    + apply list_lookup_singleton_Some in Hi as [_ <-].
      symmetry. apply Hfresh. by eapply list_elem_of_lookup_2.
    + apply list_lookup_singleton_Some in Hi as [Hi _].
      apply list_lookup_singleton_Some in Hj as [Hj _]. lia.
Qed.

Lemma components_fold U (l : list string) : ∀ st,
  graph_ok U → (∀ v, v ∈ l → v ∈ nx.unodes U) →
  components_inv U st →
  let st' :=
    foldl (λ (st : gset string * list (gset string)) v,
             if bool_decide (v ∈ st.1) then st
             else let c := nx.component U v in (st.1 ∪ c, st.2 ++ [c]))
          st l in
  components_inv U st' ∧ ∀ v, v ∈ st.1 ∨ v ∈ l → v ∈ st'.1.
Proof.
  induction l as [|a l IH]; intros st Hok Hl Hinv; simpl.
  - split; [done|]. intros v [?|?%elem_of_nil]; done.
  - case_bool_decide as Ha.
    + destruct (IH st) as [H1 H2]; [done|intros; apply Hl; by right|done|].
      split; [done|]. intros v [Hv|[->|Hv]%elem_of_cons]; apply H2; auto.
    + destruct (IH (st.1 ∪ nx.component U a, st.2 ++ [nx.component U a]))
        as [H1 H2]; [done|intros; apply Hl; by right| |].
      { apply components_inv_step; [done|apply Hl; left|done|done]. }
      split; [done|]. simpl in H2.
      intros v [Hv|[->|Hv]%elem_of_cons]; apply H2; auto.
      * left. by apply elem_of_union_l.
      * left. apply elem_of_union_r, elem_of_component; [done|apply Hl; left|done].
Qed.

(** [connected_components] lists the classes of connected nodes, so
    [number_connected_components] is the number of these classes. *)
Lemma connected_components_spec U :
  graph_ok U → lists_components U (nx.connected_components U).
Proof.
  intros Hok. unfold lists_components, nx.connected_components.
  destruct (components_fold U (nx.unodes U) (∅, [])) as [(H1 & H2 & H3) H4];
    [done|done| |].
  { split_and!; simpl.
    - intros x. split; [by intros ?%elem_of_empty|].
      by intros (c & ?%elem_of_nil & _).
    - by intros c ?%elem_of_nil.
    - intros i j c1 c2 Hi. by rewrite lookup_nil in Hi. }
  split_and!; [done| |done].
  intros v Hv. apply H1, H4. by right.
Qed.

Lemma to_undirected_ok (kg : KnowledgeGraph) :
  wf kg → graph_ok (nx.to_undirected (graph kg)).
Proof.
  intros Hwf. split; simpl; [apply Hwf|].
  intros k (e & -> & [He _]%elem_of_edges_view)%list_elem_of_fmap.
  by apply (wf_ends _ Hwf).
Qed.

Lemma without_node_ok U n : graph_ok U → graph_ok (nx.without_node U n).
Proof.
  intros [Hnd Hends]. split; simpl; [by apply NoDup_filter|].
  intros e [[H1 H2] [? ?]%Hends]%list_elem_of_filter.
  by rewrite !list_elem_of_filter.
Qed.

End components.

(** * Sorting *)

Section sort_facts.
Context {A : Type} (key : A → nat).

Lemma insert_desc_perm x l : insert_desc key Nat.ltb x l ≡ₚ x :: l.
Proof.
  induction l as [|y l IH]; simpl; [done|].
  destruct (key x <? key y); [|done].
  by rewrite IH, Permutation_swap.
Qed.

Lemma sort_desc_perm l : sort_desc key Nat.ltb l ≡ₚ l.
Proof.
  induction l as [|x l IH]; simpl; [done|].
  by rewrite insert_desc_perm, IH.
Qed.

Lemma insert_desc_sorted x l :
  StronglySorted (λ a b, key b ≤ key a) l →
  StronglySorted (λ a b, key b ≤ key a) (insert_desc key Nat.ltb x l).
Proof.
  induction l as [|y l IH]; simpl; intros Hl.
  - by repeat constructor.
  - apply StronglySorted_cons in Hl as [Hy Hl].
    destruct (Nat.ltb_spec (key x) (key y)) as [Hlt|Hge].
    + apply StronglySorted_cons. split; [|auto].
      rewrite insert_desc_perm. constructor; [lia|done].
    + apply StronglySorted_cons. split; [|by apply StronglySorted_cons].
      constructor; [done|].
      eapply Forall_impl; [exact Hy|]. simpl. intros; lia.
Qed.

Lemma sort_desc_sorted l :
  StronglySorted (λ a b, key b ≤ key a) (sort_desc key Nat.ltb l).
Proof.
  induction l as [|x l IH]; simpl; [constructor|].
  by apply insert_desc_sorted.
Qed.

(** The sort is stable: the elements of one key keep their order. *)
Lemma insert_desc_stable k x l :
  filter (λ a, key a = k) (insert_desc key Nat.ltb x l)
  = filter (λ a, key a = k) (x :: l).
Proof.
  induction l as [|y l IH]; simpl; [done|].
  destruct (Nat.ltb_spec (key x) (key y)) as [Hlt|Hge]; [|done].
  rewrite (filter_cons _ y), IH, !filter_cons.
  repeat case_decide; try done; lia.
Qed.

Lemma sort_desc_stable k l :
  filter (λ a, key a = k) (sort_desc key Nat.ltb l) = filter (λ a, key a = k) l.
Proof.
  induction l as [|x l IH]; simpl; [done|].
  by rewrite insert_desc_stable, !filter_cons, IH.
Qed.

End sort_facts.

(** * Critical entities *)

Section critical.
Implicit Types (kg : KnowledgeGraph) (U : nx.Graph) (e : string).

(** What the loop of [find_critical_entities] collects, in the order of
    the entities. *)
Lemma critical_loop U (current : nat) (l : list string) : ∀ acc,
  (∀ e, e ∈ l → e ∈ nx.unodes U) →
  foldM (λ critical_entities entity,
           temp_graph ← nx.remove_node U entity;
           let new_components := nx.number_connected_components temp_graph in
           Ok (if current <? new_components
               then critical_entities ++ [(entity, new_components)]
               else critical_entities)) l acc
  = Ok (acc ++ omap (λ e,
                       let k := nx.number_connected_components (nx.without_node U e) in
                       if current <? k then Some (e, k) else None) l).
Proof.
  induction l as [|e l IH]; intros acc Hl; simpl.
  - by rewrite app_nil_r.
  - unfold nx.remove_node. rewrite bool_decide_eq_true_2 by (apply Hl; left).
    simpl. rewrite IH by (intros; apply Hl; by right).
    destruct (current <? _); [by rewrite <-app_assoc|done].
Qed.

Lemma omap_fst_NoDup {B} (f : string → option B) (l : list string) :
  NoDup l → NoDup (omap (λ e, (e ,.) <$> f e) l).*1.
Proof.
  induction 1 as [|e l Hin _ IH]; simpl; [constructor|].
  destruct (f e) as [b|]; simpl; [|done].
  apply NoDup_cons. split; [|done].
  intros ([e' b'] & -> & (x & Hx & Hf)%list_elem_of_omap)%list_elem_of_fmap.
  destruct (f x); simplify_eq/=. done.
Qed.

Lemma find_critical_entities_unfold kg :
  find_critical_entities kg
  = Ok (sort_desc snd Nat.ltb
          (omap (λ e,
                   (e ,.) <$>
                     (if nx.number_connected_components
                           (nx.to_undirected (graph kg))
                         <? components_without kg e
                      then Some (components_without kg e) else None))
                (get_entities kg))).
Proof.
  unfold find_critical_entities. rewrite critical_loop by done. simpl.
  do 2 f_equal. apply list_omap_ext, Forall_Forall2_diag, Forall_forall.
  intros e _. unfold components_without. by destruct (_ <? _).
Qed.

End critical.

(** C6.  [find_critical_entities] returns the entities whose removal from
    the undirected view leaves more connected components than there were,
    and no others, each with the number of components left, the larger
    numbers first; in a graph built through the mutators no entity comes
    twice, and the components counted, before and after a removal, are the
    classes of connected nodes.  On the
    path graph A, B, C, D it returns B and C, each with 2. *)
Theorem find_critical_entities_spec :
  (∀ kg, ∃ l,
     find_critical_entities kg = Ok l
     ∧ (∀ e k, (e, k) ∈ l ↔
          e ∈ get_entities kg
          ∧ k = components_without kg e
          ∧ nx.number_connected_components (nx.to_undirected (graph kg)) < k)
     ∧ StronglySorted (λ a b, b.2 ≤ a.2) l
     ∧ (reachable kg → NoDup l.*1))
  ∧ (∀ kg,
       reachable kg →
       let undirected := nx.to_undirected (graph kg) in
       lists_components undirected (nx.connected_components undirected)
       ∧ ∀ e, lists_components (nx.without_node undirected e)
                (nx.connected_components (nx.without_node undirected e)))
  ∧ (let kg :=
       add_relationship
         (add_relationship
            (add_relationship kg_init "A" "B" (8 / 10) "r" None)
            "B" "C" (7 / 10) "r" None)
         "C" "D" (9 / 10) "r" None in
     find_critical_entities kg = Ok [("B", 2); ("C", 2)]
     ∧ nx.number_connected_components (nx.to_undirected (graph kg)) = 1
     ∧ components_without kg "A" = 1 ∧ components_without kg "D" = 1).
Proof.
  split; [|split; [|by vm_compute]].
  2:{ intros kg Hwf%reachable_wf undirected.
      pose proof (to_undirected_ok kg Hwf) as Hok.
      split; [by apply connected_components_spec|].
      intros e. by apply connected_components_spec, without_node_ok. }
  intros kg. eexists. split; [apply find_critical_entities_unfold|].
  split_and!.
  - intros e k. rewrite sort_desc_perm, list_elem_of_omap. split.
    + intros (x & Hx & Hf).
      destruct (Nat.ltb_spec
        (nx.number_connected_components (nx.to_undirected (graph kg)))
        (components_without kg x)); simplify_eq/=. done.
    + intros (He & -> & Hlt). exists e. split; [done|].
      apply Nat.ltb_lt in Hlt. by rewrite Hlt.
  - apply sort_desc_sorted.
  - intros Hwf%reachable_wf. rewrite sort_desc_perm.
    apply omap_fst_NoDup, Hwf.
Qed.

(** C6, at the path graph A, B, C: its components are the classes of
    connected nodes. *)
Lemma find_critical_entities_spec_witness :
  let kg :=
    add_relationship (add_relationship kg_init "A" "B" 1 "r" None)
      "B" "C" 1 "r" None in
  lists_components (nx.to_undirected (graph kg))
    (nx.connected_components (nx.to_undirected (graph kg))).
Proof.
  intros kg.
  assert (reachable kg) as Hr by (do 2 apply reachable_add_relationship;
                                  apply reachable_init).
  exact (proj1 (proj1 (proj2 find_critical_entities_spec) kg Hr)).
Defined.

(** * Export and import *)

Section round_trip.
Implicit Types (kg : KnowledgeGraph) (G : nx.DiGraph) (n u v : string).

Lemma kg_eq kg1 kg2 :
  graph kg1 = graph kg2 → entity_data kg1 = entity_data kg2 → kg1 = kg2.
Proof. destruct kg1, kg2. simpl. by intros -> ->. Qed.

Lemma digraph_eq G1 G2 :
  nx.nodes G1 = nx.nodes G2 → nx.edges G1 = nx.edges G2 → G1 = G2.
Proof. destruct G1, G2. simpl. by intros -> ->. Qed.

(** The import of the node records of an export, from the empty graph. *)
Lemma import_nodes (ed : gmap string pydict) (l : list string) :
  NoDup l →
  let r :=
    foldl (λ kg node_data,
             add_entity kg (node_id node_data) (node_metadata node_data))
          kg_init
          ((λ node, MkNodeRec node (Some (default [] (ed !! node)))) <$> l) in
  nx.nodes (graph r) = l
  ∧ nx.edges (graph r) = []
  ∧ ∀ n, entity_data r !! n
         = if decide (n ∈ l)
           then match ed !! n with Some (x :: m) => Some (x :: m) | _ => None end
           else None.
Proof.
  induction l as [|a l IH] using rev_ind; intros Hnd r.
  - split_and!; [done|done|]. intros n. subst r. simpl.
    rewrite lookup_empty. by try case_decide.
  - apply NoDup_app in Hnd as (Hl & Hdisj & _).
    assert (a ∉ l) as Ha.
    { intros Hin. apply (Hdisj a Hin). left. }
    destruct (IH Hl) as (Hn & He & Hd). clear IH.
    subst r. rewrite fmap_snoc, foldl_snoc.
    set (r := foldl _ _ _) in *. cbn [node_id node_metadata].
    split_and!.
    + rewrite add_entity_graph. unfold nx.add_node.
      rewrite (proj2 (has_node_false (graph r) a)) by (by rewrite Hn).
      simpl. by rewrite Hn.
    + by rewrite add_entity_graph, add_node_edges.
    + intros n. unfold add_entity.
      assert (a ∈ l ++ [a]) as Hlast by (apply elem_of_app; right; left).
      assert (n ≠ a →
        (if decide (n ∈ l ++ [a])
         then match ed !! n with Some (x :: m) => Some (x :: m) | _ => None end
         else None)
        = (if decide (n ∈ l)
           then match ed !! n with Some (x :: m) => Some (x :: m) | _ => None end
           else None)) as Hother.
      { intros Hne. destruct (decide (n ∈ l)) as [Hin|Hin].
        - by rewrite decide_True by (apply elem_of_app; by left).
        - rewrite decide_False; [done|].
          intros [?|?%list_elem_of_singleton]%elem_of_app; done. }
      destruct (ed !! a) as [[|x m]|] eqn:Hed; simpl.
      * rewrite Hd. destruct (decide (n = a)) as [->|Hne]; [|by rewrite Hother].
        by rewrite Hed, decide_False, decide_True.
      * destruct (decide (n = a)) as [->|Hne].
        -- by rewrite lookup_insert_eq, Hed, decide_True.
        -- by rewrite lookup_insert_ne, Hd, Hother.
      * rewrite Hd. destruct (decide (n = a)) as [->|Hne]; [|by rewrite Hother].
        by rewrite Hed, decide_False, decide_True.
Qed.

(** The import of the edge records of an export into a graph that has the
    nodes. *)
Lemma import_edges (N : list string) (D : gmap string pydict) (es : list nx.edge) :
  NoDup es.*1 →
  (∀ e, e ∈ es → e.1.1 ∈ N ∧ e.1.2 ∈ N ∧ (0 <= nx.weight e.2 <= 1)%R) →
  foldl (λ kg edge_data,
           add_relationship kg (edge_source edge_data) (edge_target edge_data)
             (default (5 / 10)%R (edge_weight edge_data))
             (default "related_to" (edge_relationship_type edge_data))
             (edge_metadata edge_data))
        (MkKG (nx.MkDiGraph N []) D)
        ((λ e : nx.edge,
            MkEdgeRec e.1.1 e.1.2 (Some (nx.weight e.2))
              (Some (nx.relationship_type e.2)) (Some (nx.metadata e.2))) <$> es)
  = MkKG (nx.MkDiGraph N es) D.
Proof.
  induction es as [|[[u v] [w ty m]] es IH] using rev_ind; intros Hnd Hes; [done|].
  rewrite fmap_app in Hnd. apply NoDup_app in Hnd as (Hnd & Hdisj & _).
  rewrite fmap_snoc, foldl_snoc, IH; [|done|intros e He; apply Hes, elem_of_app; auto].
  destruct (Hes (u, v, nx.Attrs w ty m)) as (Hu & Hv & Hw);
    [apply elem_of_app; right; left|]. simpl in Hu, Hv, Hw.
  apply kg_eq; [|by rewrite add_relationship_data].
  rewrite add_relationship_graph. simpl.
  unfold nx.add_edge. cbv zeta.
  rewrite (add_node_old (nx.MkDiGraph N es) u) by done.
  rewrite (add_node_old (nx.MkDiGraph N es) v) by done. simpl.
  rewrite set_edge_new.
  - rewrite clamp_unit_id by done.
    by destruct m.
  - intros Hin. apply (Hdisj (u, v) Hin). left.
Qed.

Lemma out_edges_other (es : list nx.edge) n m :
  n ≠ m →
  filter (λ e : nx.edge, e.1.1 = n) (filter (λ e : nx.edge, e.1.1 = m) es) = [].
Proof.
  intros Hne. induction es as [|e es IH]; [done|].
  rewrite (filter_cons _ e). case_decide as He; [|done].
  rewrite filter_cons_False; [done|congruence].
Qed.

Lemma out_edges_of_view (N : list string) (es : list nx.edge) n :
  NoDup N → n ∈ N →
  filter (λ e : nx.edge, e.1.1 = n)
         (m ← N; filter (λ e : nx.edge, e.1.1 = m) es)
  = filter (λ e : nx.edge, e.1.1 = n) es.
Proof.
  assert (∀ l : list string, n ∉ l →
    filter (λ e : nx.edge, e.1.1 = n)
      (m' ← l; filter (λ e : nx.edge, e.1.1 = m') es) = []) as Hnone.
  { induction l as [|m' l IHl]; [done|]. rewrite not_elem_of_cons. intros [? ?].
    by rewrite bind_cons, filter_app, IHl, app_nil_r, out_edges_other. }
  induction 1 as [|m N Hm HN IH]; [by intros ?%elem_of_nil|].
  intros Hn. rewrite bind_cons, filter_app.
  apply elem_of_cons in Hn as [->|Hn].
  - rewrite Hnone, app_nil_r by done. by apply list_filter_filter_l.
  - rewrite IH, out_edges_other; [done|congruence|done].
Qed.

Lemma list_bind_ext_in {A B} (f g : A → list B) (l : list A) :
  (∀ x, x ∈ l → f x = g x) → l ≫= f = l ≫= g.
Proof.
  induction l as [|x l IH]; intros Hfg; [done|].
  rewrite !bind_cons, Hfg, IH; [done| |left].
  intros y Hy. apply Hfg. by right.
Qed.

(** The edge view of the edge view is the edge view. *)
Lemma edges_view_idem G :
  NoDup (nx.nodes G) →
  nx.edges_view (nx.MkDiGraph (nx.nodes G) (nx.edges_view G)) = nx.edges_view G.
Proof.
  intros Hnd. unfold nx.edges_view, nx.out_edges. simpl.
  apply list_bind_ext_in. intros n Hn. by apply out_edges_of_view.
Qed.

Lemma lookup_edges_view kg u v :
  wf kg →
  nx.lookup_edge (nx.edges_view (graph kg)) u v = nx.get_edge (graph kg) u v.
Proof.
  intros Hwf. unfold nx.get_edge.
  destruct (nx.lookup_edge (nx.edges (graph kg)) u v) as [d|] eqn:Hd.
  - apply elem_of_lookup_edge; [by apply relationships_keys_NoDup|].
    by apply get_edge_in_relationships.
  - apply lookup_edge_None. apply lookup_edge_None in Hd.
    intros (e & Heq & [He _]%elem_of_edges_view)%list_elem_of_fmap.
    apply Hd. rewrite Heq. by apply list_elem_of_fmap_2.
Qed.

(** What the import of an export is: the nodes in their order, the edges
    in the order of the export, the metadata as they were. *)
Lemma from_dict_to_dict kg :
  wf kg →
  from_dict (to_dict kg)
  = MkKG (nx.MkDiGraph (nx.nodes (graph kg)) (nx.edges_view (graph kg)))
         (entity_data kg).
Proof.
  intros Hwf. unfold from_dict, to_dict. cbn [rec_nodes rec_edges default].
  destruct (import_nodes (entity_data kg) (nx.nodes (graph kg)) (wf_nodes _ Hwf))
    as (Hn & He & Hd).
  set (r := foldl _ kg_init _) in *.
  replace r with (MkKG (nx.MkDiGraph (nx.nodes (graph kg)) []) (entity_data kg)).
  - apply import_edges; [by apply relationships_keys_NoDup|].
    intros e [He' Hsrc]%elem_of_edges_view.
    destruct (wf_ends _ Hwf e He') as [? ?].
    split; [done|]. split; [done|]. by apply (wf_weight _ Hwf).
  - symmetry. apply kg_eq; simpl.
    + by apply digraph_eq.
    + apply map_eq. intros n. rewrite Hd.
      destruct (entity_data kg !! n) as [m|] eqn:Hm.
      * destruct (wf_data _ Hwf n m Hm) as [Hin Hne].
        rewrite decide_True by done. by destruct m.
      * by case_decide.
Qed.

End round_trip.

(** C1.  For a graph built through the mutators, importing its export gives
    a graph with the same entities, the same relationships with the same
    weights, types and metadata, and the same entity metadata; exporting
    again gives the same record. *)
Theorem export_import_round_trip (kg : KnowledgeGraph) :
  reachable kg →
  let kg' := from_dict (to_dict kg) in
  get_entities kg' = get_entities kg
  ∧ get_relationships kg' = get_relationships kg
  ∧ (∀ u v, nx.get_edge (graph kg') u v = nx.get_edge (graph kg) u v)
  ∧ entity_data kg' = entity_data kg
  ∧ (∀ entity, stored_metadata kg' entity = stored_metadata kg entity)
  ∧ to_dict kg' = to_dict kg.
Proof.
  intros Hwf%reachable_wf kg'. subst kg'. rewrite from_dict_to_dict by done.
  assert (get_relationships
            (MkKG (nx.MkDiGraph (nx.nodes (graph kg)) (nx.edges_view (graph kg)))
                  (entity_data kg))
          = get_relationships kg) as Hrel
    by apply edges_view_idem, Hwf.
  split_and!; try done.
  - intros u v. by apply lookup_edges_view.
  - unfold to_dict. cbn [graph entity_data nx.nodes].
    unfold get_relationships in Hrel. cbn [graph] in Hrel. by rewrite Hrel.
Qed.

(** C1, at a graph with an entity that has metadata and an edge whose
    weight was clamped. *)
Lemma export_import_round_trip_witness :
  let kg :=
    add_relationship
      (add_entity kg_init "A" (Some [("kind", JStr "person")]))
      "B" "A" 7 "knows" (Some [("confidence", JNum (9 / 10))]) in
  get_entities (from_dict (to_dict kg)) = get_entities kg
  ∧ get_relationships (from_dict (to_dict kg)) = get_relationships kg
  ∧ to_dict (from_dict (to_dict kg)) = to_dict kg.
Proof.
  intros kg.
  assert (reachable kg) as Hr
    by apply reachable_add_relationship, reachable_add_entity, reachable_init.
  destruct (export_import_round_trip kg Hr) as (H1 & H2 & _ & _ & _ & H3).
  by split_and!.
Defined.

(** * Neighbourhoods, beyond the start entity *)

Section neighbourhood_facts.
Implicit Types (U : nx.Graph) (cur vis next S : gset string) (e x : string).

Lemma neighbors_node U x : x ∈ nx.unodes U → nx.neighbors U x = Ok (nx.adj U x).
Proof. intros Hx. unfold nx.neighbors. by rewrite bool_decide_eq_true_2. Qed.

(** One turn of the loop of [get_neighbors] on nodes of the graph: it
    raises nothing and finds the unvisited neighbours of the level. *)
Lemma next_level_ok U vis (l : list string) : ∀ acc,
  (∀ x, x ∈ l → x ∈ nx.unodes U) →
  ∃ next,
    foldM (λ next_level node,
             neighbors ← nx.neighbors U node;
             Ok (next_level ∪ (neighbors ∖ vis))) l acc = Ok next
    ∧ ∀ y, y ∈ next ↔ y ∈ acc ∨ ((y ∉ vis) ∧ ∃ x, x ∈ l ∧ y ∈ nx.adj U x).
Proof.
  induction l as [|a l IH]; intros acc Hl; simpl.
  - exists acc. split; [done|]. intros y. split; [auto|].
    intros [?|[_ (x & ?%elem_of_nil & _)]]; done.
  - rewrite neighbors_node by (apply Hl; left). simpl.
    destruct (IH (acc ∪ nx.adj U a ∖ vis)) as (next & -> & Hnext);
      [intros; apply Hl; by right|].
    exists next. split; [done|]. intros y. rewrite Hnext, elem_of_union,
      elem_of_difference. split.
    + intros [[?|[? ?]]|[? (x & ? & ?)]]; [by left| |].
      * right. split; [done|]. exists a. split; [left|done].
      * right. split; [done|]. exists x. split; [by right|done].
    + intros [?|[? (x & [->|?]%elem_of_cons & ?)]]; [by left; left| |].
      * by left; right.
      * right. split; [done|]. by exists x.
Qed.

(** The loop of [get_neighbors] on a graph whose edges end at nodes: it
    raises nothing, and what it answers with are nodes connected to the
    level it started from. *)
Lemma neighbors_bfs_ok U n : ∀ cur vis,
  graph_ok U → (∀ x, x ∈ cur → x ∈ nx.unodes U) →
  ∃ S, neighbors_bfs U n cur vis = Ok S
       ∧ (∀ y, y ∈ S → y ∈ nx.unodes U)
       ∧ (∀ y, y ∈ S → ∃ x, x ∈ cur ∧ connected U x y).
Proof.
  induction n as [|n IH]; intros cur vis Hok Hcur; simpl.
  - exists cur. split_and!; [done|done|]. intros y ?. by exists y.
  - destruct (next_level_ok U vis (elements cur) ∅) as (next & -> & Hnext).
    { intros x ?%elem_of_elements. by apply Hcur. }
    simpl.
    assert (∀ y, y ∈ next → ∃ x, x ∈ cur ∧ adjacent U x y) as Hstep.
    { intros y [?%elem_of_empty|[_ (x & ?%elem_of_elements & ?)]]%Hnext; [done|].
      by exists x. }
    destruct (IH next (vis ∪ next) Hok) as (S & -> & HS1 & HS2).
    { intros y (x & Hx & Hxy)%Hstep. by apply (adj_nodes U x). }
    exists S. split_and!; [done|done|].
    intros y (z & (x & Hx & Hxz)%Hstep & Hzy)%HS2. exists x. split; [done|].
    by eapply rtc_l.
Qed.

(** Running the loop [j + m] times is running it [j] times and then [m]
    times from the level and the visited set reached. *)
Lemma neighbors_bfs_split U j m : ∀ cur vis S,
  cur ⊆ vis →
  neighbors_bfs U (j + m) cur vis = Ok S →
  ∃ L V, neighbors_bfs U j cur vis = Ok L ∧ L ⊆ V ∧ vis ⊆ V
         ∧ neighbors_bfs U m L V = Ok S.
Proof.
  induction j as [|j IH]; intros cur vis S Hcur; simpl.
  - intros Hm. exists cur, vis. by split_and!.
  - destruct (foldM _ _ _) as [next|] eqn:Hf; simpl; [|done].
    intros (L & V & HL & HLV & HV & Hm)%IH; [|apply union_subseteq_r].
    exists L, V. split_and!; [done|done| |done].
    etrans; [|exact HV]. apply union_subseteq_l.
Qed.

Lemma neighbors_bfs_disjoint_visited U n cur vis S :
  neighbors_bfs U (Datatypes.S n) cur vis = Ok S → S ## vis.
Proof.
  intros HS x Hx Hvis. by apply (neighbors_bfs_excludes_visited U n cur vis S x).
Qed.

(** The first level found from an entity: its neighbours but itself. *)
Lemma neighbors_bfs_first U e L :
  neighbors_bfs U 1 {[e]} {[e]} = Ok L → L = nx.adj U e ∖ {[e]}.
Proof.
  simpl. rewrite elements_singleton. simpl.
  destruct (nx.neighbors U e) as [nb|] eqn:Hnb; simpl; [|done].
  intros [= <-]. unfold nx.neighbors in Hnb. case_bool_decide; [|done].
  injection Hnb as <-. by rewrite (left_id_L ∅ (∪)).
Qed.

Lemma get_neighbors_present (kg : KnowledgeGraph) e (order : Z) :
  e ∈ get_entities kg →
  get_neighbors kg e order
  = if (order =? 1)%Z then Ok (nx.adj (nx.to_undirected (graph kg)) e)
    else neighbors_bfs (nx.to_undirected (graph kg)) (Z.to_nat order) {[e]} {[e]}.
Proof.
  intros He. unfold get_neighbors.
  rewrite (proj2 (contains_true kg e) He). simpl.
  destruct (order =? 1)%Z; [|done]. by apply neighbors_node.
Qed.

(** The neighbourhoods of two different orders, both at least 1, share no
    entity. *)
Lemma get_neighbors_disjoint (kg : KnowledgeGraph) e (i j : Z) Si Sj :
  (1 <= i < j)%Z →
  get_neighbors kg e i = Ok Si → get_neighbors kg e j = Ok Sj → Si ## Sj.
Proof.
  intros Hij. unfold get_neighbors at 1 2.
  destruct (contains kg e) eqn:Hc; simpl;
    [|intros [= <-] _; apply disjoint_empty_l].
  apply contains_true in Hc.
  set (U := nx.to_undirected (graph kg)).
  destruct (Z.eqb_spec j 1) as [->|_]; [lia|].
  intros Hi Hj.
  assert (∃ n, Z.to_nat j = (Z.to_nat i + Datatypes.S n)%nat) as [n Hn].
  { exists (Z.to_nat j - Z.to_nat i - 1)%nat. lia. }
  rewrite Hn in Hj.
  apply neighbors_bfs_split in Hj as (L & V & HL & HLV & HV & Hj); [|done].
  apply neighbors_bfs_disjoint_visited in Hj.
  destruct (Z.eqb_spec i 1) as [->|Hi1].
  - rewrite neighbors_node in Hi by done.
    injection Hi as <-. apply neighbors_bfs_first in HL as ->.
    intros x Hx Hx'. apply (Hj x Hx').
    destruct (decide (x = e)) as [->|Hne].
    + apply HV. by apply elem_of_singleton.
    + apply HLV, elem_of_difference. split; [done|].
      by intros ?%elem_of_singleton.
  - rewrite Hi in HL. injection HL as ->.
    intros x Hx Hx'. apply (Hj x Hx'). by apply HLV.
Qed.

End neighbourhood_facts.

Section neighbourhood_claims.
Implicit Types (kg : KnowledgeGraph) (e a b : string).

Lemma undirected_edge kg a b :
  wf kg →
  (a, b) ∈ nx.uedges (nx.to_undirected (graph kg))
  ↔ nx.has_edge (graph kg) a b = true.
Proof.
  intros Hwf. rewrite has_edge_true. simpl. rewrite !list_elem_of_fmap. split.
  - intros (x & -> & [? _]%elem_of_edges_view). by exists x.
  - intros (x & -> & Hx). exists x. split; [done|].
    apply elem_of_edges_view. split; [done|]. by apply (wf_ends _ Hwf).
Qed.

Lemma get_neighbors_ok kg e order :
  wf kg →
  ∃ S, get_neighbors kg e order = Ok S
       ∧ (∀ y, y ∈ S → y ∈ get_entities kg)
       ∧ (∀ y, y ∈ S → connected (nx.to_undirected (graph kg)) e y).
Proof.
  intros Hwf. pose proof (to_undirected_ok kg Hwf) as Hok.
  destruct (decide (e ∈ get_entities kg)) as [He|He].
  - rewrite get_neighbors_present by done.
    destruct (order =? 1)%Z.
    + eexists. split; [done|]. split.
      * intros y Hy. by apply (adj_nodes _ e) in Hy.
      * intros y Hy. by apply rtc_once.
    + destruct (neighbors_bfs_ok (nx.to_undirected (graph kg))
                  (Z.to_nat order) {[e]} {[e]} Hok) as (S & HS & H1 & H2).
      { by intros x ->%elem_of_singleton. }
      exists S. split_and!; [done|done|].
      intros y (x & ->%elem_of_singleton & Hxy)%H2. done.
  - exists ∅. unfold get_neighbors, contains.
    rewrite (proj2 (has_node_false (graph kg) e) He). simpl.
    split_and!; [done| |]; by intros y ?%elem_of_empty.
Qed.

Lemma all_neighbors_loop kg e (orders : list Z) : ∀ acc,
  (∀ o, ∃ S, get_neighbors kg e o = Ok S) →
  ∃ l,
    foldM (λ neighbors_by_order order,
             neighbors ← get_neighbors kg e order;
             Ok (neighbors_by_order ++ [(order, neighbors)])) orders acc
    = Ok (acc ++ l)
    ∧ l.*1 = orders
    ∧ ∀ o S, (o, S) ∈ l → get_neighbors kg e o = Ok S.
Proof.
  intros acc Hok. revert acc.
  induction orders as [|o orders IH]; intros acc; simpl.
  - exists []. rewrite app_nil_r. split_and!; [done|done|].
    by intros o S ?%elem_of_nil.
  - destruct (Hok o) as [S HS]. rewrite HS. simpl.
    destruct (IH (acc ++ [(o, S)])) as (l & -> & Hl1 & Hl2).
    exists ((o, S) :: l). rewrite <-app_assoc. split_and!; [done| |].
    + csimpl. by rewrite Hl1.
    + intros o' S' [[= -> ->]|?]%elem_of_cons; auto.
Qed.

End neighbourhood_claims.

(** X1.  In a graph built through the mutators [get_neighbors] raises
    nothing, whatever the entity and the order, and every entity it returns
    is an entity of the graph that a chain of relationships, each taken in
    either direction, links to the one asked about. *)
Theorem get_neighbors_total (kg : KnowledgeGraph) (entity : string) (order : Z) :
  reachable kg →
  ∃ S, get_neighbors kg entity order = Ok S
       ∧ (∀ y, y ∈ S → y ∈ get_entities kg)
       ∧ (∀ y, y ∈ S → connected (nx.to_undirected (graph kg)) entity y).
Proof. intros Hwf%reachable_wf. by apply get_neighbors_ok. Qed.

(** X1, at the chain A, B, C asked for the second order from A. *)
Lemma get_neighbors_total_witness :
  let kg :=
    add_relationship (add_relationship kg_init "A" "B" 1 "r" None)
      "B" "C" 1 "r" None in
  ∃ S, get_neighbors kg "A" 2 = Ok S
       ∧ (∀ y, y ∈ S → y ∈ get_entities kg)
       ∧ (∀ y, y ∈ S → connected (nx.to_undirected (graph kg)) "A" y).
Proof.
  intros kg. apply get_neighbors_total.
  do 2 apply reachable_add_relationship. apply reachable_init.
Defined.

(** X2.  The neighbours of order 1 of an entity are the entities it has a
    relationship with, in either direction; so, between two entities of the
    graph, being a neighbour of order 1 is symmetric. *)
Theorem get_neighbors_direct (kg : KnowledgeGraph) (a : string) :
  reachable kg → a ∈ get_entities kg →
  ∃ S, get_neighbors kg a 1 = Ok S
       ∧ (∀ b, b ∈ S ↔
            nx.has_edge (graph kg) a b = true ∨ nx.has_edge (graph kg) b a = true)
       ∧ (∀ b S', b ∈ get_entities kg → get_neighbors kg b 1 = Ok S' →
            (b ∈ S ↔ a ∈ S')).
Proof.
  intros Hwf%reachable_wf Ha. rewrite get_neighbors_present by done. simpl.
  eexists. split; [done|]. split.
  - intros b. by rewrite elem_of_adj, !undirected_edge.
  - intros b S' Hb. rewrite get_neighbors_present by done. simpl.
    intros [= <-]. split; apply adjacent_sym.
Qed.

(** X2, at the one edge from A to B, asked from B. *)
Lemma get_neighbors_direct_witness :
  let kg := add_relationship kg_init "A" "B" 1 "r" None in
  ∃ S, get_neighbors kg "B" 1 = Ok S
       ∧ (∀ b, b ∈ S ↔
            nx.has_edge (graph kg) "B" b = true
            ∨ nx.has_edge (graph kg) b "B" = true)
       ∧ (∀ b S', b ∈ get_entities kg → get_neighbors kg b 1 = Ok S' →
            (b ∈ S ↔ "B" ∈ S')).
Proof.
  intros kg. apply get_neighbors_direct.
  - apply reachable_add_relationship, reachable_init.
  - apply has_node_true. by vm_compute.
Defined.

(** X3.  In a graph built through the mutators
    [get_all_neighbors_up_to_order] raises nothing; its keys are the orders
    from 1 to [max_order], each with what [get_neighbors] returns for it,
    and the sets of two different orders share no entity. *)
Theorem get_all_neighbors_layers (kg : KnowledgeGraph) (entity : string)
    (max_order : Z) :
  reachable kg →
  ∃ l, get_all_neighbors_up_to_order kg entity max_order = Ok l
       ∧ l.*1 = seqZ 1 max_order
       ∧ (∀ i S, (i, S) ∈ l → get_neighbors kg entity i = Ok S)
       ∧ (∀ i j Si Sj, (i, Si) ∈ l → (j, Sj) ∈ l → i ≠ j → Si ## Sj).
Proof.
  intros Hwf%reachable_wf. unfold get_all_neighbors_up_to_order, py_range.
  replace (max_order + 1 - 1)%Z with max_order by lia.
  destruct (all_neighbors_loop kg entity (seqZ 1 max_order) [])
    as (l & -> & Hkeys & Hvals).
  { intros o. destruct (get_neighbors_ok kg entity o Hwf) as (S & ? & _). eauto. }
  exists l. split_and!; [done|done|done|].
  assert (∀ i S, (i, S) ∈ l → (1 <= i)%Z) as Hpos.
  { intros i S Hi. apply (list_elem_of_fmap_2 fst) in Hi. rewrite Hkeys in Hi.
    apply elem_of_seqZ in Hi. simpl in Hi. lia. }
  intros i j Si Sj Hi Hj Hij.
  pose proof (Hpos _ _ Hi). pose proof (Hpos _ _ Hj).
  apply Hvals in Hi. apply Hvals in Hj.
  destruct (Z.lt_total i j) as [?|[?|?]]; [|done|].
  - by apply (get_neighbors_disjoint kg entity i j).
  - symmetry. by apply (get_neighbors_disjoint kg entity j i).
Qed.

(** X3, at the chain A, B, C asked up to the third order from A. *)
Lemma get_all_neighbors_layers_witness :
  let kg :=
    add_relationship (add_relationship kg_init "A" "B" 1 "r" None)
      "B" "C" 1 "r" None in
  ∃ l, get_all_neighbors_up_to_order kg "A" 3 = Ok l
       ∧ l.*1 = seqZ 1 3
       ∧ (∀ i S, (i, S) ∈ l → get_neighbors kg "A" i = Ok S)
       ∧ (∀ i j Si Sj, (i, Si) ∈ l → (j, Sj) ∈ l → i ≠ j → Si ## Sj).
Proof.
  intros kg. apply get_all_neighbors_layers.
  do 2 apply reachable_add_relationship. apply reachable_init.
Defined.

(** * The store under sequences of calls *)

Section mutation_facts.
Implicit Types (kg : KnowledgeGraph) (G : nx.DiGraph) (m : mutation)
  (ms : list mutation) (n u v : string).

Lemma add_node_prefix G n : nx.nodes G `prefix_of` nx.nodes (nx.add_node G n).
Proof.
  unfold nx.add_node. destruct (nx.has_node G n); simpl; [done|].
  by apply prefix_app_r.
Qed.

Lemma mutate_nodes kg m n :
  n ∈ get_entities (mutate kg m) ↔ n ∈ get_entities kg ∨ n ∈ mutation_names m.
Proof.
  unfold get_entities. destruct m as [e md|s t w ty md]; cbn [mutate mutation_names].
  - rewrite add_entity_graph, elem_of_add_node, list_elem_of_singleton. tauto.
  - rewrite add_relationship_graph, add_edge_nodes, !elem_of_cons, elem_of_nil.
    tauto.
Qed.

Lemma mutate_prefix kg m : get_entities kg `prefix_of` get_entities (mutate kg m).
Proof.
  unfold get_entities. destruct m as [e md|s t w ty md]; cbn [mutate mutation_names].
  - rewrite add_entity_graph. apply add_node_prefix.
  - rewrite add_relationship_graph. unfold nx.add_edge. cbn [nx.nodes].
    etrans; apply add_node_prefix.
Qed.

Lemma run_nodes ms : ∀ kg n,
  n ∈ get_entities (foldl mutate kg ms)
  ↔ n ∈ get_entities kg ∨ n ∈ ms ≫= mutation_names.
Proof.
  induction ms as [|m ms IH]; intros kg n; simpl.
  - split; [auto|]. by intros [?|?%elem_of_nil].
  - rewrite IH, mutate_nodes, elem_of_app. tauto.
Qed.

Lemma run_reachable ms : ∀ kg, reachable kg → reachable (foldl mutate kg ms).
Proof.
  induction ms as [|m ms IH]; intros kg Hr; simpl; [done|].
  apply IH. destruct m; simpl; by constructor.
Qed.

Lemma reachable_run kg : reachable kg → ∃ ms, kg = foldl mutate kg_init ms.
Proof.
  induction 1 as [|kg e md _ [ms ->]|kg s t w ty md _ [ms ->]].
  - by exists [].
  - exists (ms ++ [AddEntity e md]). by rewrite foldl_snoc.
  - exists (ms ++ [AddRelationship s t w ty md]). by rewrite foldl_snoc.
Qed.

(** The edge view lists the edges, each once. *)
Lemma edges_view_perm kg : wf kg → nx.edges_view (graph kg) ≡ₚ nx.edges (graph kg).
Proof.
  intros Hwf. apply NoDup_Permutation.
  - eapply NoDup_fmap_1, relationships_keys_NoDup, Hwf.
  - eapply NoDup_fmap_1, Hwf.
  - intros e. rewrite elem_of_edges_view. split; [tauto|].
    intros He. split; [done|]. by apply (wf_ends _ Hwf).
Qed.

Lemma filter_none {A} (P : A → Prop) `{∀ x, Decision (P x)} (l : list A) :
  (∀ x, x ∈ l → ¬ P x) → filter P l = [].
Proof.
  induction l as [|x l IH]; intros Hl; [done|].
  rewrite filter_cons_False by (apply Hl; left).
  apply IH. intros y ?. apply Hl. by right.
Qed.

Lemma add_entity_relationships kg e md :
  wf kg → get_relationships (add_entity kg e md) = get_relationships kg.
Proof.
  intros Hwf. unfold get_relationships. rewrite add_entity_graph.
  unfold nx.add_node. destruct (nx.has_node (graph kg) e) eqn:He; [done|].
  apply has_node_false in He.
  unfold nx.edges_view, nx.out_edges. simpl.
  rewrite bind_app, bind_cons. simpl. rewrite !app_nil_r.
  rewrite filter_none, app_nil_r; [done|].
  intros x Hx Hsrc. apply He. rewrite <-Hsrc. by apply (wf_ends _ Hwf).
Qed.

Lemma add_relationship_new kg s t w ty md :
  wf kg → nx.get_edge (graph kg) s t = None →
  get_relationships (add_relationship kg s t w ty md)
  ≡ₚ get_relationships kg
     ++ [(s, t, nx.Attrs (clamp w 0 1) ty (or_empty md))].
Proof.
  intros Hwf Hnone. unfold get_relationships.
  rewrite (edges_view_perm _ (wf_add_relationship kg s t w ty md Hwf)).
  rewrite (edges_view_perm kg Hwf).
  rewrite add_relationship_graph, add_edge_edges, set_edge_new, clamp_unit;
    [done|]. by apply lookup_edge_None.
Qed.

End mutation_facts.

(** X4.  The entities of a graph are the names the calls that built it
    mention, each once: a call keeps the entities there were, in their
    order, ahead of the ones it adds, and after any sequence of calls on the
    empty graph a name is an entity exactly when a call of the sequence
    mentions it, as the entity of [add_entity] or as an end of
    [add_relationship]. *)
Theorem entities_are_mentioned_names :
  (∀ kg m, get_entities kg `prefix_of` get_entities (mutate kg m))
  ∧ (∀ ms n,
       n ∈ get_entities (foldl mutate kg_init ms) ↔ n ∈ ms ≫= mutation_names)
  ∧ (∀ ms, NoDup (get_entities (foldl mutate kg_init ms)))
  ∧ (∀ kg, reachable kg ↔ ∃ ms, kg = foldl mutate kg_init ms).
Proof.
  split_and!.
  - apply mutate_prefix.
  - intros ms n. rewrite run_nodes. split; [|auto].
    by intros [?%elem_of_nil|?].
  - intros ms. apply (wf_nodes _ (reachable_wf _ (run_reachable ms _ reachable_init))).
  - intros kg. split; [apply reachable_run|].
    intros [ms ->]. apply run_reachable, reachable_init.
Qed.

(** X5.  In a graph built through the mutators [add_entity] leaves the
    relationships as they are, whether the entity is new or not, and
    [add_relationship] for a pair that has no relationship adds that one
    relationship, with the clamped weight, and keeps every other; neither
    call touches the metadata of the entities it does not name. *)
Theorem mutators_frame (kg : KnowledgeGraph) :
  reachable kg →
  (∀ entity metadata,
     get_relationships (add_entity kg entity metadata) = get_relationships kg)
  ∧ (∀ source target w relationship_type metadata,
       nx.has_edge (graph kg) source target = false →
       get_relationships
         (add_relationship kg source target w relationship_type metadata)
       ≡ₚ get_relationships kg
          ++ [(source, target,
               nx.Attrs (clamp w 0 1) relationship_type (or_empty metadata))])
  ∧ (∀ source target w relationship_type metadata,
       entity_data
         (add_relationship kg source target w relationship_type metadata)
       = entity_data kg)
  ∧ (∀ entity metadata other,
       other ≠ entity →
       stored_metadata (add_entity kg entity metadata) other
       = stored_metadata kg other).
Proof.
  intros Hwf%reachable_wf. split_and!.
  - intros e md. by apply add_entity_relationships.
  - intros s t w ty md Hno. apply add_relationship_new; [done|].
    unfold nx.has_edge in Hno. apply bool_decide_eq_false in Hno.
    by apply eq_None_not_Some.
  - intros. apply add_relationship_data.
  - intros e md other Hne. unfold stored_metadata, add_entity.
    destruct (truthy md); simpl; [|done]. by rewrite lookup_insert_ne.
Qed.

(** X5, at a graph with the edge A to B, given the entity C and the edge
    B to A. *)
Lemma mutators_frame_witness :
  let kg := add_relationship kg_init "A" "B" 1 "r" None in
  get_relationships (add_entity kg "C" (Some [("kind", JStr "place")]))
  = get_relationships kg
  ∧ get_relationships (add_relationship kg "B" "A" 2 "s" None)
    ≡ₚ get_relationships kg ++ [("B", "A", nx.Attrs (clamp 2 0 1) "s" [])].
Proof.
  intros kg.
  assert (reachable kg) as Hr by apply reachable_add_relationship, reachable_init.
  destruct (mutators_frame kg Hr) as (H1 & H2 & _).
  split; [apply H1|]. apply (H2 "B" "A" 2%R "s" None). by vm_compute.
Defined.

(** * The relationships of an entity *)

Section entity_relationship_facts.
Implicit Types (kg : KnowledgeGraph) (G : nx.DiGraph) (N : list string)
  (es : list nx.edge) (n e u v : string).

Lemma sum_list_bind_length {A B} (f : A → list B) (l : list A) :
  length (l ≫= f) = sum_list ((λ x, length (f x)) <$> l).
Proof.
  induction l as [|x l IH]; [done|].
  rewrite bind_cons, length_app, IH. done.
Qed.

(** Among distinct nodes an edge is counted once, at its end. *)
Lemma sum_list_in_edges N es :
  NoDup N → (∀ e : nx.edge, e ∈ es → e.1.2 ∈ N) →
  sum_list ((λ n, length (filter (λ e : nx.edge, e.1.2 = n) es)) <$> N)
  = length es.
Proof.
  intros HN. induction es as [|e es IH]; intros Hes.
  - clear. simpl. induction N as [|n N IHN]; [done|]. simpl. exact IHN.
  - assert (∀ l : list string, NoDup l →
      sum_list ((λ n, length (filter (λ e' : nx.edge, e'.1.2 = n) (e :: es))) <$> l)
      = ((if bool_decide (e.1.2 ∈ l) then 1 else 0)
         + sum_list ((λ n, length (filter (λ e' : nx.edge, e'.1.2 = n) es)) <$> l))%nat)
      as Hcount.
    { induction 1 as [|n l Hn Hl IHl]; [done|]. csimpl.
      rewrite IHl, filter_cons.
      destruct (decide (e.1.2 = n)) as [Heq|Hne].
      - rewrite (bool_decide_eq_true_2 (e.1.2 ∈ n :: l)) by (rewrite Heq; left).
        rewrite (bool_decide_eq_false_2 (e.1.2 ∈ l)) by (by rewrite Heq).
        simpl. lia.
      - destruct (decide (e.1.2 ∈ l)) as [Hin|Hout].
        + rewrite (bool_decide_eq_true_2 (e.1.2 ∈ n :: l)) by (by right).
          rewrite (bool_decide_eq_true_2 (e.1.2 ∈ l)) by done. lia.
        + rewrite (bool_decide_eq_false_2 (e.1.2 ∈ n :: l))
            by (by intros [?|?]%elem_of_cons).
          rewrite (bool_decide_eq_false_2 (e.1.2 ∈ l)) by done. lia. }
    rewrite Hcount, IH by (done || intros; apply Hes; by right).
    rewrite bool_decide_eq_true_2 by (apply Hes; left). done.
Qed.

Lemma outgoing_present kg e :
  e ∈ get_entities kg →
  outgoing (get_entity_relationships kg e)
  = (λ x : nx.edge, (x.1.2, nx.weight x.2, nx.relationship_type x.2))
      <$> nx.out_edges (graph kg) e.
Proof.
  intros He. unfold get_entity_relationships.
  by rewrite (proj2 (contains_true kg e) He).
Qed.

Lemma incoming_present kg e :
  e ∈ get_entities kg →
  incoming (get_entity_relationships kg e)
  = (λ x : nx.edge, (x.1.1, nx.weight x.2, nx.relationship_type x.2))
      <$> nx.in_edges (graph kg) e.
Proof.
  intros He. unfold get_entity_relationships.
  by rewrite (proj2 (contains_true kg e) He).
Qed.

Lemma fmap_ext_in {A B} (f g : A → B) (l : list A) :
  (∀ x, x ∈ l → f x = g x) → f <$> l = g <$> l.
Proof.
  induction l as [|x l IH]; intros Hfg; [done|].
  csimpl. rewrite Hfg, IH; [done| |left]. intros y ?. apply Hfg. by right.
Qed.

End entity_relationship_facts.

(** X6.  In a graph built through the mutators the outgoing list of an
    entity holds the relationships that start at it and the incoming list
    those that end at it, with their weights and types; over all entities
    the outgoing lists, and likewise the incoming lists, have as many
    records together as the graph has relationships. *)
Theorem entity_relationships_cover (kg : KnowledgeGraph) :
  reachable kg →
  (∀ entity other w ty,
     entity ∈ get_entities kg →
     ((other, w, ty) ∈ outgoing (get_entity_relationships kg entity)
      ↔ ∃ d, nx.get_edge (graph kg) entity other = Some d
             ∧ nx.weight d = w ∧ nx.relationship_type d = ty)
     ∧ ((other, w, ty) ∈ incoming (get_entity_relationships kg entity)
        ↔ ∃ d, nx.get_edge (graph kg) other entity = Some d
               ∧ nx.weight d = w ∧ nx.relationship_type d = ty))
  ∧ sum_list ((λ n, length (outgoing (get_entity_relationships kg n)))
                <$> get_entities kg)
    = length (get_relationships kg)
  ∧ sum_list ((λ n, length (incoming (get_entity_relationships kg n)))
                <$> get_entities kg)
    = length (get_relationships kg).
Proof.
  intros Hwf%reachable_wf.
  assert (length (get_relationships kg) = length (nx.edges (graph kg))) as Hlen
    by (by rewrite (edges_view_perm kg Hwf)).
  split_and!.
  - intros e o w ty He. rewrite outgoing_present, incoming_present by done.
    unfold nx.out_edges, nx.in_edges, nx.get_edge.
    rewrite !list_elem_of_fmap. split; split.
    + intros ([[u v] d] & [= -> -> ->] & [Hu Hin]%list_elem_of_filter).
      simpl in Hu. subst u. exists d. split; [|done].
      apply elem_of_lookup_edge; [apply Hwf|done].
    + intros (d & Hd%lookup_edge_elem_of & <- & <-).
      exists (e, o, d). split; [done|]. by apply list_elem_of_filter.
    + intros ([[u v] d] & [= -> -> ->] & [Hv Hin]%list_elem_of_filter).
      simpl in Hv. subst v. exists d. split; [|done].
      apply elem_of_lookup_edge; [apply Hwf|done].
    + intros (d & Hd%lookup_edge_elem_of & <- & <-).
      exists (o, e, d). split; [done|]. by apply list_elem_of_filter.
  - unfold get_relationships, nx.edges_view.
    rewrite sum_list_bind_length. f_equal. apply fmap_ext_in.
    intros n Hn. by rewrite outgoing_present, length_fmap.
  - rewrite Hlen, <-(sum_list_in_edges (nx.nodes (graph kg)) (nx.edges (graph kg)));
      [|apply Hwf|intros e He; by apply (wf_ends _ Hwf)].
    f_equal. apply fmap_ext_in.
    intros n Hn. by rewrite incoming_present, length_fmap.
Qed.

(** X6, at the graph with the edges A to B and C to B. *)
Lemma entity_relationships_cover_witness :
  let kg :=
    add_relationship (add_relationship kg_init "A" "B" 1 "r" None)
      "C" "B" 1 "r" None in
  sum_list ((λ n, length (incoming (get_entity_relationships kg n)))
              <$> get_entities kg)
  = length (get_relationships kg).
Proof.
  intros kg.
  assert (reachable kg) as Hr
    by (do 2 apply reachable_add_relationship; apply reachable_init).
  exact (proj2 (proj2 (entity_relationships_cover kg Hr))).
Defined.

(** * Weights along a path *)

Section path_weight_facts.
Implicit Types (kg : KnowledgeGraph) (path : list string) (a b : string).

Lemma get_path_weights_cons kg a b path :
  get_path_weights kg (a :: b :: path)
  = match nx.get_edge (graph kg) a b with
    | Some d => nx.weight d :: get_path_weights kg (b :: path)
    | None => get_path_weights kg (b :: path)
    end.
Proof. done. Qed.

Lemma path_weights_le kg path :
  length (get_path_weights kg path) ≤ length path - 1.
Proof.
  induction path as [|a [|b path] IH]; [done|done|].
  rewrite get_path_weights_cons.
  destruct (nx.get_edge (graph kg) a b); simpl in *; lia.
Qed.

Lemma path_weights_full kg path :
  length (get_path_weights kg path) = length path - 1 → is_path (graph kg) path.
Proof.
  induction path as [|a [|b path] IH]; [done|done|].
  rewrite get_path_weights_cons.
  pose proof (path_weights_le kg (b :: path)) as Hle.
  destruct (nx.get_edge (graph kg) a b) as [d|] eqn:Hd.
  - intros Hlen. split.
    + unfold nx.has_edge. apply bool_decide_eq_true. by rewrite Hd.
    + apply IH. simpl in *. lia.
  - intros Hlen. simpl in *. lia.
Qed.

Lemma path_weights_unit kg path :
  wf kg → Forall (λ w, 0 <= w <= 1)%R (get_path_weights kg path).
Proof.
  intros Hwf. induction path as [|a [|b path] IH]; [constructor|constructor|].
  rewrite get_path_weights_cons.
  destruct (nx.get_edge (graph kg) a b) as [d|] eqn:Hd; [|done].
  constructor; [|done].
  apply lookup_edge_elem_of in Hd. by apply (wf_weight _ Hwf) in Hd.
Qed.

Lemma average_path_weight_unit kg path :
  wf kg → (0 <= get_average_path_weight kg path <= 1)%R.
Proof.
  intros Hwf. pose proof (path_weights_unit kg path Hwf) as Hw.
  unfold get_average_path_weight.
  destruct (get_path_weights kg path) as [|w ws] eqn:Hws; [lra|].
  by apply mean_bounds.
Qed.

(** The penalty on the length: at most 1, positive, and smaller for a
    longer path. *)
Lemma length_penalty_bounds (n1 n2 : nat) :
  1 ≤ n1 ≤ n2 →
  (0 < 1 / (1 + (INR n2 - 1) * (2 / 10))
     <= 1 / (1 + (INR n1 - 1) * (2 / 10)))%R
  ∧ (1 / (1 + (INR n1 - 1) * (2 / 10)) <= 1)%R.
Proof.
  intros [H1 H2]. apply le_INR in H1, H2. simpl in H1.
  set (d1 := (1 + (INR n1 - 1) * (2 / 10))%R).
  set (d2 := (1 + (INR n2 - 1) * (2 / 10))%R).
  assert (1 <= d1)%R as Hd1 by (unfold d1; lra).
  assert (d1 <= d2)%R as Hd2 by (unfold d1, d2; lra).
  pose proof (Rinv_0_lt_compat d2) as Hpos.
  pose proof (Rinv_le_contravar d1 d2) as Hle.
  pose proof (Rinv_le_contravar 1 d1) as Hone. rewrite Rinv_1 in Hone.
  unfold Rdiv. rewrite !Rmult_1_l. split; [split|]; [apply Hpos|apply Hle|apply Hone]; lra.
Qed.

End path_weight_facts.

(** X7.  [get_path_weights] gives at most one weight per step of the path,
    and one for every step exactly when each step is a relationship of the
    graph, a step without one being passed over; in a graph built through
    the mutators the weights, and so [get_average_path_weight], lie between
    0 and 1. *)
Theorem path_weights_bounds (kg : KnowledgeGraph) (path : list string) :
  reachable kg →
  length (get_path_weights kg path) ≤ length path - 1
  ∧ (length (get_path_weights kg path) = length path - 1
     ↔ is_path (graph kg) path)
  ∧ Forall (λ w, 0 <= w <= 1)%R (get_path_weights kg path)
  ∧ (0 <= get_average_path_weight kg path <= 1)%R.
Proof.
  intros Hwf%reachable_wf. split_and!.
  - apply path_weights_le.
  - split; [apply path_weights_full|apply path_weights_length].
  - by apply path_weights_unit.
  - by apply average_path_weight_unit.
  - by apply average_path_weight_unit.
Qed.

(** X7, at the edge A to B and the sequence A, B, C, whose second step is no
    relationship. *)
Lemma path_weights_bounds_witness :
  let kg := add_relationship kg_init "A" "B" 1 "r" None in
  length (get_path_weights kg ["A"; "B"; "C"]) ≤ 2
  ∧ (0 <= get_average_path_weight kg ["A"; "B"; "C"] <= 1)%R.
Proof.
  intros kg.
  assert (reachable kg) as Hr by apply reachable_add_relationship, reachable_init.
  destruct (path_weights_bounds kg ["A"; "B"; "C"] Hr) as (H1 & _ & _ & H2).
  by split.
Defined.

(** X8.  In a graph built through the mutators the strength of a path lies
    between 0 and the average weight of the path, which is at most 1; and of
    two paths the one with no more entities and no smaller average weight
    is at least as strong. *)
Theorem path_strength_bounds (kg : KnowledgeGraph) :
  reachable kg →
  (∀ path,
     (0 <= _calculate_path_strength kg path
        <= get_average_path_weight kg path)%R
     ∧ (get_average_path_weight kg path <= 1)%R)
  ∧ (∀ p1 p2,
       2 ≤ length p1 ≤ length p2 →
       get_path_weights kg p1 ≠ [] →
       (get_average_path_weight kg p2 <= get_average_path_weight kg p1)%R →
       (_calculate_path_strength kg p2 <= _calculate_path_strength kg p1)%R).
Proof.
  intros Hwf%reachable_wf.
  assert (∀ path, (0 <= _calculate_path_strength kg path
                     <= get_average_path_weight kg path)%R) as Hb.
  { intros path. pose proof (average_path_weight_unit kg path Hwf) as Ha.
    destruct (decide (2 ≤ length path ∧ get_path_weights kg path ≠ [])) as [[H2 Hw]|Hn].
    - rewrite path_strength_unfold by done.
      destruct (length_penalty_bounds (length path - 1) (length path - 1))
        as [Hp Hp']; [lia|].
      split; [apply Rmult_le_pos; lra|].
      rewrite <-(Rmult_1_r (get_average_path_weight kg path)) at 2.
      apply Rmult_le_compat_l; lra.
    - replace (_calculate_path_strength kg path) with 0%R; [lra|].
      unfold _calculate_path_strength.
      destruct (Nat.ltb_spec (length path) 2); [done|].
      destruct (get_path_weights kg path) eqn:Hws; [done|].
      destruct Hn. by split. }
  split.
  - intros path. split; [apply Hb|]. apply (average_path_weight_unit kg path Hwf).
  - intros p1 p2 [H1 H12] Hw1 Havg.
    pose proof (average_path_weight_unit kg p2 Hwf) as Ha2.
    destruct (decide (get_path_weights kg p2 = [])) as [Hw2|Hw2].
    + replace (_calculate_path_strength kg p2) with 0%R; [apply Hb|].
      unfold _calculate_path_strength. rewrite Hw2. by destruct (_ <? _).
    + rewrite !path_strength_unfold by (done || lia).
      destruct (length_penalty_bounds (length p1 - 1) (length p2 - 1))
        as [Hp Hp']; [lia|].
      apply Rmult_le_compat; lra.
Qed.

(** X8, at the chain A, B, C with weights 1: the two hops are no stronger
    than the first hop alone. *)
Lemma path_strength_bounds_witness :
  let kg :=
    add_relationship (add_relationship kg_init "A" "B" 1 "r" None)
      "B" "C" 1 "r" None in
  (0 <= _calculate_path_strength kg ["A"; "B"; "C"]
     <= get_average_path_weight kg ["A"; "B"; "C"])%R.
Proof.
  intros kg.
  assert (reachable kg) as Hr
    by (do 2 apply reachable_add_relationship; apply reachable_init).
  exact (proj1 (proj1 (path_strength_bounds kg Hr) ["A"; "B"; "C"])).
Defined.

(** * Import of any record *)

Section import_facts.
Implicit Types (kg : KnowledgeGraph) (data : graph_record).

(** [from_dict] is a sequence of calls of the mutators on the empty graph:
    one [add_entity] per node record, then one [add_relationship] per edge
    record. *)
Lemma from_dict_mutations data :
  from_dict data
  = foldl mutate kg_init
      (((λ nd, AddEntity (node_id nd) (node_metadata nd))
          <$> default [] (rec_nodes data))
       ++ ((λ ed, AddRelationship (edge_source ed) (edge_target ed)
                    (default (5 / 10)%R (edge_weight ed))
                    (default "related_to" (edge_relationship_type ed))
                    (edge_metadata ed))
             <$> default [] (rec_edges data))).
Proof. unfold from_dict. by rewrite foldl_app, !foldl_fmap. Qed.

End import_facts.

(** X9.  [from_dict] on a well-formed record: every node entry has a string
    ['id'], every edge entry a string ['source'] and ['target'], and a
    weight, where one is given, is a number.  These are the records of the
    type [graph_record]; on a record that lacks one of these keys or gives
    a weight that is no number the program raises, which this statement
    leaves out.  A well-formed record need not come from an export, and
    whatever it says the graph [from_dict] returns is one the mutators
    build: its weights lie between 0 and 1, no pair has two relationships,
    and its entities are the ids of the node entries and the ends of the
    edge entries. *)
Theorem from_dict_well_formed_record (data : graph_record) :
  reachable (from_dict data)
  ∧ (∀ n, n ∈ get_entities (from_dict data) ↔
       n ∈ node_id <$> default [] (rec_nodes data)
       ∨ n ∈ edge_source <$> default [] (rec_edges data)
       ∨ n ∈ edge_target <$> default [] (rec_edges data))
  ∧ (∀ e, e ∈ get_relationships (from_dict data) → (0 <= nx.weight e.2 <= 1)%R)
  ∧ NoDup (get_relationships (from_dict data)).*1.
Proof.
  assert (reachable (from_dict data)) as Hr.
  { rewrite from_dict_mutations. apply run_reachable, reachable_init. }
  pose proof (reachable_wf _ Hr) as Hwf.
  split_and!.
  - done.
  - intros n. rewrite from_dict_mutations, run_nodes, bind_app, elem_of_app,
      !list_elem_of_bind, !list_elem_of_fmap.
    split.
    + intros [?%elem_of_nil|[(m & Hn & (nd & -> & Hnd)%list_elem_of_fmap)
                            |(m & Hn & (ed & -> & Hed)%list_elem_of_fmap)]];
        [done| |].
      * apply list_elem_of_singleton in Hn as ->. left. by exists nd.
      * simpl in Hn. apply elem_of_cons in Hn as [->|Hn].
        -- right; left. by exists ed.
        -- apply list_elem_of_singleton in Hn as ->. right; right. by exists ed.
    + intros [(nd & -> & Hnd)|[(ed & -> & Hed)|(ed & -> & Hed)]]; right.
      * left. eexists. split; [|by apply list_elem_of_fmap_2]. simpl. left.
      * right. eexists. split; [|by apply list_elem_of_fmap_2]. simpl. left.
      * right. eexists. split; [|by apply list_elem_of_fmap_2]. simpl.
        right. left.
  - intros e [He _]%elem_of_edges_view. by apply (wf_weight _ Hwf).
  - by apply relationships_keys_NoDup.
Qed.

(** * The cap on the length of paths *)

Section cap_facts.
Implicit Types (kg : KnowledgeGraph) (s t : string).

Lemma find_all_paths_never_raises kg s t max_length :
  ∃ l, find_all_paths kg s t max_length = Ok l.
Proof.
  unfold find_all_paths, contains.
  destruct (nx.has_node (graph kg) s) eqn:Hs; simpl; [|by eexists].
  destruct (nx.has_node (graph kg) t) eqn:Ht; simpl; [|by eexists].
  unfold nx.all_simple_paths. rewrite Hs, Ht. simpl.
  destruct (int_truthy max_length); simpl; destruct (_ <=? _)%Z; by eexists.
Qed.

Lemma find_all_paths_absent kg s t max_length :
  ¬ (s ∈ get_entities kg ∧ t ∈ get_entities kg) →
  find_all_paths kg s t max_length = Ok [].
Proof.
  intros Hn. unfold find_all_paths, contains.
  destruct (nx.has_node (graph kg) s) eqn:Hs; simpl; [|done].
  destruct (nx.has_node (graph kg) t) eqn:Ht; simpl; [|done].
  apply has_node_true in Hs, Ht. by destruct Hn.
Qed.

(** What [find_all_paths] lists, entities of the graph or not. *)
Lemma find_all_paths_listed kg s t max_length l p :
  wf kg → find_all_paths kg s t max_length = Ok l →
  p ∈ l ↔
    s ∈ get_entities kg ∧ t ∈ get_entities kg
    ∧ simple_path (graph kg) s t p
    ∧ match max_length with
      | Some c => c = 0%Z ∨ (Z.of_nat (length p) - 1 <= c)%Z
      | None => True
      end.
Proof.
  intros Hwf Hl.
  destruct (decide (s ∈ get_entities kg ∧ t ∈ get_entities kg)) as [[Hs Ht]|Hn].
  - destruct (find_all_paths_spec kg s t max_length Hwf Hs Ht) as (l' & Hl' & Hp).
    rewrite Hl in Hl'. injection Hl' as <-. rewrite Hp. tauto.
  - rewrite find_all_paths_absent in Hl by done. injection Hl as <-.
    split; [by intros ?%elem_of_nil|tauto].
Qed.

End cap_facts.

(** X10.  [find_all_paths] raises nothing, whatever it is asked; a negative
    [max_length] yields no path; and in a graph built through the mutators
    a path listed under a positive cap is listed under every larger cap and
    with no cap, while a cap of the number of entities less one, or more,
    lists what no cap lists. *)
Theorem find_all_paths_caps (kg : KnowledgeGraph) (source target : string) :
  (∀ max_length, ∃ l, find_all_paths kg source target max_length = Ok l)
  ∧ (∀ c, (c < 0)%Z → find_all_paths kg source target (Some c) = Ok [])
  ∧ (reachable kg →
     ∀ c c' l l' p,
       (0 < c <= c')%Z →
       find_all_paths kg source target (Some c) = Ok l →
       find_all_paths kg source target (Some c') = Ok l' →
       p ∈ l → p ∈ l')
  ∧ (reachable kg →
     ∀ c l l0 p,
       find_all_paths kg source target (Some c) = Ok l →
       find_all_paths kg source target None = Ok l0 →
       (p ∈ l → p ∈ l0)
       ∧ ((Z.of_nat (length (get_entities kg)) - 1 <= c)%Z → p ∈ l0 → p ∈ l)).
Proof.
  split_and!.
  - apply find_all_paths_never_raises.
  - intros c Hc. unfold find_all_paths, contains.
    destruct (nx.has_node (graph kg) source) eqn:Hs; simpl; [|done].
    destruct (nx.has_node (graph kg) target) eqn:Ht; simpl; [|done].
    destruct (Z.eqb_spec c 0) as [->|_]; [lia|]. simpl.
    unfold nx.all_simple_paths. rewrite Hs, Ht. simpl.
    by destruct (Z.leb_spec 0 c); [lia|].
  - intros Hwf%reachable_wf c c' l l' p Hc Hl Hl'.
    rewrite (find_all_paths_listed kg source target (Some c) l p Hwf Hl).
    rewrite (find_all_paths_listed kg source target (Some c') l' p Hwf Hl').
    intros (? & ? & ? & [?|?]); [lia|]. split_and!; [done|done|done|]. right. lia.
  - intros Hwf%reachable_wf c l l0 p Hl Hl0.
    rewrite (find_all_paths_listed kg source target (Some c) l p Hwf Hl).
    rewrite (find_all_paths_listed kg source target None l0 p Hwf Hl0).
    split; [tauto|]. intros Hc (Hs & Ht & Hsp & _). split_and!; [done|done|done|].
    right. destruct Hsp as (Hh & _ & Hnd & Hpath).
    assert (length p ≤ length (get_entities kg)); [|lia].
    apply submseteq_length, NoDup_submseteq; [done|].
    apply (is_path_nodes (graph kg) p source); try done.
    intros e He. by apply (wf_ends _ Hwf).
Qed.

(** X10, on the chain A, B, C: the path listed under the cap 2 is listed
    under the cap 5. *)
Lemma find_all_paths_caps_witness :
  let kg :=
    add_relationship (add_relationship kg_init "A" "B" 1 "r" None)
      "B" "C" 1 "r" None in
  find_all_paths kg "A" "C" (Some 2%Z) = Ok [["A"; "B"; "C"]]
  ∧ find_all_paths kg "A" "C" (Some 5%Z) = Ok [["A"; "B"; "C"]]
  ∧ ["A"; "B"; "C"] ∈ [["A"; "B"; "C"]].
Proof.
  intros kg.
  assert (reachable kg) as Hr
    by (do 2 apply reachable_add_relationship; apply reachable_init).
  assert (find_all_paths kg "A" "C" (Some 2%Z) = Ok [["A"; "B"; "C"]]) as H2
    by (by vm_compute).
  assert (find_all_paths kg "A" "C" (Some 5%Z) = Ok [["A"; "B"; "C"]]) as H5
    by (by vm_compute).
  split; [exact H2|]. split; [exact H5|].
  refine (proj1 (proj2 (proj2 (find_all_paths_caps kg "A" "C"))) Hr
            2%Z 5%Z [["A"; "B"; "C"]] [["A"; "B"; "C"]] ["A"; "B"; "C"]
            _ H2 H5 _); [lia|left].
Defined.

(** * Sorting by a real key *)

Section sort_real_facts.
Context {A : Type} (key : A → R).

Lemma Rltb_true x y : Rltb x y = true ↔ (x < y)%R.
Proof. unfold Rltb. destruct (Rlt_dec x y); split; (done || lra). Qed.

Lemma Rltb_false x y : Rltb x y = false ↔ (y <= x)%R.
Proof. unfold Rltb. destruct (Rlt_dec x y); split; (done || lra). Qed.

Lemma insert_desc_real_perm x l : insert_desc key Rltb x l ≡ₚ x :: l.
Proof.
  induction l as [|y l IH]; simpl; [done|].
  destruct (Rltb (key x) (key y)); [|done].
  by rewrite IH, Permutation_swap.
Qed.

Lemma sort_desc_real_perm l : sort_desc key Rltb l ≡ₚ l.
Proof.
  induction l as [|x l IH]; simpl; [done|].
  by rewrite insert_desc_real_perm, IH.
Qed.

Lemma insert_desc_real_sorted x l :
  StronglySorted (λ a b, key b <= key a)%R l →
  StronglySorted (λ a b, key b <= key a)%R (insert_desc key Rltb x l).
Proof.
  induction l as [|y l IH]; simpl; intros Hl.
  - by repeat constructor.
  - apply StronglySorted_cons in Hl as [Hy Hl].
    destruct (Rltb (key x) (key y)) eqn:Hxy.
    + apply Rltb_true in Hxy.
      apply StronglySorted_cons. split; [|auto].
      rewrite insert_desc_real_perm. constructor; [lra|done].
    + apply Rltb_false in Hxy.
      apply StronglySorted_cons. split; [|by apply StronglySorted_cons].
      constructor; [done|].
      eapply Forall_impl; [exact Hy|]. simpl. intros; lra.
Qed.

Lemma sort_desc_real_sorted l :
  StronglySorted (λ a b, key b <= key a)%R (sort_desc key Rltb l).
Proof.
  induction l as [|x l IH]; simpl; [constructor|].
  by apply insert_desc_real_sorted.
Qed.

(** A list that is in descending order already is left as it is: equal
    keys keep their order. *)
Lemma sort_desc_real_sorted_id l :
  StronglySorted (λ a b, key b <= key a)%R l → sort_desc key Rltb l = l.
Proof.
  induction l as [|x l IH]; [done|].
  intros [Hx Hl]%StronglySorted_cons. simpl. rewrite IH by done.
  destruct l as [|y l]; [done|]. simpl.
  apply Forall_cons in Hx as [Hxy _].
  by rewrite (proj2 (Rltb_false (key x) (key y))).
Qed.

End sort_real_facts.

Section slice_facts.
Context {A : Type}.
Implicit Types (l : list A) (n : Z).

(** The index a slice [l[:n]] stops at *)
Lemma slice_to_take l n :
  slice_to l n
  = take (if (0 <=? n)%Z then Z.to_nat n
          else Z.to_nat (Z.of_nat (length l) + n)) l.
Proof. unfold slice_to. by destruct (0 <=? n)%Z. Qed.

Lemma slice_to_rest l n : ∃ rest, slice_to l n ++ rest = l.
Proof. rewrite slice_to_take. eexists. apply take_drop. Qed.

Lemma slice_to_length l n :
  length (slice_to l n)
  = if (0 <=? n)%Z then Z.to_nat n `min` length l
    else Z.to_nat (Z.of_nat (length l) + n).
Proof.
  rewrite slice_to_take, length_take. destruct (0 <=? n)%Z eqn:Hn; [done|].
  apply Z.leb_gt in Hn. lia.
Qed.

End slice_facts.

Lemma StronglySorted_fmap_key {A B} (f : A → B) (keyA : A → R) (keyB : B → R)
    (l : list A) :
  (∀ a, keyB (f a) = keyA a) →
  StronglySorted (λ a b, keyA b <= keyA a)%R l →
  StronglySorted (λ a b, keyB b <= keyB a)%R (f <$> l).
Proof.
  intros Hkey. induction 1 as [|a l Hl IH Ha]; csimpl; constructor; [done|].
  apply Forall_fmap. eapply Forall_impl; [exact Ha|].
  simpl. intros b. by rewrite !Hkey.
Qed.

(** X11.  [find_strongest_connections] returns a front part of the
    connections of the entity, outgoing and incoming together, put in
    descending order of weight: what it leaves out weighs no more than what
    it returns.  For [n] of 0 or more it returns [n] records, or all when
    there are fewer; a negative [n] leaves out that many of the weakest. *)
Theorem find_strongest_connections_top (kg : KnowledgeGraph) (entity : string)
    (n : Z) :
  let relationships := get_entity_relationships kg entity in
  let connections := outgoing relationships ++ incoming relationships in
  (∃ rest,
     find_strongest_connections kg entity n ++ rest ≡ₚ connections
     ∧ StronglySorted (λ a b, b.1.2 <= a.1.2)%R
         (find_strongest_connections kg entity n ++ rest))
  ∧ length (find_strongest_connections kg entity n)
    = if (0 <=? n)%Z then Z.to_nat n `min` length connections
      else Z.to_nat (Z.of_nat (length connections) + n).
Proof.
  intros relationships connections.
  unfold find_strongest_connections.
  destruct (contains kg entity) eqn:Hc; simpl.
  - fold relationships.
    set (all_connections :=
           ((λ c, (c, "outgoing")) <$> outgoing relationships)
             ++ ((λ c, (c, "incoming")) <$> incoming relationships)).
    set (sorted := sort_desc _ Rltb all_connections).
    assert (fst <$> all_connections = connections) as Hfst.
    { unfold all_connections, connections.
      rewrite fmap_app, <-!list_fmap_compose. by rewrite !list_fmap_id. }
    assert (length sorted = length connections) as Hlen.
    { unfold sorted. rewrite sort_desc_real_perm. rewrite <-Hfst.
      rewrite length_fmap. reflexivity. }
    split.
    + destruct (slice_to_rest sorted n) as [rest Hrest].
      exists (fst <$> rest). rewrite <-fmap_app, Hrest. split.
      * unfold sorted. rewrite sort_desc_real_perm. by rewrite Hfst.
      * apply (StronglySorted_fmap_key fst
                 (λ conn : string * R * string * string, conn.1.1.2)
                 (λ c : string * R * string, c.1.2)); [done|].
        apply sort_desc_real_sorted.
    + by rewrite length_fmap, slice_to_length, Hlen.
  - assert (connections = []) as ->.
    { unfold connections, relationships, get_entity_relationships.
      by rewrite Hc. }
    split.
    + exists []. split; [done|constructor].
    + simpl. destruct (0 <=? n)%Z eqn:Hn; [lia|]. apply Z.leb_gt in Hn. lia.
Qed.

Section rank_facts.
Implicit Types (kg : KnowledgeGraph) (e : string).

Lemma influence_score_le_1 kg e : (get_entity_influence_score kg e <= 1)%R.
Proof.
  rewrite influence_score_formula.
  destruct (num_connections kg e); unfold influence; [lra|apply Rmin_l].
Qed.

Lemma influence_score_nonneg kg e :
  wf kg → (0 <= get_entity_influence_score kg e)%R.
Proof.
  intros Hwf. rewrite influence_score_formula. apply influence_nonneg.
  apply (mean_bounds (incident_weights kg e)). by apply incident_weights_bounds.
Qed.

End rank_facts.

(** X12.  [rank_entities_by_influence] returns a front part of the entities
    with their influence scores, put in descending order of score: an entity
    it leaves out scores no more than those it returns.  It returns [n]
    records for [n] of 0 or more, or all the entities when there are fewer;
    no score exceeds 1, and in a graph built through the mutators no score
    is negative and no entity comes twice. *)
Theorem rank_entities_by_influence_top (kg : KnowledgeGraph) (n : Z) :
  (∃ rest,
     rank_entities_by_influence kg n ++ rest
     ≡ₚ (λ entity, (entity, get_entity_influence_score kg entity))
          <$> get_entities kg
     ∧ StronglySorted (λ a b, b.2 <= a.2)%R
         (rank_entities_by_influence kg n ++ rest))
  ∧ length (rank_entities_by_influence kg n)
    = (if (0 <=? n)%Z then Z.to_nat n `min` length (get_entities kg)
       else Z.to_nat (Z.of_nat (length (get_entities kg)) + n))
  ∧ (∀ e s, (e, s) ∈ rank_entities_by_influence kg n →
       e ∈ get_entities kg ∧ s = get_entity_influence_score kg e ∧ (s <= 1)%R)
  ∧ (reachable kg →
     NoDup (rank_entities_by_influence kg n).*1
     ∧ ∀ e s, (e, s) ∈ rank_entities_by_influence kg n → (0 <= s)%R).
Proof.
  unfold rank_entities_by_influence.
  set (scores := (λ entity, (entity, get_entity_influence_score kg entity))
                   <$> get_entities kg).
  set (sorted := sort_desc snd Rltb scores).
  assert (sorted ≡ₚ scores) as Hperm by apply sort_desc_real_perm.
  destruct (slice_to_rest sorted n) as [rest Hrest].
  assert (∀ e s, (e, s) ∈ slice_to sorted n →
            e ∈ get_entities kg ∧ s = get_entity_influence_score kg e) as Hin.
  { intros e s He.
    assert ((e, s) ∈ scores) as Hs.
    { rewrite <-Hperm, <-Hrest. apply elem_of_app. by left. }
    apply list_elem_of_fmap in Hs as (e' & [= -> ->] & He'). done. }
  split_and!.
  - exists rest. rewrite Hrest. split; [done|]. apply sort_desc_real_sorted.
  - assert (length sorted = length (get_entities kg)) as Hlen.
    { rewrite Hperm. unfold scores. apply length_fmap. }
    by rewrite slice_to_length, Hlen.
  - intros e s [He ->]%Hin. split_and!; [done|done|]. apply influence_score_le_1.
  - intros Hwf%reachable_wf. split.
    + assert (NoDup sorted.*1) as Hnd.
      { rewrite Hperm. unfold scores. rewrite <-list_fmap_compose.
        rewrite list_fmap_id. apply Hwf. }
      rewrite <-Hrest, fmap_app in Hnd. by apply NoDup_app in Hnd as [? _].
    + intros e s [He ->]%Hin. by apply influence_score_nonneg.
Qed.

(** X12, at the graph with the edges A to B and A to C, asked for the first
    two. *)
Lemma rank_entities_by_influence_top_witness :
  let kg :=
    add_relationship (add_relationship kg_init "A" "B" 1 "r" None)
      "A" "C" 1 "r" None in
  NoDup (rank_entities_by_influence kg 2).*1
  ∧ length (rank_entities_by_influence kg 2) = 2.
Proof.
  intros kg.
  assert (reachable kg) as Hr
    by (do 2 apply reachable_add_relationship; apply reachable_init).
  destruct (rank_entities_by_influence_top kg 2) as (_ & Hlen & _ & Hnd).
  split; [exact (proj1 (Hnd Hr))|]. rewrite Hlen. by vm_compute.
Defined.

(** * The summary of the relationships *)

Section summary_facts.
Implicit Types (kg : KnowledgeGraph) (l ws : list R) (w a b : R).

Lemma Rleb_true x y : Rleb x y = true ↔ (x <= y)%R.
Proof. unfold Rleb. destruct (Rle_dec x y); split; (done || lra). Qed.

(** Every weight falls in one band, and in one only. *)
Lemma bands_partition l :
  (count_where (λ w, Rleb w (3 / 10)) l
   + count_where (λ w, Rltb (3 / 10) w && Rleb w (6 / 10)) l
   + count_where (λ w, Rltb (6 / 10) w && Rleb w (8 / 10)) l
   + count_where (λ w, Rltb (8 / 10) w) l)%nat
  = length l.
Proof.
  unfold count_where. induction l as [|w l IH]; [done|]. simpl.
  unfold Rleb, Rltb in *.
  repeat destruct (Rle_dec _ _); repeat destruct (Rlt_dec _ _);
    simpl; try lia; lra.
Qed.

Lemma foldl_Rmin_le w ws : (foldl Rmin w ws <= w)%R ∧ Forall (λ x, foldl Rmin w ws <= x)%R ws.
Proof.
  revert w. induction ws as [|x ws IH]; intros w; simpl; [split; [lra|constructor]|].
  destruct (IH (Rmin w x)) as [H1 H2].
  pose proof (Rmin_l w x). pose proof (Rmin_r w x).
  split; [lra|]. constructor; [lra|done].
Qed.

Lemma foldl_Rmax_ge w ws : (w <= foldl Rmax w ws)%R ∧ Forall (λ x, x <= foldl Rmax w ws)%R ws.
Proof.
  revert w. induction ws as [|x ws IH]; intros w; simpl; [split; [lra|constructor]|].
  destruct (IH (Rmax w x)) as [H1 H2].
  pose proof (Rmax_l w x). pose proof (Rmax_r w x).
  split; [lra|]. constructor; [lra|done].
Qed.

Lemma foldl_Rmin_elem w ws : foldl Rmin w ws ∈ w :: ws.
Proof.
  revert w. induction ws as [|x ws IH]; intros w; simpl; [left|].
  pose proof (IH (Rmin w x)) as Hin.
  apply elem_of_cons in Hin as [Heq|Hin]; [|by do 2 right].
  rewrite Heq. unfold Rmin. destruct (Rle_dec w x); [left|right; left].
Qed.

Lemma foldl_Rmax_elem w ws : foldl Rmax w ws ∈ w :: ws.
Proof.
  revert w. induction ws as [|x ws IH]; intros w; simpl; [left|].
  pose proof (IH (Rmax w x)) as Hin.
  apply elem_of_cons in Hin as [Heq|Hin]; [|by do 2 right].
  rewrite Heq. unfold Rmax. destruct (Rle_dec w x); [right; left|left].
Qed.

(** The mean of a non-empty list lies between bounds of its elements. *)
Lemma mean_between a b l :
  l ≠ [] → Forall (λ w, a <= w <= b)%R l →
  (a <= Rsum l / INR (length l) <= b)%R.
Proof.
  intros Hne Hl.
  assert (a * INR (length l) <= Rsum l <= b * INR (length l))%R as Hs.
  { clear Hne. induction Hl as [|w l Hw _ IH].
    - simpl. lra.
    - change (Rsum (w :: l)) with (w + Rsum l)%R.
      change (length (w :: l)) with (S (length l)). rewrite S_INR. lra. }
  assert (0 < INR (length l))%R as Hpos.
  { apply lt_0_INR. destruct l; [done|simpl; lia]. }
  split.
  - apply (Rmult_le_reg_r (INR (length l))); [done|].
    unfold Rdiv. rewrite Rmult_assoc, Rinv_l by lra. lra.
  - apply (Rmult_le_reg_r (INR (length l))); [done|].
    unfold Rdiv. rewrite Rmult_assoc, Rinv_l by lra. lra.
Qed.

Lemma count_types_lookup (tys : list string) (ty : string) :
  default 0 (count_types tys !! ty) = length (filter (λ x, x = ty) tys).
Proof.
  unfold count_types. induction tys as [|x tys IH] using rev_ind; [done|].
  rewrite foldl_snoc, filter_app, length_app.
  destruct (decide (x = ty)) as [->|Hne].
  - rewrite lookup_insert_eq. simpl. rewrite IH.
    rewrite filter_cons_True by done. simpl. lia.
  - rewrite lookup_insert_ne, IH by done.
    rewrite filter_cons_False by done. simpl. lia.
Qed.

Lemma type_filter_length (es : list nx.edge) (ty : string) :
  length (filter (λ x, x = ty)
            ((λ e : nx.edge, nx.relationship_type e.2) <$> es))
  = length (filter (λ e : nx.edge, nx.relationship_type e.2 = ty) es).
Proof.
  induction es as [|e es IH]; [done|].
  csimpl. rewrite !filter_cons.
  destruct (decide (nx.relationship_type e.2 = ty)); simpl; by rewrite IH.
Qed.

End summary_facts.

(** X13.  The summary of the relationships counts every relationship in one
    of its four weight bands, so the bands add up to the total; the least
    and the greatest weight are weights of relationships, and every weight
    lies between them; each type is counted as often as it occurs; and a
    graph without relationships gets the total 0, the average 0 and empty
    tables.  In a graph built through the mutators the average lies between
    0 and 1. *)
Theorem relationship_summary_consistent (kg : KnowledgeGraph) :
  let s := get_relationship_summary kg in
  total_relationships s = length (get_relationships kg)
  ∧ sum_list (weight_distribution s).*2 = total_relationships s
  ∧ (∀ ty, default 0 (relationship_types s !! ty)
           = length (filter (λ e : nx.edge, nx.relationship_type e.2 = ty)
                       (get_relationships kg)))
  ∧ (get_relationships kg = [] →
       s = MkSummary 0 0 None None [] ∅)
  ∧ (get_relationships kg ≠ [] →
       ∃ lo hi, min_weight s = Some lo ∧ max_weight s = Some hi
         ∧ (∃ e, e ∈ get_relationships kg ∧ nx.weight e.2 = lo)
         ∧ (∃ e, e ∈ get_relationships kg ∧ nx.weight e.2 = hi)
         ∧ ∀ e, e ∈ get_relationships kg → (lo <= nx.weight e.2 <= hi)%R)
  ∧ (reachable kg → (0 <= average_weight s <= 1)%R).
Proof.
  intros s. subst s. unfold get_relationship_summary.
  destruct (get_relationships kg) as [|r rs] eqn:Hrel.
  - simpl. split_and!; try done; intros _; lra.
  - cbn [total_relationships average_weight min_weight max_weight
         weight_distribution relationship_types].
    set (w0 := nx.weight r.2).
    set (ws := (λ e : nx.edge, nx.weight e.2) <$> rs).
    assert (w0 :: ws = (λ e : nx.edge, nx.weight e.2) <$> (r :: rs)) as Hws by done.
    destruct (foldl_Rmin_le w0 ws) as [Hmin0 Hmin].
    destruct (foldl_Rmax_ge w0 ws) as [Hmax0 Hmax].
    assert (Forall (λ w, foldl Rmin w0 ws <= w <= foldl Rmax w0 ws)%R (w0 :: ws))
      as Hall.
    { constructor; [lra|]. apply Forall_forall. intros x Hx.
      rewrite Forall_forall in Hmin, Hmax. split; auto. }
    split; [done|]. split; [|split; [|split; [done|split]]].
    4:{ intros Hwf%reachable_wf.
        apply (mean_between 0 1 (w0 :: ws)); [done|].
        rewrite Hws, Forall_fmap, Forall_forall. intros e He.
        assert (e ∈ get_relationships kg) as [He' _]%elem_of_edges_view
          by (by rewrite Hrel).
        by apply (wf_weight _ Hwf). }
    + csimpl. pose proof (bands_partition (w0 :: ws)) as Hb.
      change (length (w0 :: ws)) with (S (length ws)) in Hb.
      unfold ws in Hb at 5. rewrite length_fmap in Hb. simpl. lia.
    + intros ty. rewrite count_types_lookup. apply type_filter_length.
    + intros _. exists (foldl Rmin w0 ws), (foldl Rmax w0 ws).
      split; [done|]. split; [done|]. split_and!.
      * pose proof (foldl_Rmin_elem w0 ws) as Hin. rewrite Hws in Hin.
        apply list_elem_of_fmap in Hin as (e & He & Hin). eauto.
      * pose proof (foldl_Rmax_elem w0 ws) as Hin. rewrite Hws in Hin.
        apply list_elem_of_fmap in Hin as (e & He & Hin). eauto.
      * intros e He. rewrite Hws in Hall. rewrite Forall_fmap, Forall_forall in Hall.
        by apply Hall.
Qed.

(** X13, at the graph with the one edge A to B. *)
Lemma relationship_summary_consistent_witness :
  let kg := add_relationship kg_init "A" "B" 1 "r" None in
  (0 <= average_weight (get_relationship_summary kg) <= 1)%R.
Proof.
  intros kg.
  assert (reachable kg) as Hr by apply reachable_add_relationship, reachable_init.
  exact (proj2 (proj2 (proj2 (proj2 (proj2
           (relationship_summary_consistent kg))))) Hr).
Defined.

(** * Paths between two entities *)

Lemma elem_of_slice_to {A} (l : list A) (n : Z) (x : A) :
  x ∈ slice_to l n → x ∈ l.
Proof.
  intros Hx. destruct (slice_to_rest l n) as [rest Hrest].
  rewrite <- Hrest. apply elem_of_app. by left.
Qed.

Lemma simple_path_nonempty G s t p : simple_path G s t p → 1 ≤ length p.
Proof.
  intros [Hh _]. destruct p; [done | simpl; lia].
Qed.

Lemma simple_path_distinct G s t p :
  simple_path G s t p → s ≠ t → 2 ≤ length p.
Proof.
  intros (Hh & Hl & _) Hne. destruct p as [|a [|b p]]; simpl in *; try done.
  - congruence.
  - lia.
Qed.

(** X14: [find_connection_paths] never raises.  It takes the first
    [max_paths] paths that [find_all_paths] lists under the cap [max_length],
    and returns one record for each of them, in descending order of
    strength.  A record holds the path, its number of relationships, its
    weights and their average, and as strength the average divided by the
    number of entities of the path.  For [max_paths >= 0] there are
    [min(max_paths, number of paths)] records.  In a graph built through the
    mutators every record is a simple path from [entity1] to [entity2] with
    one weight per relationship, and
    [0 <= strength <= average_weight <= 1]; for two different entities the
    strength is at most a half. *)
Theorem find_connection_paths_spec (kg : KnowledgeGraph)
    (entity1 entity2 : string) (max_paths max_length : Z) :
  ∃ paths infos,
    find_all_paths kg entity1 entity2 (Some max_length) = Ok paths
    ∧ find_connection_paths kg entity1 entity2 max_paths max_length = Ok infos
    ∧ connection.path <$> infos ≡ₚ slice_to paths max_paths
    ∧ StronglySorted
        (λ a b, (connection.strength b <= connection.strength a)%R) infos
    ∧ (∀ i, i ∈ infos →
         connection.length i = (Z.of_nat (length (connection.path i)) - 1)%Z
         ∧ connection.weights i = get_path_weights kg (connection.path i)
         ∧ connection.average_weight i
           = get_average_path_weight kg (connection.path i)
         ∧ (connection.path i ≠ [] →
            connection.strength i
            = (connection.average_weight i
               / INR (length (connection.path i)))%R))
    ∧ ((0 ≤ max_paths)%Z →
       length infos = Z.to_nat max_paths `min` length paths)
    ∧ (reachable kg → ∀ i, i ∈ infos →
         simple_path (graph kg) entity1 entity2 (connection.path i)
         ∧ Z.of_nat (length (connection.weights i)) = connection.length i
         ∧ (0 <= connection.strength i <= connection.average_weight i)%R
         ∧ (connection.average_weight i <= 1)%R
         ∧ (entity1 ≠ entity2 → (connection.strength i <= 1 / 2)%R)).
Proof.
  destruct (find_all_paths_never_raises kg entity1 entity2 (Some max_length))
    as [paths Hp].
  unfold find_connection_paths. rewrite Hp. cbn [mbind result_bind].
  set (f := λ path : list string, connection.MkPathInfo path _ _ _ _).
  eexists paths, _. split; [done|]. split; [done|].
  assert (Hperm : sort_desc connection.strength Rltb (f <$> slice_to paths max_paths)
                  ≡ₚ f <$> slice_to paths max_paths)
    by apply sort_desc_real_perm.
  assert (Hin : ∀ i, i ∈ sort_desc connection.strength Rltb
                       (f <$> slice_to paths max_paths) →
                ∃ p, i = f p ∧ p ∈ paths).
  { intros i Hi. rewrite Hperm in Hi. apply list_elem_of_fmap in Hi as (p & -> & Hpin).
    exists p. split; [done|]. by eapply elem_of_slice_to. }
  split_and!.
  - rewrite Hperm, <- list_fmap_compose. by rewrite list_fmap_id.
  - apply sort_desc_real_sorted.
  - intros i Hi. destruct (Hin i Hi) as (p & -> & _). cbn.
    split_and!; try done.
    intros Hne. destruct p; [done|]. done.
  - intros Hmp. rewrite (Permutation_length Hperm), length_fmap, slice_to_length.
    by rewrite (proj2 (Z.leb_le 0 max_paths) Hmp).
  - intros Hr i Hi. destruct (Hin i Hi) as (p & -> & Hpin).
    pose proof (reachable_wf kg Hr) as Hwf.
    apply (find_all_paths_listed kg _ _ _ _ p Hwf Hp) in Hpin
      as (_ & _ & Hsp & _).
    pose proof (simple_path_nonempty _ _ _ _ Hsp) as Hlen.
    pose proof (average_path_weight_unit kg p Hwf) as Havg.
    unfold f.
    cbn [connection.path connection.length connection.weights
         connection.average_weight connection.strength].
    split; [done|]. split.
    { rewrite path_weights_length by apply Hsp. lia. }
    assert (Hlt : (0 <? length p)%nat = true) by (apply Nat.ltb_lt; lia).
    rewrite Hlt.
    assert (HR : (1 <= INR (length p))%R) by (apply (le_INR 1); lia).
    assert (Hdiv : ∀ a n : R, (0 <= a)%R → (1 <= n)%R →
               (0 <= a / n <= a)%R ∧ ((2 <= n)%R → (a / n <= a / 2)%R)).
    { intros a n Ha Hn. split; [split|].
      - apply Rmult_le_pos; [done|]. left. apply Rinv_0_lt_compat. lra.
      - apply (Rmult_le_reg_r n); [lra|]. unfold Rdiv.
        rewrite Rmult_assoc, Rinv_l by lra. nra.
      - intros H2. unfold Rdiv. apply Rmult_le_compat_l; [done|].
        apply Rinv_le_contravar; lra. }
    destruct (Hdiv (get_average_path_weight kg p) (INR (length p))) as [Hb H2];
      [lra | done |].
    split; [done|]. split; [lra|].
    intros Hne. pose proof (simple_path_distinct _ _ _ _ Hsp Hne) as Hl2.
    assert ((2 <= INR (length p))%R) by (apply (le_INR 2); lia).
    specialize (H2 ltac:(done)). lra.
Qed.

Lemma path_strength_le_average (kg : KnowledgeGraph) (path : list string) :
  wf kg →
  (0 <= _calculate_path_strength kg path <= get_average_path_weight kg path)%R.
Proof.
  intros Hwf. pose proof (average_path_weight_unit kg path Hwf) as Ha.
  destruct (decide (2 ≤ length path ∧ get_path_weights kg path ≠ []))
    as [[H2 Hw]|Hn].
  - rewrite path_strength_unfold by done.
    destruct (length_penalty_bounds (length path - 1) (length path - 1))
      as [Hp Hp']; [lia|].
    split; [apply Rmult_le_pos; lra|].
    rewrite <-(Rmult_1_r (get_average_path_weight kg path)) at 2.
    apply Rmult_le_compat_l; lra.
  - replace (_calculate_path_strength kg path) with 0%R; [lra|].
    unfold _calculate_path_strength.
    destruct (Nat.ltb_spec (length path) 2); [done|].
    destruct (get_path_weights kg path) eqn:Hws; [done|].
    destruct Hn. by split.
Qed.

Lemma find_all_paths_self (kg : KnowledgeGraph) (e : string) (max_length : Z) :
  e ∈ get_entities kg → (0 ≤ max_length)%Z →
  find_all_paths kg e e (Some max_length) = Ok [[e]].
Proof.
  intros He Hm. unfold find_all_paths, contains.
  rewrite (proj2 (has_node_true _ _) He). cbn [negb orb].
  assert (Hall : ∀ c, (0 ≤ default (Z.of_nat (length (nx.nodes (graph kg))) - 1) c)%Z →
            nx.all_simple_paths (graph kg) e e c = Ok [[e]]).
  { intros c Hc. unfold nx.all_simple_paths.
    rewrite (proj2 (has_node_true _ _) He). cbn [negb].
    rewrite (proj2 (Z.leb_le _ _) Hc).
    f_equal. destruct (Z.to_nat _); cbn [nx.simple_paths_visit].
    - rewrite bool_decide_eq_true_2 by done. done.
    - rewrite bool_decide_eq_true_2 by done.
      rewrite (bool_decide_eq_false_2 (_ ∧ e ≠ e)) by (by intros [_ ?]). done. }
  destruct (int_truthy (Some max_length)).
  - by rewrite Hall.
  - rewrite Hall; [done|]. cbn.
    unfold get_entities in He. destruct (nx.nodes (graph kg)); [by apply elem_of_nil in He|].
    simpl. lia.
Qed.

(** X15: [find_all_connecting_paths] never raises.  It returns one record
    for every path [find_all_paths] lists from [entity1] to [entity2] and
    for every path it lists from [entity2] to [entity1], in descending order
    of strength score; a record holds the path, its number of relationships,
    its weights, their average and the strength of the path.  Swapping the
    two entities gives the same paths.  For one and the same entity the
    path that consists of this entity is reported twice.  In a graph built
    through the mutators every record is a simple path between the two
    entities, in one direction or the other, within the cap, with one weight
    per relationship and [0 <= strength_score <= average_weight <= 1]. *)
Theorem find_all_connecting_paths_spec (kg : KnowledgeGraph)
    (entity1 entity2 : string) (max_length : Z) :
  ∃ paths_1_to_2 paths_2_to_1 infos,
    find_all_paths kg entity1 entity2 (Some max_length) = Ok paths_1_to_2
    ∧ find_all_paths kg entity2 entity1 (Some max_length) = Ok paths_2_to_1
    ∧ find_all_connecting_paths kg entity1 entity2 max_length = Ok infos
    ∧ connecting.path <$> infos ≡ₚ paths_1_to_2 ++ paths_2_to_1
    ∧ StronglySorted
        (λ a b, (connecting.strength_score b <= connecting.strength_score a)%R)
        infos
    ∧ (∀ i, i ∈ infos →
         connecting.length i = (Z.of_nat (length (connecting.path i)) - 1)%Z
         ∧ connecting.weights i = get_path_weights kg (connecting.path i)
         ∧ connecting.average_weight i
           = get_average_path_weight kg (connecting.path i)
         ∧ connecting.strength_score i
           = _calculate_path_strength kg (connecting.path i))
    ∧ (∃ infos',
         find_all_connecting_paths kg entity2 entity1 max_length = Ok infos'
         ∧ connecting.path <$> infos' ≡ₚ connecting.path <$> infos)
    ∧ (entity1 = entity2 → entity1 ∈ get_entities kg → (0 ≤ max_length)%Z →
       connecting.path <$> infos = [[entity1]; [entity1]])
    ∧ (reachable kg → ∀ i, i ∈ infos →
         (simple_path (graph kg) entity1 entity2 (connecting.path i)
          ∨ simple_path (graph kg) entity2 entity1 (connecting.path i))
         ∧ (max_length = 0%Z ∨ (connecting.length i ≤ max_length)%Z)
         ∧ Z.of_nat (length (connecting.weights i)) = connecting.length i
         ∧ (0 <= connecting.strength_score i <= connecting.average_weight i)%R
         ∧ (connecting.average_weight i <= 1)%R).
Proof.
  destruct (find_all_paths_never_raises kg entity1 entity2 (Some max_length))
    as [p12 H12].
  destruct (find_all_paths_never_raises kg entity2 entity1 (Some max_length))
    as [p21 H21].
  unfold find_all_connecting_paths. rewrite H12, H21. cbn [mbind result_bind].
  set (info := λ (direction : string) (path : list string),
                 connecting.MkConnectingInfo path direction
                   (Z.of_nat (length path) - 1) (get_path_weights kg path)
                   (mean_or_zero (get_path_weights kg path))
                   (_calculate_path_strength kg path)).
  assert (Hpath : ∀ d (l : list (list string)),
            connecting.path <$> (info d <$> l) = l).
  { intros d l. rewrite <- list_fmap_compose. apply list_fmap_id. }
  set (d12 := entity1 +:+ " → " +:+ entity2).
  set (d21 := entity2 +:+ " → " +:+ entity1).
  change (λ path : list string, connecting.MkConnectingInfo path d12 _ _ _ _)
    with (info d12).
  change (λ path : list string, connecting.MkConnectingInfo path d21 _ _ _ _)
    with (info d21).
  assert (Hperm : ∀ l, sort_desc connecting.strength_score Rltb l ≡ₚ l)
    by (intros l; apply sort_desc_real_perm).
  assert (Hin : ∀ i, i ∈ sort_desc connecting.strength_score Rltb
                       ((info d12 <$> p12) ++ (info d21 <$> p21)) →
                ∃ d p, i = info d p ∧ (p ∈ p12 ∨ p ∈ p21)).
  { intros i Hi. rewrite Hperm in Hi.
    apply elem_of_app in Hi as [Hi|Hi];
      apply list_elem_of_fmap in Hi as (p & -> & Hpin); eauto. }
  eexists p12, p21, _. split; [done|]. split; [done|]. split; [done|].
  split_and!.
  - by rewrite Hperm, fmap_app, !Hpath.
  - apply sort_desc_real_sorted.
  - intros i Hi. destruct (Hin i Hi) as (d & p & -> & _). done.
  - eexists. split; [reflexivity|].
    rewrite !Hperm, !fmap_app, !Hpath. apply Permutation_app_comm.
  - intros <- He Hm. rewrite (find_all_paths_self kg entity1 max_length He Hm) in H12, H21.
    injection H12 as <-. injection H21 as <-.
    assert (Hpm : connecting.path <$>
                    sort_desc connecting.strength_score Rltb
                      ((info d12 <$> [[entity1]]) ++ (info d21 <$> [[entity1]]))
                  ≡ₚ [[entity1]; [entity1]])
      by (by rewrite Hperm, fmap_app, !Hpath).
    revert Hpm. generalize (connecting.path <$>
                    sort_desc connecting.strength_score Rltb
                      ((info d12 <$> [[entity1]]) ++ (info d21 <$> [[entity1]]))).
    intros l Hl. pose proof (Permutation_length Hl) as Hlen.
    destruct l as [|a [|b [|c l]]]; try done.
    assert (a ∈ [[entity1]; [entity1]]) as Ha
      by (rewrite <- Hl; apply elem_of_cons; by left).
    assert (b ∈ [[entity1]; [entity1]]) as Hb
      by (rewrite <- Hl; apply elem_of_cons; right; apply elem_of_cons; by left).
    rewrite !elem_of_cons, elem_of_nil in Ha, Hb.
    by destruct Ha as [->|[->|[]]], Hb as [->|[->|[]]].
  - intros Hr i Hi. destruct (Hin i Hi) as (d & p & -> & Hp).
    pose proof (reachable_wf kg Hr) as Hwf.
    assert (Hsp : (simple_path (graph kg) entity1 entity2 p
                   ∨ simple_path (graph kg) entity2 entity1 p)
                  ∧ (max_length = 0%Z ∨ (Z.of_nat (length p) - 1 ≤ max_length)%Z)).
    { destruct Hp as [Hp|Hp].
      - apply (find_all_paths_listed kg _ _ _ _ p Hwf H12) in Hp
          as (_ & _ & Hsp & Hc). split; [by left|done].
      - apply (find_all_paths_listed kg _ _ _ _ p Hwf H21) in Hp
          as (_ & _ & Hsp & Hc). split; [by right|done]. }
    destruct Hsp as [Hsp Hc].
    unfold info.
    cbn [connecting.path connecting.length connecting.weights
         connecting.average_weight connecting.strength_score].
    split; [done|]. split; [done|]. split.
    { assert (is_path (graph kg) p) as Hip by (destruct Hsp as [H|H]; apply H).
      assert (1 ≤ length p)
        by (destruct Hsp as [H|H]; by eapply simple_path_nonempty).
      rewrite path_weights_length by done. lia. }
    split; [apply (path_strength_le_average kg p Hwf)|].
    apply (average_path_weight_unit kg p Hwf).
Qed.

Lemma multi_hop_loop (kg : KnowledgeGraph) (source target : string)
    (hops : list Z) (acc : list (Z * list multi_hop.hop_info)) :
  foldM (λ paths_by_length hop_count,
           paths ← find_all_paths kg source target (Some hop_count);
           let exact_length_paths :=
             filter (λ p, (Z.of_nat (length p) - 1)%Z = hop_count) paths in
           match exact_length_paths with
           | [] => Ok paths_by_length
           | _ :: _ =>
               let path_infos :=
                 (λ path,
                    let weights := get_path_weights kg path in
                    multi_hop.MkHopInfo path weights (mean_or_zero weights)
                      (min_or_zero weights) (max_or_zero weights))
                   <$> exact_length_paths in
               Ok (paths_by_length
                     ++ [(hop_count,
                          sort_desc multi_hop.average_weight Rltb path_infos)])
           end) hops acc
  = Ok (acc ++
        omap (λ h,
                match exact_length_paths kg source target h with
                | [] => None
                | _ :: _ =>
                    Some (h, sort_desc multi_hop.average_weight Rltb
                               (hop_record kg
                                  <$> exact_length_paths kg source target h))
                end) hops).
Proof.
  revert acc. induction hops as [|h hops IH]; intros acc.
  - cbn. by rewrite app_nil_r.
  - cbn [foldM omap list_omap]. unfold exact_length_paths at 1 2.
    destruct (find_all_paths_never_raises kg source target (Some h))
      as [paths Hp].
    rewrite Hp. cbn [mbind result_bind].
    destruct (filter _ paths) as [|p ps] eqn:Hf.
    + cbn [mbind result_bind]. apply IH.
    + cbn [mbind result_bind]. rewrite IH. by rewrite <- app_assoc.
Qed.

Lemma elem_of_exact_length_paths (kg : KnowledgeGraph) (source target : string)
    (h : Z) (p : list string) :
  wf kg →
  p ∈ exact_length_paths kg source target h
  ↔ source ∈ get_entities kg ∧ target ∈ get_entities kg
    ∧ simple_path (graph kg) source target p
    ∧ (Z.of_nat (length p) - 1)%Z = h.
Proof.
  intros Hwf. unfold exact_length_paths.
  destruct (find_all_paths_never_raises kg source target (Some h))
    as [paths Hp].
  rewrite Hp, list_elem_of_filter.
  rewrite (find_all_paths_listed kg _ _ _ _ p Hwf Hp).
  split; [by intros (? & ? & ? & ? & _)|].
  intros (? & ? & ? & ?). split; [done|]. split_and!; try done. right. lia.
Qed.

Lemma extremes_bound (w : R) (ws : list R) :
  Forall (λ x, foldl Rmin w ws <= x <= foldl Rmax w ws)%R (w :: ws).
Proof.
  destruct (foldl_Rmin_le w ws) as [Hw Hws].
  destruct (foldl_Rmax_ge w ws) as [Hw' Hws'].
  constructor; [done|].
  apply Forall_forall. intros x Hx.
  rewrite Forall_forall in Hws, Hws'. split; auto.
Qed.

(** X16: [find_multi_hop_paths] never raises.  Its keys are hop counts of
    [range(min_hops, max_hops + 1)], in increasing order, each with a
    non-empty list of records in descending order of average weight; every
    record of the key [h] is for a path of exactly [h] relationships, with
    the path's weights, their average, and their least and greatest, between
    which every weight of the path lies.  In a graph built through the
    mutators the records of the key [h] are for exactly the simple paths
    from [source] to [target] with [h] relationships, a hop count of the
    range is a key as soon as there is such a path, every record holds [h]
    weights, and [0 <= min_weight] and [max_weight <= 1]. *)
Theorem find_multi_hop_paths_spec (kg : KnowledgeGraph) (source target : string)
    (min_hops max_hops : Z) :
  ∃ d,
    find_multi_hop_paths kg source target min_hops max_hops = Ok d
    ∧ d.*1 `sublist_of` py_range min_hops (max_hops + 1)
    ∧ (∀ h infos, (h, infos) ∈ d →
         (min_hops ≤ h ≤ max_hops)%Z
         ∧ infos ≠ []
         ∧ StronglySorted
             (λ a b, (multi_hop.average_weight b <= multi_hop.average_weight a)%R)
             infos
         ∧ ∀ i, i ∈ infos →
             (Z.of_nat (length (multi_hop.path i)) - 1)%Z = h
             ∧ multi_hop.weights i = get_path_weights kg (multi_hop.path i)
             ∧ multi_hop.average_weight i
               = get_average_path_weight kg (multi_hop.path i)
             ∧ Forall (λ w, multi_hop.min_weight i <= w <= multi_hop.max_weight i)%R
                 (multi_hop.weights i))
    ∧ (reachable kg →
       (∀ h infos, (h, infos) ∈ d →
          (∀ p, p ∈ multi_hop.path <$> infos
                ↔ source ∈ get_entities kg ∧ target ∈ get_entities kg
                  ∧ simple_path (graph kg) source target p
                  ∧ (Z.of_nat (length p) - 1)%Z = h)
          ∧ ∀ i, i ∈ infos →
              Z.of_nat (length (multi_hop.weights i)) = h
              ∧ (0 <= multi_hop.min_weight i)%R
              ∧ (multi_hop.max_weight i <= 1)%R)
       ∧ (∀ h p, (min_hops ≤ h ≤ max_hops)%Z →
            source ∈ get_entities kg → target ∈ get_entities kg →
            simple_path (graph kg) source target p →
            (Z.of_nat (length p) - 1)%Z = h →
            h ∈ d.*1)).
Proof.
  unfold find_multi_hop_paths. rewrite multi_hop_loop. cbn [app].
  set (entry := λ h : Z, match exact_length_paths kg source target h with
                         | [] => None
                         | _ :: _ => _
                         end).
  eexists. split; [done|].
  assert (Hent : ∀ h infos, (h, infos) ∈ omap entry (py_range min_hops (max_hops + 1)) →
            (min_hops ≤ h ≤ max_hops)%Z
            ∧ exact_length_paths kg source target h ≠ []
            ∧ infos = sort_desc multi_hop.average_weight Rltb
                        (hop_record kg <$> exact_length_paths kg source target h)).
  { intros h infos Hin. apply list_elem_of_omap in Hin as (h' & Hh' & He).
    unfold py_range in Hh'. apply elem_of_seqZ in Hh'.
    unfold entry in He.
    destruct (exact_length_paths kg source target h') eqn:Hex; [done|].
    injection He as <- <-. split; [lia|]. by rewrite Hex. }
  assert (Hrec : ∀ h infos i, (h, infos) ∈ omap entry (py_range min_hops (max_hops + 1)) →
            i ∈ infos →
            ∃ p, i = hop_record kg p ∧ p ∈ exact_length_paths kg source target h).
  { intros h infos i Hin Hi. destruct (Hent h infos Hin) as (_ & _ & ->).
    rewrite sort_desc_real_perm in Hi.
    apply list_elem_of_fmap in Hi as (p & -> & Hp). eauto. }
  split_and!.
  - assert (Hkeys : (omap entry (py_range min_hops (max_hops + 1))).*1
                    = filter (λ h, is_Some (entry h)) (py_range min_hops (max_hops + 1))).
    { generalize (py_range min_hops (max_hops + 1)). intros l.
      induction l as [|h l IH]; [done|].
      cbn [omap list_omap]. rewrite filter_cons.
      assert (∀ y, entry h = Some y → y.1 = h) as Hk.
      { intros y. unfold entry.
        destruct (exact_length_paths kg source target h); [done|].
        by intros [= <-]. }
      destruct (entry h) as [y|] eqn:He.
      - rewrite decide_True by eauto. cbn. rewrite IH. f_equal. by apply Hk.
      - rewrite decide_False by (by intros [? ?]). done. }
    rewrite Hkeys. apply sublist_filter.
  - intros h infos Hin. destruct (Hent h infos Hin) as (Hr & Hne & Hs).
    split; [done|]. split.
    { rewrite Hs. intros Hnil.
      assert (length (exact_length_paths kg source target h) = 0) as Hl.
      { rewrite <- (length_fmap (hop_record kg)),
          <- (Permutation_length (sort_desc_real_perm multi_hop.average_weight _)).
        by rewrite Hnil. }
      by destruct (exact_length_paths kg source target h). }
    split; [rewrite Hs; apply sort_desc_real_sorted|].
    intros i Hi. destruct (Hrec h infos i Hin Hi) as (p & -> & Hp).
    unfold hop_record.
    cbn [multi_hop.path multi_hop.weights multi_hop.average_weight
         multi_hop.min_weight multi_hop.max_weight].
    split.
    { unfold exact_length_paths in Hp.
      destruct (find_all_paths kg source target (Some h));
        [|by apply elem_of_nil in Hp].
      by apply list_elem_of_filter in Hp as [? _]. }
    split; [done|]. split; [done|].
    destruct (get_path_weights kg p) as [|w ws]; [constructor|].
    apply extremes_bound.
  - intros Hr. pose proof (reachable_wf kg Hr) as Hwf. split.
    + intros h infos Hin. split.
      * intros p. rewrite <- (elem_of_exact_length_paths kg source target h p Hwf).
        destruct (Hent h infos Hin) as (_ & _ & ->).
        rewrite sort_desc_real_perm, <- list_fmap_compose.
        by rewrite list_fmap_id.
      * intros i Hi. destruct (Hrec h infos i Hin Hi) as (p & -> & Hp).
        apply (elem_of_exact_length_paths kg source target h p Hwf) in Hp
          as (_ & _ & Hsp & Hlen).
        unfold hop_record.
        cbn [multi_hop.path multi_hop.weights multi_hop.average_weight
             multi_hop.min_weight multi_hop.max_weight].
        pose proof (simple_path_nonempty _ _ _ _ Hsp).
        split; [rewrite path_weights_length by apply Hsp; lia|].
        pose proof (path_weights_unit kg p Hwf) as Hu.
        destruct (get_path_weights kg p) as [|w ws]; [cbn; lra|].
        rewrite Forall_forall in Hu. cbn [min_or_zero max_or_zero].
        split; [apply (Hu _ (foldl_Rmin_elem w ws))
               |apply (Hu _ (foldl_Rmax_elem w ws))].
    + intros h p Hh Hs Ht Hsp Hlen.
      assert (p ∈ exact_length_paths kg source target h) as Hp
        by (by apply elem_of_exact_length_paths).
      apply list_elem_of_fmap.
      destruct (entry h) as [y|] eqn:He.
      * exists y. split.
        { unfold entry in He.
          destruct (exact_length_paths kg source target h); [done|].
          by injection He as <-. }
        apply list_elem_of_omap. exists h. split; [|done].
        unfold py_range. apply elem_of_seqZ. lia.
      * unfold entry in He.
        destruct (exact_length_paths kg source target h);
          [by apply elem_of_nil in Hp|done].
Qed.

(** * Common neighbours *)

Lemma get_neighbors_absent (kg : KnowledgeGraph) (e : string) (order : Z) :
  e ∉ get_entities kg → get_neighbors kg e order = Ok ∅.
Proof.
  intros He. unfold get_neighbors, contains.
  by rewrite (proj2 (has_node_false _ _) He).
Qed.

Lemma get_neighbors_linked (kg : KnowledgeGraph) (e x : string) (S : gset string) :
  wf kg → e ∈ get_entities kg → get_neighbors kg e 1 = Ok S →
  x ∈ S ↔ nx.has_edge (graph kg) e x = true ∨ nx.has_edge (graph kg) x e = true.
Proof.
  intros Hwf He HS. rewrite get_neighbors_present in HS by done.
  change (1 =? 1)%Z with true in HS. cbv iota in HS. injection HS as <-.
  by rewrite elem_of_adj, !undirected_edge.
Qed.

(** X17: in a graph built through the mutators [find_common_neighbors]
    never raises and does not depend on the order of the two entities.  Every
    common neighbour is an entity connected to both.  There is none when one
    of the two is not an entity.  At order 1 the common neighbours are the
    entities that have a relationship, in either direction, with the one and
    with the other; from order 2 on neither of the two entities is among
    them; and an entity shares all its neighbours with itself. *)
Theorem find_common_neighbors_spec (kg : KnowledgeGraph)
    (entity1 entity2 : string) (order : Z) :
  reachable kg →
  ∃ S,
    find_common_neighbors kg entity1 entity2 order = Ok S
    ∧ find_common_neighbors kg entity2 entity1 order = Ok S
    ∧ (∀ x, x ∈ S →
         x ∈ get_entities kg
         ∧ connected (nx.to_undirected (graph kg)) entity1 x
         ∧ connected (nx.to_undirected (graph kg)) entity2 x)
    ∧ (¬ (entity1 ∈ get_entities kg ∧ entity2 ∈ get_entities kg) → S = ∅)
    ∧ (order = 1%Z → entity1 ∈ get_entities kg → entity2 ∈ get_entities kg →
       ∀ x, x ∈ S ↔
         (nx.has_edge (graph kg) entity1 x = true
          ∨ nx.has_edge (graph kg) x entity1 = true)
         ∧ (nx.has_edge (graph kg) entity2 x = true
            ∨ nx.has_edge (graph kg) x entity2 = true))
    ∧ ((2 ≤ order)%Z → (entity1 ∉ S) ∧ (entity2 ∉ S))
    ∧ (entity1 = entity2 → get_neighbors kg entity1 order = Ok S).
Proof.
  intros Hwf%reachable_wf.
  destruct (get_neighbors_ok kg entity1 order Hwf) as (S1 & H1 & HE1 & HC1).
  destruct (get_neighbors_ok kg entity2 order Hwf) as (S2 & H2 & HE2 & HC2).
  exists (S1 ∩ S2). unfold find_common_neighbors. rewrite H1, H2.
  cbn [mbind result_bind]. split_and!.
  - done.
  - f_equal. apply (comm_L (∩)).
  - intros x [Hx1 Hx2]%elem_of_intersection. auto.
  - intros Hn.
    destruct (decide (entity1 ∈ get_entities kg)) as [He1|He1].
    + destruct (decide (entity2 ∈ get_entities kg)) as [He2|He2]; [by destruct Hn|].
      rewrite (get_neighbors_absent kg entity2 order He2) in H2.
      injection H2 as <-. apply (right_absorb_L ∅ (∩)).
    + rewrite (get_neighbors_absent kg entity1 order He1) in H1.
      injection H1 as <-. apply (left_absorb_L ∅ (∩)).
  - intros -> He1 He2 x. rewrite elem_of_intersection.
    by rewrite (get_neighbors_linked kg entity1 x S1 Hwf He1 H1),
      (get_neighbors_linked kg entity2 x S2 Hwf He2 H2).
  - intros Ho. rewrite !elem_of_intersection.
    pose proof (get_neighbors_bfs_excludes_self kg entity1 order S1 Ho H1).
    pose proof (get_neighbors_bfs_excludes_self kg entity2 order S2 Ho H2).
    split; intros [? ?]; done.
  - intros <-. rewrite H1 in H2. injection H2 as <-.
    f_equal. symmetry. apply (idemp_L (∩)).
Qed.

(** X17, for A and B that both point at C. *)
Lemma find_common_neighbors_spec_witness :
  let kg :=
    add_relationship (add_relationship kg_init "A" "C" 1 "r" None)
      "B" "C" 1 "r" None in
  ∃ S,
    find_common_neighbors kg "A" "B" 1 = Ok S
    ∧ find_common_neighbors kg "B" "A" 1 = Ok S
    ∧ "C" ∈ S.
Proof.
  intros kg.
  assert (reachable kg) as Hr
    by (do 2 apply reachable_add_relationship; apply reachable_init).
  destruct (find_common_neighbors_spec kg "A" "B" 1 Hr)
    as (S & H1 & H2 & _ & _ & H3 & _).
  exists S. split; [done|]. split; [done|].
  apply H3; [done|apply has_node_true; by vm_compute
            |apply has_node_true; by vm_compute|].
  split; left; by vm_compute.
Defined.

(** * Connected components and degrees *)

Lemma connected_nodes (U : nx.Graph) (v x : string) :
  graph_ok U → v ∈ nx.unodes U → connected U v x → x ∈ nx.unodes U.
Proof.
  intros HU Hv Hc. induction Hc as [|a b c Hab _ IH]; [done|].
  apply IH. by apply (adj_nodes U a b).
Qed.

Lemma NoDup_concat_elements (cs : list (gset string)) :
  (∀ i j c1 c2, cs !! i = Some c1 → cs !! j = Some c2 → i ≠ j → c1 ## c2) →
  NoDup (mjoin (elements <$> cs)).
Proof.
  induction cs as [|c cs IH]; intros Hd; [constructor|].
  csimpl. apply NoDup_app. split; [apply NoDup_elements|]. split.
  - intros x Hx Hin. apply list_elem_of_join in Hin as (l & Hxl & Hl).
    apply list_elem_of_fmap in Hl as (c' & -> & Hc').
    apply list_elem_of_lookup in Hc' as [j Hj].
    apply elem_of_elements in Hx, Hxl.
    apply (Hd 0 (S j) c c' eq_refl Hj ltac:(done) x Hx Hxl).
  - apply IH. intros i j c1 c2 Hi Hj Hij.
    apply (Hd (S i) (S j) c1 c2 Hi Hj). lia.
Qed.

Lemma components_head (U : nx.Graph) (l : list string)
    (st : gset string * list (gset string)) (c : gset string) :
  head st.2 = Some c →
  head (foldl
          (λ (st : gset string * list (gset string)) v,
             if bool_decide (v ∈ st.1) then st
             else let c := nx.component U v in (st.1 ∪ c, st.2 ++ [c]))
          st l).2 = Some c.
Proof.
  revert st. induction l as [|v l IH]; intros st Hst; [done|].
  cbn [foldl]. apply IH. case_bool_decide; [done|].
  cbn. destruct (st.2); [done|]. done.
Qed.

Lemma sum_list_perm (l k : list nat) : l ≡ₚ k → sum_list l = sum_list k.
Proof. induction 1; simpl; lia. Qed.

Lemma sum_list_plus {A} (f g : A → nat) (l : list A) :
  sum_list ((λ x, f x + g x) <$> l) = sum_list (f <$> l) + sum_list (g <$> l).
Proof. induction l as [|x l IH]; csimpl; lia. Qed.

Lemma sum_list_ones {A} (l : list A) : sum_list ((λ _, 1) <$> l) = length l.
Proof. induction l as [|x l IH]; csimpl; lia. Qed.

Section count_facts.
Context (f : nat → nat).

Lemma count_step (m : gmap nat nat) (k : nat) :
  sum_list ((λ kv : nat * nat, f kv.1 * kv.2)
              <$> map_to_list (<[k := default 0 (m !! k) + 1]> m))
  = sum_list ((λ kv : nat * nat, f kv.1 * kv.2) <$> map_to_list m) + f k.
Proof.
  destruct (m !! k) as [c|] eqn:Hk.
  - rewrite <- insert_delete_eq.
    rewrite (sum_list_perm _ _
      (fmap_Permutation _ _ _
         (map_to_list_insert (delete k m) k (c + 1) (lookup_delete_eq m k)))).
    rewrite <- (sum_list_perm _ _
      (fmap_Permutation _ _ _ (map_to_list_delete m k c Hk))).
    csimpl. lia.
  - rewrite (sum_list_perm _ _
      (fmap_Permutation _ _ _ (map_to_list_insert m k (0 + 1) Hk))).
    csimpl. lia.
Qed.

Lemma count_sum (l : list nat) (m : gmap nat nat) :
  sum_list ((λ kv : nat * nat, f kv.1 * kv.2)
              <$> map_to_list
                    (foldl (λ dist k, <[k := default 0 (dist !! k) + 1]> dist) m l))
  = sum_list ((λ kv : nat * nat, f kv.1 * kv.2) <$> map_to_list m)
    + sum_list (f <$> l).
Proof.
  revert m. induction l as [|k l IH]; intros m; csimpl; [lia|].
  rewrite IH, count_step. lia.
Qed.
End count_facts.

Lemma count_lookup (l : list nat) (k : nat) :
  default 0 (foldl (λ (dist : gmap nat nat) k,
                      <[k := default 0 (dist !! k) + 1]> dist) ∅ l !! k)
  = length (filter (λ x, x = k) l).
Proof.
  induction l as [|x l IH] using rev_ind; [done|].
  rewrite foldl_snoc, filter_app, length_app.
  destruct (decide (x = k)) as [->|Hne].
  - rewrite lookup_insert_eq. simpl. rewrite IH.
    rewrite filter_cons_True by done. simpl. lia.
  - rewrite lookup_insert_ne, IH by done.
    rewrite filter_cons_False by done. simpl. lia.
Qed.

Lemma count_positive (l : list nat) (k c : nat) :
  foldl (λ (dist : gmap nat nat) k,
           <[k := default 0 (dist !! k) + 1]> dist) ∅ l !! k = Some c →
  0 < c.
Proof.
  induction l as [|x l IH] using rev_ind; [done|].
  rewrite foldl_snoc. destruct (decide (x = k)) as [->|Hne].
  - rewrite lookup_insert_eq. intros [= <-]. lia.
  - by rewrite lookup_insert_ne.
Qed.


(** X18: in a graph built through the mutators the connected components
    that [get_connected_components] lists partition the entities: every
    entity is in exactly one component, no component is empty, and two
    entities are in the same component exactly when a chain of
    relationships, each taken in either direction, connects them.  There
    are as many components as [number_connected_components] counts, and the
    first component is the one of the first entity. *)
Theorem connected_components_partition (kg : KnowledgeGraph) :
  reachable kg →
  let U := nx.to_undirected (graph kg) in
  let cs := get_connected_components kg in
  mjoin cs ≡ₚ get_entities kg
  ∧ (∀ c, c ∈ cs → c ≠ [])
  ∧ (∀ i j ci cj x y,
       cs !! i = Some ci → cs !! j = Some cj → x ∈ ci → y ∈ cj →
       i = j ↔ connected U x y)
  ∧ length cs = nx.number_connected_components U
  ∧ (∀ v, head (get_entities kg) = Some v → ∃ c, head cs = Some c ∧ v ∈ c).
Proof.
  intros Hwf%reachable_wf U cs.
  pose proof (to_undirected_ok kg Hwf) as HU. fold U in HU.
  destruct (connected_components_spec U HU) as (HA & HB & HC).
  assert (Hcls : ∀ c x y, c ∈ nx.connected_components U → x ∈ c →
            (y ∈ c ↔ connected U x y)).
  { intros c x y Hc Hx. destruct (HA c Hc) as (v & Hv & Hcv).
    rewrite Hcv. apply Hcv in Hx. split.
    - intros Hy. etrans; [by apply connected_sym|done].
    - intros Hxy. by etrans. }
  subst cs. unfold get_connected_components. fold U. cbv zeta. split_and!.
  - apply NoDup_Permutation.
    + by apply NoDup_concat_elements.
    + apply Hwf.
    + intros x. rewrite list_elem_of_join. split.
      * intros (l & Hxl & Hl). apply list_elem_of_fmap in Hl as (c & -> & Hc).
        apply elem_of_elements in Hxl. destruct (HA c Hc) as (v & Hv & Hcv).
        apply (connected_nodes U v x HU Hv). by apply Hcv.
      * intros Hx. destruct (HB x Hx) as (c & Hc & Hxc).
        exists (elements c). split; [by apply elem_of_elements|].
        by apply list_elem_of_fmap_2.
  - intros c Hc. apply list_elem_of_fmap in Hc as (c0 & -> & Hc0).
    destruct (HA c0 Hc0) as (v & Hv & Hcv).
    assert (v ∈ elements c0) as Hin
      by (apply elem_of_elements, Hcv; apply rtc_refl).
    intros Hnil. rewrite Hnil in Hin. by apply elem_of_nil in Hin.
  - intros i j ci cj x y Hi Hj Hx Hy.
    rewrite list_lookup_fmap in Hi, Hj.
    destruct (nx.connected_components U !! i) as [ci0|] eqn:Hi0; [|done].
    destruct (nx.connected_components U !! j) as [cj0|] eqn:Hj0; [|done].
    injection Hi as <-. injection Hj as <-.
    apply elem_of_elements in Hx, Hy.
    pose proof (list_elem_of_lookup_2 _ _ _ Hi0) as Hci.
    split.
    + intros <-. rewrite Hi0 in Hj0. injection Hj0 as <-.
      by apply (Hcls ci0 x y Hci Hx).
    + intros Hxy. apply (Hcls ci0 x y Hci Hx) in Hxy.
      destruct (decide (i = j)) as [|Hne]; [done|].
      destruct (HC i j ci0 cj0 Hi0 Hj0 Hne y Hxy Hy).
  - by rewrite length_fmap.
  - intros v Hv. unfold get_entities in Hv.
    assert (Hh : head (nx.connected_components U) = Some (nx.component U v)).
    { unfold nx.connected_components. change (nx.unodes U) with (nx.nodes (graph kg)).
      destruct (nx.nodes (graph kg)) as [|v' l]; [done|].
      injection Hv as ->. cbn [foldl].
      apply components_head.
      rewrite bool_decide_eq_false_2 by apply not_elem_of_empty. done. }
    exists (elements (nx.component U v)). split.
    + destruct (nx.connected_components U); [done|].
      injection Hh as ->. done.
    + apply elem_of_elements, elem_of_component; [done| |apply rtc_refl].
      change (nx.unodes U) with (nx.nodes (graph kg)).
      destruct (nx.nodes (graph kg)); [done|]. injection Hv as ->. left.
Qed.

(** X18, for the two entities of one relationship and an entity apart. *)
Lemma connected_components_partition_witness :
  let kg :=
    add_entity (add_relationship kg_init "A" "B" 1 "r" None) "C" None in
  mjoin (get_connected_components kg) ≡ₚ ["A"; "B"; "C"]
  ∧ length (get_connected_components kg)
    = nx.number_connected_components (nx.to_undirected (graph kg)).
Proof.
  intros kg.
  assert (reachable kg) as Hr
    by (apply reachable_add_entity, reachable_add_relationship, reachable_init).
  destruct (connected_components_partition kg Hr) as (H1 & _ & _ & H2 & _).
  split; [exact H1|exact H2].
Defined.

Lemma degree_values (G : nx.DiGraph) :
  (degree G).*2
  = (λ n, length (nx.out_edges G n) + length (nx.in_edges G n)) <$> nx.nodes G.
Proof. unfold degree. by rewrite <- list_fmap_compose. Qed.

Lemma count_total (l : list nat) :
  sum_list (snd <$> map_to_list
              (foldl (λ (dist : gmap nat nat) k,
                        <[k := default 0 (dist !! k) + 1]> dist) ∅ l))
  = length l.
Proof.
  pose proof (count_sum (λ _, 1) l ∅) as Hs.
  rewrite map_to_list_empty, fmap_nil in Hs. simpl sum_list in Hs at 2.
  rewrite sum_list_ones in Hs. simpl in Hs. rewrite <- Hs. f_equal.
  apply list_fmap_ext. intros _ [k v] _. simpl. lia.
Qed.

Lemma count_weighted (l : list nat) :
  sum_list ((λ kv : nat * nat, kv.1 * kv.2)
              <$> map_to_list
                    (foldl (λ (dist : gmap nat nat) k,
                              <[k := default 0 (dist !! k) + 1]> dist) ∅ l))
  = sum_list l.
Proof.
  pose proof (count_sum (λ k, k) l ∅) as Hs.
  rewrite map_to_list_empty, fmap_nil in Hs. simpl sum_list in Hs at 2.
  by rewrite list_fmap_id in Hs.
Qed.

(** X19: [get_degree_distribution] maps a degree to the number of entities
    of that degree, the degree of an entity being the number of its outgoing
    plus the number of its incoming relationships; no degree is mapped to 0,
    and the counts add up to the number of entities.  In a graph built
    through the mutators the degrees, each weighted by its count, add up to
    twice the number of relationships. *)
Theorem degree_distribution_counts (kg : KnowledgeGraph) :
  let dist := get_degree_distribution kg in
  let deg := λ n, (length (outgoing (get_entity_relationships kg n))
                   + length (incoming (get_entity_relationships kg n)))%nat in
  (∀ k, default 0 (dist !! k)
        = length (filter (λ n, deg n = k) (get_entities kg)))
  ∧ (∀ k c, dist !! k = Some c → 0 < c)
  ∧ sum_list (snd <$> map_to_list dist) = length (get_entities kg)
  ∧ (reachable kg →
     total_degree dist = 2 * length (get_relationships kg)).
Proof.
  intros dist deg. subst dist. unfold get_degree_distribution.
  cbv zeta. rewrite degree_values.
  set (d := λ n, length (nx.out_edges (graph kg) n)
                 + length (nx.in_edges (graph kg) n)).
  assert (Hdeg : ∀ n, n ∈ get_entities kg → deg n = d n).
  { intros n Hn. unfold deg, d.
    by rewrite outgoing_present, incoming_present, !length_fmap. }
  split_and!.
  - intros k. rewrite count_lookup. unfold get_entities in *.
    induction (nx.nodes (graph kg)) as [|n l IH]; [done|].
    csimpl. rewrite !filter_cons.
    rewrite Hdeg by left.
    specialize (IH (λ m Hm, Hdeg m (proj2 (elem_of_cons l m n) (or_intror Hm)))).
    destruct (decide (d n = k)); simpl; by rewrite IH.
  - intros k c. apply count_positive.
  - rewrite count_total, length_fmap. done.
  - intros Hwf%reachable_wf. unfold total_degree.
    rewrite count_weighted. unfold d.
    rewrite sum_list_plus.
    unfold nx.in_edges.
    rewrite (sum_list_in_edges (nx.nodes (graph kg)) (nx.edges (graph kg)))
      by (apply Hwf || (intros e He; by apply (wf_ends kg Hwf))).
    rewrite <- sum_list_bind_length.
    change (nx.nodes (graph kg) ≫= nx.out_edges (graph kg))
      with (nx.edges_view (graph kg)).
    unfold get_relationships.
    rewrite (Permutation_length (edges_view_perm kg Hwf)). lia.
Qed.

(** X19, for the entities of one relationship. *)
Lemma degree_distribution_counts_witness :
  let kg := add_relationship kg_init "A" "B" 1 "r" None in
  total_degree (get_degree_distribution kg) = 2 * length (get_relationships kg).
Proof.
  intros kg.
  apply (proj2 (proj2 (proj2 (degree_distribution_counts kg)))).
  apply reachable_add_relationship, reachable_init.
Defined.

(** * Neighbourhoods of an entity *)

Lemma neighborhood_loop (kg : KnowledgeGraph) (e : string) (orders : list Z)
    (acc : list (Z * neighborhood.analysis)) :
  (∀ o, ∃ S, get_neighbors kg e o = Ok S) →
  ∃ l,
    foldM (λ analysis order,
             neighbors ← get_neighbors kg e order;
             if (order =? 1)%Z
             then
               let relationships := get_entity_relationships kg e in
               let neighbor_details :=
                 ((λ c : string * R * string,
                     neighborhood.MkDetail c.1.1 c.1.2 c.2 "outgoing")
                    <$> outgoing relationships)
                   ++ ((λ c : string * R * string,
                          neighborhood.MkDetail c.1.1 c.1.2 c.2 "incoming")
                         <$> incoming relationships) in
               Ok (analysis
                     ++ [(order,
                          neighborhood.MkAnalysis (size neighbors)
                            (elements neighbors) (Some neighbor_details)
                            (Some (mean_or_zero
                                     (neighborhood.weight <$> neighbor_details))))])
             else
               Ok (analysis
                     ++ [(order,
                          neighborhood.MkAnalysis (size neighbors)
                            (elements neighbors) None None)]))
          orders acc = Ok (acc ++ l)
    ∧ l.*1 = orders
    ∧ Forall (λ kv, ∃ S, get_neighbors kg e kv.1 = Ok S
                         ∧ kv.2 = order_analysis kg e kv.1 S) l.
Proof.
  intros Hok.
  match goal with |- context [foldM ?b _ _] => set (body := b) end.
  revert acc. induction orders as [|o orders IH]; intros acc.
  - exists []. by rewrite app_nil_r.
  - change (foldM body (o :: orders) acc)
      with (body acc o ≫= foldM body orders).
    destruct (Hok o) as [S HS].
    assert (Hb : body acc o = Ok (acc ++ [(o, order_analysis kg e o S)])).
    { unfold body. rewrite HS. cbn [mbind result_bind].
      unfold order_analysis, neighbor_details. by destruct (o =? 1)%Z. }
    rewrite Hb.
    change (Ok (acc ++ [(o, order_analysis kg e o S)]) ≫= foldM body orders)
      with (foldM body orders (acc ++ [(o, order_analysis kg e o S)])).
    destruct (IH (acc ++ [(o, order_analysis kg e o S)])) as (l & Hl & Hk & Hf).
    exists ((o, order_analysis kg e o S) :: l). split_and!.
    + rewrite Hl. by rewrite <- app_assoc.
    + csimpl. by rewrite Hk.
    + constructor; [by exists S|done].
Qed.

Lemma dict_get_elem {A} (d : list (Z * A)) (k : Z) (a : A) :
  NoDup d.*1 → (k, a) ∈ d → dict_get d k = Some a.
Proof.
  induction d as [|[k' a'] d IH]; intros Hnd Hin; [by apply elem_of_nil in Hin|].
  csimpl in *. apply NoDup_cons in Hnd as [Hk' Hnd].
  apply elem_of_cons in Hin as [[= <- <-]|Hin].
  - by rewrite bool_decide_eq_true_2.
  - rewrite bool_decide_eq_false_2; [by apply IH|].
    intros ->. apply Hk'. apply list_elem_of_fmap. by exists (k, a).
Qed.

Lemma total_reachable_fold {A} (g : A → gset string) (d l : list (Z * A))
    (acc : gset string) :
  (∀ kv, kv ∈ l → dict_get d kv.1 = Some kv.2) →
  foldl (λ total_reachable order,
           match dict_get d order with
           | Some a => total_reachable ∪ g a
           | None => total_reachable
           end) acc l.*1
  = acc ∪ ⋃ (g <$> l.*2).
Proof.
  revert acc. induction l as [|[k a] l IH]; intros acc Hl.
  - cbn. by rewrite (right_id_L ∅ (∪)).
  - csimpl. pose proof (Hl (k, a) ltac:(left)) as Hka. cbn [fst snd] in Hka.
    rewrite Hka.
    rewrite IH by (intros; apply Hl; by right).
    by rewrite (assoc_L (∪)).
Qed.

(** The layers of a list of pairwise disjoint sets: the size of their union
    is the sum of their sizes, and its elements are those of the layers. *)
Lemma disjoint_layers (Ss : list (gset string)) :
  (∀ i j Si Sj, Ss !! i = Some Si → Ss !! j = Some Sj → i < j → Si ## Sj) →
  size (⋃ Ss) = sum_list (size <$> Ss)
  ∧ elements (⋃ Ss) ≡ₚ mjoin (elements <$> Ss).
Proof.
  induction Ss as [|T Ss IH]; intros Hd.
  - split; [done|]. cbn. by rewrite elements_empty.
  - destruct IH as [IH1 IH2].
    { intros i j Si Sj Hi Hj Hij. apply (Hd (S i) (S j) Si Sj Hi Hj). lia. }
    assert (T ## ⋃ Ss) as Hdisj.
    { intros x Hx Hu. apply elem_of_union_list in Hu as (S' & HS' & HxS').
      apply list_elem_of_lookup in HS' as [j Hj].
      apply (Hd 0 (S j) T S' eq_refl Hj ltac:(lia) x Hx HxS'). }
    csimpl. split.
    + rewrite size_union by done. by rewrite IH1.
    + rewrite elements_disj_union by done. by rewrite IH2.
Qed.

Lemma size_le_length (S : gset string) (l : list string) :
  (∀ x, x ∈ S → x ∈ l) → size S ≤ length l.
Proof.
  intros Hsub. change (size S) with (length (elements S)).
  apply submseteq_length, NoDup_submseteq; [apply NoDup_elements|].
  intros x Hx. apply Hsub. by apply elem_of_elements.
Qed.

Lemma num_connections_length (kg : KnowledgeGraph) (entity : string) :
  num_connections kg entity
  = length (outgoing (get_entity_relationships kg entity))
    + length (incoming (get_entity_relationships kg entity)).
Proof.
  unfold num_connections, incident_weights.
  by rewrite length_app, !length_fmap.
Qed.

Lemma neighbor_details_weights (kg : KnowledgeGraph) (entity : string) :
  neighborhood.weight <$> neighbor_details kg entity
  = incident_weights kg entity.
Proof.
  unfold neighbor_details, incident_weights.
  by rewrite fmap_app, <- !list_fmap_compose.
Qed.

Lemma direct_neighbors_connections (kg : KnowledgeGraph) (entity : string)
    (S : gset string) :
  wf kg → entity ∈ get_entities kg → get_neighbors kg entity 1 = Ok S →
  size S ≤ num_connections kg entity.
Proof.
  intros Hwf He HS.
  trans (length (neighborhood.entity <$> neighbor_details kg entity)).
  - apply size_le_length. intros x Hx.
    apply (get_neighbors_linked kg entity x S Hwf He HS) in Hx.
    unfold neighbor_details.
    rewrite outgoing_present, incoming_present by done.
    rewrite fmap_app, <- !list_fmap_compose. apply elem_of_app.
    destruct Hx as [Hx|Hx]; [left|right];
      apply has_edge_true, list_elem_of_fmap in Hx as (e' & Heq & Hin);
      apply list_elem_of_fmap; exists e'; unfold nx.out_edges, nx.in_edges;
      rewrite list_elem_of_filter; cbn; by rewrite <- Heq.
  - unfold neighbor_details. rewrite length_fmap, length_app, !length_fmap.
    by rewrite num_connections_length.
Qed.

(** X20: in a graph built through the mutators the two neighbourhood
    analyses never raise.  For a name that is no entity
    [analyze_neighborhood_orders] returns the empty dictionary and
    [analyze_entity_connectivity] reports that the entity does not exist.
    For an entity, the keys of the neighbourhoods are the orders from 1 to
    [max_order]; the entry of an order lists the neighbours
    [get_neighbors] returns for it, each once, and counts them; only the
    order 1 has details, one per connection of the entity, whose number
    bounds the number of direct neighbours and whose average weight lies
    between 0 and 1.  The reachable entities are those of all the orders
    together, each once, so that [total_reachable] is the sum of the
    counts; every one of them is an entity connected to the analysed one. *)
Theorem analyze_entity_connectivity_spec (kg : KnowledgeGraph)
    (entity : string) (max_order : Z) :
  reachable kg →
  (entity ∉ get_entities kg →
   analyze_neighborhood_orders kg entity max_order = Ok []
   ∧ analyze_entity_connectivity kg entity max_order = Ok (Absent entity))
  ∧ (entity ∈ get_entities kg →
     ∃ neighborhoods total members,
       analyze_neighborhood_orders kg entity max_order = Ok neighborhoods
       ∧ analyze_entity_connectivity kg entity max_order
         = Ok (Present entity (num_connections kg entity)
                 (length (outgoing (get_entity_relationships kg entity)))
                 (length (incoming (get_entity_relationships kg entity)))
                 neighborhoods total members)
       ∧ neighborhoods.*1 = seqZ 1 max_order
       ∧ (∀ order a, (order, a) ∈ neighborhoods →
            ∃ S, get_neighbors kg entity order = Ok S
                 ∧ neighborhood.count a = size S
                 ∧ (∀ x, x ∈ neighborhood.entities a ↔ x ∈ S)
                 ∧ NoDup (neighborhood.entities a)
                 ∧ length (neighborhood.entities a) = neighborhood.count a
                 ∧ (is_Some (neighborhood.details a) ↔ order = 1%Z)
                 ∧ (is_Some (neighborhood.average_weight a) ↔ order = 1%Z))
       ∧ (∀ a, (1%Z, a) ∈ neighborhoods →
            ∃ ds avg,
              neighborhood.details a = Some ds
              ∧ neighborhood.average_weight a = Some avg
              ∧ length ds = num_connections kg entity
              ∧ neighborhood.weight <$> ds = incident_weights kg entity
              ∧ neighborhood.count a ≤ num_connections kg entity
              ∧ (0 <= avg <= 1)%R)
       ∧ total = sum_list (neighborhood.count <$> neighborhoods.*2)
       ∧ total = length members
       ∧ members ≡ₚ mjoin (neighborhood.entities <$> neighborhoods.*2)
       ∧ (∀ x, x ∈ members →
            x ∈ get_entities kg
            ∧ connected (nx.to_undirected (graph kg)) entity x)).
Proof.
  intros Hwf%reachable_wf. split.
  { intros He. unfold analyze_entity_connectivity, analyze_neighborhood_orders,
      contains.
    by rewrite (proj2 (has_node_false _ _) He). }
  intros He.
  assert (Hok : ∀ o, ∃ S, get_neighbors kg entity o = Ok S).
  { intros o. destruct (get_neighbors_ok kg entity o Hwf) as (S & HS & _). eauto. }
  destruct (neighborhood_loop kg entity (py_range 1 (max_order + 1)) [] Hok)
    as (l & Hl & Hk & Hf).
  assert (Hn : analyze_neighborhood_orders kg entity max_order = Ok l).
  { unfold analyze_neighborhood_orders, contains.
    rewrite (proj2 (has_node_true _ _) He). cbn [negb]. exact Hl. }
  assert (Hkeys : l.*1 = seqZ 1 max_order).
  { rewrite Hk. unfold py_range. f_equal. lia. }
  rewrite Forall_forall in Hf.
  assert (Hrec : ∀ order a, (order, a) ∈ l →
            ∃ S, get_neighbors kg entity order = Ok S
                 ∧ a = order_analysis kg entity order S).
  { intros order a Hin. apply (Hf (order, a) Hin). }
  assert (Hent : ∀ order a S, a = order_analysis kg entity order S →
            neighborhood.entities a = elements S ∧ neighborhood.count a = size S).
  { intros order a S ->. unfold order_analysis. by destruct (order =? 1)%Z. }
  set (g := λ a : neighborhood.analysis,
              (list_to_set (neighborhood.entities a) : gset string)).
  assert (HT : foldl (λ (total_reachable : gset string) order,
                        match dict_get l order with
                        | Some a => total_reachable ∪ g a
                        | None => total_reachable
                        end) ∅ (py_range 1 (max_order + 1))
               = ⋃ (g <$> l.*2)).
  { rewrite <- Hk. rewrite (total_reachable_fold g l l ∅).
    - apply (left_id_L ∅ (∪)).
    - intros [k a] Hin. apply dict_get_elem; [|done].
      rewrite Hkeys. apply NoDup_seqZ. }
  assert (Hlayer : ∀ i S, (g <$> l.*2) !! i = Some S →
            get_neighbors kg entity (1 + Z.of_nat i) = Ok S).
  { intros i S Hi. rewrite !list_lookup_fmap in Hi.
    destruct (l !! i) as [[k a]|] eqn:Hli; [|done].
    cbn in Hi. injection Hi as <-.
    assert (k = (1 + Z.of_nat i)%Z) as ->.
    { assert (l.*1 !! i = Some k) as Hki by (by rewrite list_lookup_fmap, Hli).
      rewrite Hkeys in Hki. by apply lookup_seqZ in Hki as [-> _]. }
    destruct (Hrec _ a (list_elem_of_lookup_2 _ _ _ Hli)) as (S & HS & Ha).
    rewrite HS. f_equal. unfold g.
    rewrite (proj1 (Hent _ a S Ha)). by rewrite list_to_set_elements_L. }
  destruct (disjoint_layers (g <$> l.*2)) as [Hsize Helems].
  { intros i j Si Sj Hi Hj Hij.
    apply (get_neighbors_disjoint kg entity (1 + Z.of_nat i) (1 + Z.of_nat j));
      [lia|by apply Hlayer|by apply Hlayer]. }
  assert (Hg : ∀ a, a ∈ l.*2 →
            size (g a) = neighborhood.count a
            ∧ elements (g a) = neighborhood.entities a).
  { intros a Ha. apply list_elem_of_fmap in Ha as ([k a'] & -> & Hin).
    destruct (Hrec k a' Hin) as (S & HS & Ha'). cbn [snd].
    destruct (Hent k a' S Ha') as [He1 He2]. unfold g.
    rewrite He1, He2. by rewrite list_to_set_elements_L. }
  exists l, (size (⋃ (g <$> l.*2))), (elements (⋃ (g <$> l.*2))).
  split; [done|]. split.
  { unfold analyze_entity_connectivity, contains.
    rewrite (proj2 (has_node_true _ _) He). cbn [negb]. rewrite Hn.
    cbn [mbind result_bind].
    pose proof HT as HT'. unfold g in HT'. cbv beta in HT'. rewrite HT'.
    by rewrite num_connections_length. }
  split; [done|]. split_and!.
  - intros order a Hin. destruct (Hrec order a Hin) as (S & HS & Ha).
    exists S. split; [done|].
    destruct (Hent order a S Ha) as [He1 He2]. rewrite He1, He2.
    split; [done|]. split; [intros x; apply elem_of_elements|].
    split; [apply NoDup_elements|]. split; [done|].
    rewrite Ha. unfold order_analysis.
    destruct (Z.eqb_spec order 1) as [->|Hne]; cbn.
    + split; (split; [done|eauto]).
    + split; (split; [by intros [? ?]|done]).
  - intros a Hin. destruct (Hrec 1%Z a Hin) as (S & HS & Ha).
    exists (neighbor_details kg entity),
      (mean_or_zero (neighborhood.weight <$> neighbor_details kg entity)).
    rewrite Ha. unfold order_analysis. cbn.
    split; [done|]. split; [done|].
    rewrite neighbor_details_weights. split; [|split; [done|split]].
    + rewrite <- (length_fmap neighborhood.weight).
      by rewrite neighbor_details_weights.
    + by apply direct_neighbors_connections.
    + pose proof (incident_weights_bounds kg entity Hwf) as Hb.
      destruct (incident_weights kg entity) as [|w ws] eqn:Hw; [cbn; lra|].
      apply mean_bounds in Hb. exact Hb.
  - rewrite Hsize. f_equal. rewrite <- list_fmap_compose.
    apply fmap_ext_in. intros a Ha. apply (Hg a Ha).
  - done.
  - rewrite Helems, <- list_fmap_compose.
    rewrite (fmap_ext_in (elements ∘ g) neighborhood.entities l.*2); [done|].
    intros a Ha. apply (Hg a Ha).
  - intros x Hx. apply elem_of_elements, elem_of_union_list in Hx
      as (S & HS & HxS).
    apply list_elem_of_lookup in HS as [i Hi]. apply Hlayer in Hi.
    destruct (get_neighbors_ok kg entity (1 + Z.of_nat i) Hwf)
      as (S' & HS' & Hent' & Hconn).
    rewrite Hi in HS'. injection HS' as <-. split; auto.
Qed.

(** X20, for the middle of the chain A, B, C. *)
Lemma analyze_entity_connectivity_spec_witness :
  let kg :=
    add_relationship (add_relationship kg_init "A" "B" 1 "r" None)
      "B" "C" 1 "r" None in
  ∃ neighborhoods total members,
    analyze_entity_connectivity kg "B" 2
    = Ok (Present "B" (num_connections kg "B")
            (length (outgoing (get_entity_relationships kg "B")))
            (length (incoming (get_entity_relationships kg "B")))
            neighborhoods total members)
    ∧ total = sum_list (neighborhood.count <$> neighborhoods.*2)
    ∧ total = length members.
Proof.
  intros kg.
  assert (reachable kg) as Hr
    by (do 2 apply reachable_add_relationship; apply reachable_init).
  assert ("B" ∈ get_entities kg) as He by (apply has_node_true; by vm_compute).
  destruct (proj2 (analyze_entity_connectivity_spec kg "B" 2 Hr) He)
    as (ns & total & members & _ & H1 & _ & _ & _ & H2 & H3 & _).
  by exists ns, total, members.
Defined.

(** * The builders of the graph *)

Lemma built_from_refl names added kg : reachable kg → built_from names added kg kg.
Proof. intros Hr. split_and!; auto. Qed.

Lemma built_from_trans names added kg1 kg2 kg3 :
  built_from names added kg1 kg2 → built_from names added kg2 kg3 →
  built_from names added kg1 kg3.
Proof.
  intros (_ & Hp1 & Hn1 & Hm1 & He1 & Hk1) (Hr & Hp2 & Hn2 & Hm2 & He2 & Hk2).
  split_and!.
  - done.
  - by etrans.
  - intros x Hx. destruct (Hn2 x Hx) as [Hx2|?]; [|by right]. by apply Hn1.
  - intros x Hx. rewrite Hm2; [by apply Hm1|].
    destruct Hp1 as [k ->]. apply elem_of_app. by left.
  - intros e He. destruct (He2 e He) as [He'|?]; [|by right]. by apply He1.
  - auto.
Qed.

Lemma built_from_add_entity names added kg entity metadata :
  reachable kg → entity ∉ get_entities kg → entity ∈ names →
  built_from names added kg (add_entity kg entity metadata).
Proof.
  intros Hr Hnew Hname. pose proof (reachable_wf kg Hr) as Hwf. split_and!.
  - by constructor.
  - apply (mutate_prefix kg (AddEntity entity metadata)).
  - intros x Hx. apply (mutate_nodes kg (AddEntity entity metadata)) in Hx
      as [?|Hx]; [by left|right].
    cbn in Hx. apply list_elem_of_singleton in Hx as ->. done.
  - intros x Hx. unfold stored_metadata, add_entity.
    destruct (truthy metadata); [|done]. cbn.
    rewrite lookup_insert_ne; [done|]. by intros ->.
  - intros e He. left. by rewrite add_entity_relationships in He.
  - intros u v. by rewrite add_entity_graph, !has_edge_true, add_node_edges.
Qed.

Lemma elem_of_relationships_add (kg : KnowledgeGraph) (s t : string) (w : R)
    (ty : string) (md : option pydict) (e : nx.edge) :
  wf kg →
  e ∈ get_relationships (add_relationship kg s t w ty md) →
  e ∈ get_relationships kg
  ∨ e = (s, t, nx.Attrs (Rmax 0 (Rmin 1 w)) ty (or_empty md)).
Proof.
  intros Hwf He.
  pose proof (wf_add_relationship kg s t w ty md Hwf) as Hwf'.
  unfold get_relationships in *.
  apply elem_of_edges_view in He as [He _].
  rewrite add_relationship_graph, add_edge_edges in He.
  apply elem_of_set_edge in He as [->|He]; [by right|left].
  apply elem_of_edges_view. split; [done|by apply (wf_ends kg Hwf)].
Qed.

Lemma built_from_add_relationship names (added : nx.edge → Prop) kg s t w ty md :
  reachable kg → s ∈ names → t ∈ names →
  added (s, t, nx.Attrs (Rmax 0 (Rmin 1 w)) ty (or_empty md)) →
  built_from names added kg (add_relationship kg s t w ty md).
Proof.
  intros Hr Hs Ht Hadd. pose proof (reachable_wf kg Hr) as Hwf. split_and!.
  - by constructor.
  - apply (mutate_prefix kg (AddRelationship s t w ty md)).
  - intros x Hx. apply (mutate_nodes kg (AddRelationship s t w ty md)) in Hx
      as [?|Hx]; [by left|right].
    cbn in Hx. rewrite !elem_of_cons, elem_of_nil in Hx.
    by destruct Hx as [->|[->|[]]].
  - intros x _. unfold stored_metadata. by rewrite add_relationship_data.
  - intros e He. apply elem_of_relationships_add in He as [?| ->]; auto.
  - intros u v. rewrite add_relationship_graph, !has_edge_true, add_edge_edges,
      set_edge_keys.
    case_bool_decide; [done|]. intros ?. apply elem_of_app. by left.
Qed.

Lemma built_from_entities names added kg kg' x :
  built_from names added kg kg' → x ∈ get_entities kg → x ∈ get_entities kg'.
Proof.
  intros (_ & [k ->] & _) Hx. apply elem_of_app. by left.
Qed.

Section engine_facts.
Context (se : SearchEngine) (context : string).

Lemma search_entity_info_offline n entity :
  client se = None →
  search_entity_info se n entity context
  = ([("entity", JStr entity);
      ("description", JStr ("Information about " +:+ entity));
      ("context", JStr context)], n).
Proof. intros Hc. unfold search_entity_info. by rewrite Hc. Qed.

Lemma search_entity_info_online n entity :
  is_Some (client se) →
  (search_entity_info se n entity context).1 ≠ []
  ∧ (search_entity_info se n entity context).2 = S n.
Proof.
  intros [c Hc]. unfold search_entity_info. rewrite Hc.
  by destruct (remote.entity_info c n entity context).
Qed.

Lemma search_entity_info_truthy n entity :
  truthy (Some (search_entity_info se n entity context).1) = true.
Proof.
  unfold search_entity_info. destruct (client se) as [c|]; [|done].
  by destruct (remote.entity_info c n entity context).
Qed.

Lemma analyze_relationship_ends n e1 e2 :
  rel.entity1 (analyze_relationship se n e1 e2 context).1 = e1
  ∧ rel.entity2 (analyze_relationship se n e1 e2 context).1 = e2.
Proof.
  unfold analyze_relationship. destruct (client se) as [c|]; [|done].
  by destruct (remote.analyze c n e1 e2 context).
Qed.

Lemma analyze_relationship_offline n e1 e2 :
  client se = None →
  rel.exists_ (analyze_relationship se n e1 e2 context).1 = None
  ∧ (analyze_relationship se n e1 e2 context).2 = n.
Proof. intros Hc. unfold analyze_relationship. by rewrite Hc. Qed.

Lemma analyze_relationship_online n e1 e2 :
  is_Some (client se) → (analyze_relationship se n e1 e2 context).2 = S n.
Proof.
  intros [c Hc]. unfold analyze_relationship. rewrite Hc.
  by destruct (remote.analyze c n e1 e2 context).
Qed.

(** The inner loop of [batch_analyze_relationships] *)
Lemma batch_inner (entity1 : string) (rest : list string)
    (st : list rel.info * nat) :
  let st' := foldl (analyze_pair se context entity1) st rest in
  ∃ new,
    st'.1 = st.1 ++ new
    ∧ (∀ r, r ∈ new →
         rel.entity1 r = entity1 ∧ rel.entity2 r ∈ rest
         ∧ rel.exists_ r = Some true ∧ (1 / 10 < rel.weight r)%R)
    ∧ (client se = None → new = [] ∧ st'.2 = st.2)
    ∧ (is_Some (client se) → st'.2 = st.2 + length rest).
Proof.
  revert st. induction rest as [|e2 rest IH]; intros st; cbn zeta.
  - exists []. rewrite app_nil_r. split_and!; try done.
    all: try (intros r Hr; by apply elem_of_nil in Hr).
    all: try (intros _; cbn; lia).
  - cbn [foldl].
    set (r := analyze_relationship se st.2 entity1 e2 context).
    set (st1 := analyze_pair se context entity1 st e2).
    destruct (IH st1) as (new & Hnew & Hall & Hoff & Hon).
    cbn zeta in Hnew, Hoff, Hon.
    destruct (analyze_relationship_ends st.2 entity1 e2) as [H1 H2].
    fold r in H1, H2.
    assert (Hst1 : ∃ new1, st1.1 = st.1 ++ new1 ∧ st1.2 = r.2
              ∧ (∀ r', r' ∈ new1 →
                   rel.entity1 r' = entity1 ∧ rel.entity2 r' = e2
                   ∧ rel.exists_ r' = Some true ∧ (1 / 10 < rel.weight r')%R)
              ∧ (client se = None → new1 = [])).
    { unfold st1, analyze_pair. fold r.
      destruct (default false (rel.exists_ r.1) && Rltb (1 / 10) (rel.weight r.1))
        eqn:Hcond.
      - exists [r.1]. split; [done|]. split; [done|]. split.
        + intros r' ->%list_elem_of_singleton.
          apply andb_prop in Hcond as [Hex Hw].
          split; [done|]. split; [done|]. split.
          * destruct (rel.exists_ r.1) as [[]|]; done.
          * by apply Rltb_true.
        + intros Hc. destruct (analyze_relationship_offline st.2 entity1 e2 Hc)
            as [Hex _]. fold r in Hex. by rewrite Hex in Hcond.
      - exists []. rewrite app_nil_r. split_and!; try done.
        intros r' Hr'. by apply elem_of_nil in Hr'. }
    destruct Hst1 as (new1 & Hs1 & Hs2 & Hall1 & Hoff1).
    exists (new1 ++ new). split_and!.
    + rewrite Hnew, Hs1. by rewrite <- app_assoc.
    + intros r' [Hr'|Hr']%elem_of_app.
      * destruct (Hall1 r' Hr') as (? & -> & ? & ?).
        split_and!; try done. left.
      * destruct (Hall r' Hr') as (? & ? & ? & ?).
        split_and!; try done. by right.
    + intros Hc. destruct (Hoff Hc) as [-> Hn]. rewrite (Hoff1 Hc).
      split; [done|]. rewrite Hn, Hs2.
      by destruct (analyze_relationship_offline st.2 entity1 e2 Hc) as [_ ?].
    + intros Hc. rewrite (Hon Hc), Hs2.
      unfold r. rewrite (analyze_relationship_online st.2 entity1 e2 Hc).
      cbn. lia.
Qed.

Lemma pairs_succ (k : nat) : k + k * (k - 1) / 2 = S k * (S k - 1) / 2.
Proof.
  replace (S k * (S k - 1)) with (k * 2 + k * (k - 1)).
  - by rewrite Nat.div_add_l.
  - destruct k; simpl; lia.
Qed.

Lemma batch_loop (entities : list string) (st : list rel.info * nat) :
  let st' := batch_analyze_relationships_from se context entities st in
  ∃ new,
    st'.1 = st.1 ++ new
    ∧ (∀ r, r ∈ new →
         rel.entity1 r ∈ entities ∧ rel.entity2 r ∈ entities
         ∧ rel.exists_ r = Some true ∧ (1 / 10 < rel.weight r)%R)
    ∧ (client se = None → new = [] ∧ st'.2 = st.2)
    ∧ (is_Some (client se) →
       st'.2 = st.2 + length entities * (length entities - 1) / 2).
Proof.
  revert st. induction entities as [|e1 rest IH]; intros st; cbn zeta.
  - exists []. cbn. rewrite app_nil_r. split_and!; try done.
    all: try (intros r Hr; by apply elem_of_nil in Hr).
    all: try (intros _; lia).
  - cbn [batch_analyze_relationships_from].
    destruct (batch_inner e1 rest st) as (new1 & Hs1 & Hall1 & Hoff1 & Hon1).
    cbn zeta in Hs1, Hoff1, Hon1.
    set (st1 := foldl (analyze_pair se context e1) st rest) in *.
    destruct (IH st1) as (new & Hnew & Hall & Hoff & Hon).
    cbn zeta in Hnew, Hoff, Hon.
    exists (new1 ++ new). split_and!.
    + rewrite Hnew, Hs1. by rewrite <- app_assoc.
    + intros r [Hr|Hr]%elem_of_app.
      * destruct (Hall1 r Hr) as (-> & ? & ? & ?).
        split_and!; try done; [left|by right].
      * destruct (Hall r Hr) as (? & ? & ? & ?).
        split_and!; try done; by right.
    + intros Hc. destruct (Hoff Hc) as [-> Hn]. destruct (Hoff1 Hc) as [-> Hn1].
      split; [done|]. by rewrite Hn, Hn1.
    + intros Hc. rewrite (Hon Hc), (Hon1 Hc).
      rewrite <- Nat.add_assoc. f_equal. apply pairs_succ.
Qed.

End engine_facts.
Lemma add_entity_new_entities (kg : KnowledgeGraph) (x : string) (md : option pydict) :
  x ∉ get_entities kg → get_entities (add_entity kg x md) = get_entities kg ++ [x].
Proof.
  intros Hx. unfold get_entities. rewrite add_entity_graph. unfold nx.add_node.
  by rewrite (proj2 (has_node_false _ _) Hx).
Qed.

Lemma prefix_full (l1 l2 : list string) :
  l1 `prefix_of` l2 → NoDup l2 → (∀ x, x ∈ l2 → x ∈ l1) → l2 = l1.
Proof.
  intros [k ->] Hnd Hsub. destruct k as [|x k]; [by rewrite app_nil_r|].
  apply NoDup_app in Hnd as (_ & Hdisj & _).
  destruct (Hdisj x); [|left]. apply Hsub, elem_of_app. right. left.
Qed.

Section builder_facts.
Context (se : SearchEngine) (context : string).

Lemma ensure_entities names added (entities : list string)
    (st : KnowledgeGraph * nat) :
  reachable st.1 → (∀ x, x ∈ entities → x ∈ names) →
  built_from names added st.1 (foldl (ensure_entity se context) st entities).1
  ∧ (∀ x, x ∈ entities →
       x ∈ get_entities (foldl (ensure_entity se context) st entities).1)
  ∧ get_relationships (foldl (ensure_entity se context) st entities).1
    = get_relationships st.1
  ∧ (client se = None →
     (foldl (ensure_entity se context) st entities).2 = st.2
     ∧ ∀ x, x ∈ entities → x ∉ get_entities st.1 →
         stored_metadata (foldl (ensure_entity se context) st entities).1 x
         = [("entity", JStr x);
            ("description", JStr ("Information about " +:+ x));
            ("context", JStr context)])
  ∧ (is_Some (client se) →
     (foldl (ensure_entity se context) st entities).2 + length (get_entities st.1)
     = st.2 + length (get_entities (foldl (ensure_entity se context) st entities).1)).
Proof.
  revert st. induction entities as [|x rest IH]; intros st Hr Hnames.
  - cbn. split_and!; try done.
    all: try (by apply built_from_refl).
    all: try (intros x Hx; by apply elem_of_nil in Hx).
    all: try (intros _; split; [done|]; intros x Hx; by apply elem_of_nil in Hx).
    all: try (intros _; lia).
  - cbn [foldl]. set (st1 := ensure_entity se context st x).
    assert (Hst1 : (contains st.1 x = true ∧ st1 = st)
                   ∨ ((x ∉ get_entities st.1)
                      ∧ st1 = (add_entity st.1 x
                                 (Some (search_entity_info se st.2 x context).1),
                               (search_entity_info se st.2 x context).2))).
    { unfold st1, ensure_entity. destruct (contains st.1 x) eqn:Hc; [by left|].
      right. split; [|done]. intros Hin%contains_true. congruence. }
    assert (Hr1 : reachable st1.1).
    { destruct Hst1 as [[_ ->]|[_ ->]]; [done|by constructor]. }
    destruct (IH st1 Hr1) as (Hb & Hin & Hrel & Hoff & Hon).
    { intros y Hy. apply Hnames. by right. }
    assert (Hb1 : built_from names added st.1 st1.1).
    { destruct Hst1 as [[_ ->]|[Hx ->]]; [by apply built_from_refl|].
      apply built_from_add_entity; [done|done|]. apply Hnames. left. }
    assert (Hx1 : x ∈ get_entities st1.1).
    { destruct Hst1 as [[Hc ->]|[Hx ->]]; [by apply contains_true|].
      cbn [fst]. rewrite add_entity_new_entities by done.
      apply elem_of_app. right. left. }
    split_and!.
    + by eapply built_from_trans.
    + intros y [->|Hy]%elem_of_cons; [|by apply Hin].
      by eapply built_from_entities.
    + rewrite Hrel. destruct Hst1 as [[_ ->]|[Hx ->]]; [done|].
      cbn [fst]. apply add_entity_relationships. by apply reachable_wf.
    + intros Hc. destruct (Hoff Hc) as [Hn Hmd]. split.
      * rewrite Hn. destruct Hst1 as [[_ ->]|[Hx ->]]; [done|].
        cbn [snd]. by rewrite search_entity_info_offline.
      * intros y Hy Hnew. destruct (decide (y = x)) as [->|Hne].
        -- destruct Hb as (_ & _ & _ & Hkeep & _). rewrite (Hkeep x Hx1).
           destruct Hst1 as [[Hcx _]|[_ ->]];
             [by apply contains_true in Hcx|].
           cbn [fst]. rewrite search_entity_info_offline by done. cbn [fst].
           unfold stored_metadata, add_entity. cbn.
           by rewrite lookup_insert_eq.
        -- apply elem_of_cons in Hy as [?|Hy]; [done|].
           apply Hmd; [done|].
           destruct Hst1 as [[_ ->]|[Hx ->]]; [done|].
           cbn [fst]. rewrite add_entity_new_entities by done.
           rewrite elem_of_app, list_elem_of_singleton.
           intros [?|?]; [by apply Hnew|by apply Hne].
    + intros Hc. specialize (Hon Hc).
      destruct Hst1 as [[_ Heq]|[Hx Heq]]; rewrite Heq in Hon |- *; [done|].
      cbn [fst snd] in Hon. rewrite add_entity_new_entities in Hon by done.
      rewrite (proj2 (search_entity_info_online se context st.2 x Hc)) in Hon |- *.
      rewrite length_app in Hon. cbn in Hon. lia.
Qed.

Lemma add_analyzed_loop (threshold : R) names (added : nx.edge → Prop)
    (rels : list rel.info) (kg : KnowledgeGraph) :
  reachable kg →
  (∀ r, r ∈ rels → Rleb threshold (rel.weight r) = true →
     let d :=
       nx.Attrs (Rmax 0 (Rmin 1 (rel.weight r))) (rel.relationship_type r)
         [("description", JStr (rel.description r));
          ("confidence", JNum (default (5 / 10)%R (rel.confidence r)))] in
     rel.entity1 r ∈ names ∧ rel.entity2 r ∈ names
     ∧ added (rel.entity1 r, rel.entity2 r, d)
     ∧ added (rel.entity2 r, rel.entity1 r, d)) →
  built_from names added kg (foldl (add_analyzed threshold) kg rels).
Proof.
  revert kg. induction rels as [|r rels IH]; intros kg Hr Hrels.
  - by apply built_from_refl.
  - cbn [foldl]. set (kg1 := add_analyzed threshold kg r).
    assert (Hb1 : built_from names added kg kg1).
    { unfold kg1, add_analyzed.
      destruct (Rleb threshold (rel.weight r)) eqn:Hth;
        [|by apply built_from_refl].
      destruct (Hrels r ltac:(left) Hth) as (H1 & H2 & Hadd1 & Hadd2).
      assert (built_from names added kg
                (add_relationship kg (rel.entity1 r) (rel.entity2 r)
                   (rel.weight r) (rel.relationship_type r)
                   (Some [("description", JStr (rel.description r));
                          ("confidence",
                           JNum (default (5 / 10)%R (rel.confidence r)))])))
        as Hfirst by (by apply built_from_add_relationship).
      cbv zeta. destruct (rel.bidirectional r); [|done].
      eapply built_from_trans; [exact Hfirst|].
      apply built_from_add_relationship; [apply Hfirst|done..]. }
    eapply built_from_trans; [exact Hb1|].
    apply IH; [apply Hb1|]. intros r' Hr'. apply Hrels. by right.
Qed.

End builder_facts.
Section expansion_facts.
Context (se : SearchEngine) (context : string) (max_per_entity : Z).

Lemma discover_related_entities_offline n entity :
  client se = None →
  discover_related_entities se n entity context max_per_entity = ([], n).
Proof. intros Hc. unfold discover_related_entities. by rewrite Hc. Qed.

Lemma discover_into_offline (st : gset string * nat) (l : list string) :
  client se = None → foldl (discover_into se context max_per_entity) st l = st.
Proof.
  intros Hc. revert st. induction l as [|e l IH]; intros st; [done|].
  cbn [foldl]. unfold discover_into at 2.
  rewrite discover_related_entities_offline by done. cbn.
  rewrite (right_id_L ∅ (∪)). rewrite IH. by destruct st.
Qed.

Lemma expand_levels_offline (n : nat) (all_entities current_level : gset string)
    (requests : nat) :
  client se = None →
  expand_levels se context max_per_entity n all_entities current_level requests
  = (all_entities, requests).
Proof.
  intros Hc. destruct n; [done|]. cbn [expand_levels].
  rewrite discover_into_offline by done. cbn.
  rewrite empty_difference_L, bool_decide_eq_true_2 by done.
  by rewrite (right_id_L ∅ (∪)).
Qed.

Lemma expand_levels_grows (n : nat) (all_entities current_level : gset string)
    (requests : nat) :
  all_entities
  ⊆ (expand_levels se context max_per_entity n all_entities current_level
       requests).1.
Proof.
  revert all_entities current_level requests.
  induction n as [|n IH]; intros all_entities current_level requests; [done|].
  cbn [expand_levels]. cbv zeta. case_bool_decide.
  - cbn. apply union_subseteq_l.
  - etrans; [|apply IH]. apply union_subseteq_l.
Qed.

End expansion_facts.

Lemma built_from_names names names' added kg kg' :
  (∀ x, x ∈ names → x ∈ names') →
  built_from names added kg kg' → built_from names' added kg kg'.
Proof.
  intros Hsub (Hr & Hp & Hn & Hm & He & Hk). split_and!; try done.
  intros x Hx. destruct (Hn x Hx); auto.
Qed.

(** The builder on an engine without client *)
Lemma build_graph_offline (se : SearchEngine) (kg : KnowledgeGraph)
    (requests : nat) (entities : list string) (context : string)
    (threshold : R) :
  client se = None → reachable kg →
  let r := build_graph_from_entities se kg requests entities context threshold in
  r.2 = requests
  ∧ reachable r.1
  ∧ get_relationships r.1 = get_relationships kg
  ∧ get_entities kg `prefix_of` get_entities r.1
  ∧ (∀ x, x ∈ get_entities r.1 ↔ x ∈ get_entities kg ∨ x ∈ entities)
  ∧ (∀ x, x ∈ get_entities kg → stored_metadata r.1 x = stored_metadata kg x)
  ∧ (∀ x, x ∈ entities → x ∉ get_entities kg →
       stored_metadata r.1 x
       = [("entity", JStr x);
          ("description", JStr ("Information about " +:+ x));
          ("context", JStr context)]).
Proof.
  intros Hc Hr r. subst r. unfold build_graph_from_entities.
  destruct (ensure_entities se context entities (λ _, False) entities
              (kg, requests) Hr ltac:(done))
    as (Hb & Hin & Hrel & Hoff & _).
  destruct (Hoff Hc) as [Hn Hmd]. cbn [fst snd] in *.
  set (st := foldl (ensure_entity se context) (kg, requests) entities) in *.
  cbv zeta. unfold batch_analyze_relationships.
  destruct (batch_loop se context entities ([], st.2)) as (new & Hnew & _ & Hboff & _).
  destruct (Hboff Hc) as [-> Hbn]. cbn [fst snd] in Hnew, Hbn.
  rewrite Hnew, Hbn. cbn [foldl fst snd].
  pose proof (λ x, built_from_entities _ _ _ _ x Hb) as Hold.
  destruct Hb as (Hr' & Hp & Hnames & Hkeep & _).
  split_and!; try done.
  intros x. split; [apply Hnames|].
  intros [Hx|Hx]; [by apply Hold|by apply Hin].
Qed.

(** X21: an engine without client (no API key) makes no request and finds
    nothing: [batch_analyze_relationships] keeps no analysis, because the
    default analysis has no ['exists'] key, [discover_related_entities]
    returns no entity, and [expand_entity_network] returns the seed
    entities, each once.  So both builders of the graph,
    [build_graph_from_entities] and [expand_graph], add the entities that
    are missing, each with the generated description as metadata, keep the
    entities the graph has with their metadata, and add no relationship. *)
Theorem offline_engine_adds_no_relationship (se : SearchEngine)
    (kg : KnowledgeGraph) (requests : nat) (entities : list string)
    (context : string) (threshold : R) (expansion_order max_per_entity : Z) :
  client se = None → reachable kg →
  let built :=
    build_graph_from_entities se kg requests entities context threshold in
  let expanded :=
    expand_graph se kg requests entities context expansion_order
      max_per_entity threshold in
  let all_entities :=
    expand_entity_network se requests entities context expansion_order
      max_per_entity in
  batch_analyze_relationships se requests entities context = ([], requests)
  ∧ (∀ entity,
       discover_related_entities se requests entity context max_per_entity
       = ([], requests))
  ∧ all_entities.2 = requests
  ∧ NoDup all_entities.1
  ∧ (∀ x, x ∈ all_entities.1 ↔ x ∈ entities)
  ∧ (∀ r, r ∈ [built; expanded] →
       r.2 = requests
       ∧ reachable r.1
       ∧ get_relationships r.1 = get_relationships kg
       ∧ get_entities kg `prefix_of` get_entities r.1
       ∧ (∀ x, x ∈ get_entities r.1 ↔ x ∈ get_entities kg ∨ x ∈ entities)
       ∧ (∀ x, x ∈ get_entities kg →
            stored_metadata r.1 x = stored_metadata kg x)
       ∧ (∀ x, x ∈ entities → x ∉ get_entities kg →
            stored_metadata r.1 x
            = [("entity", JStr x);
               ("description", JStr ("Information about " +:+ x));
               ("context", JStr context)])).
Proof.
  intros Hc Hr built expanded all_entities.
  assert (Hall : all_entities = (elements (list_to_set entities : gset string),
                                 requests)).
  { unfold all_entities, expand_entity_network.
    by rewrite expand_levels_offline. }
  assert (Hmem : ∀ x, x ∈ all_entities.1 ↔ x ∈ entities).
  { intros x. rewrite Hall. cbn. by rewrite elem_of_elements, elem_of_list_to_set. }
  split_and!.
  - unfold batch_analyze_relationships.
    destruct (batch_loop se context entities ([], requests))
      as (new & Hnew & _ & Hoff & _).
    destruct (Hoff Hc) as [-> Hn]. cbn in Hnew, Hn.
    by apply injective_projections.
  - intros entity. by apply discover_related_entities_offline.
  - by rewrite Hall.
  - rewrite Hall. apply NoDup_elements.
  - done.
  - intros r Hin. rewrite !elem_of_cons, elem_of_nil in Hin.
    destruct Hin as [->|[->|[]]].
    + by apply build_graph_offline.
    + unfold expanded, expand_graph. fold all_entities.
      destruct (build_graph_offline se kg all_entities.2 all_entities.1
                  context threshold Hc Hr)
        as (H1 & H2 & H3 & H4 & H5 & H6 & H7).
      split_and!; try done.
      * rewrite H1. by rewrite Hall.
      * intros x. rewrite H5. by rewrite Hmem.
      * intros x Hx. apply H7. by apply Hmem.
Qed.

(** X21, for an engine without client, the empty graph and the entities A
    and B. *)
Lemma offline_engine_adds_no_relationship_witness :
  let se := MkSearchEngine None in
  let built := build_graph_from_entities se kg_init 0 ["A"; "B"] "" (2 / 10) in
  batch_analyze_relationships se 0 ["A"; "B"] "" = ([], 0)
  ∧ get_relationships built.1 = get_relationships kg_init
  ∧ built.2 = 0.
Proof.
  intros se built.
  destruct (offline_engine_adds_no_relationship se kg_init 0 ["A"; "B"] ""
              (2 / 10) 1 3 eq_refl reachable_init)
    as (H1 & _ & _ & _ & _ & H2).
  destruct (H2 built ltac:(left)) as (H3 & _ & H4 & _).
  by split_and!.
Defined.

(** X22: whatever the remote answers, [build_graph_from_entities] on a
    graph built through the mutators ends with such a graph that holds all
    the listed entities.  The entities the graph had stay in front, in their
    order and with their metadata, and the only new entities are listed
    ones; no relationship is lost, and a relationship that is new or changed
    joins two listed entities with a weight above 0.1, of at least
    [min(1, threshold)] and at most 1, and with a description and a
    confidence as metadata.  An engine with a client makes one request for
    every entity it adds and one for every pair of positions of the list.
    [expand_graph] keeps the graph in the same way and ends with all the
    seed entities in it. *)
Theorem build_graph_from_entities_spec (se : SearchEngine)
    (kg : KnowledgeGraph) (requests : nat) (entities : list string)
    (context : string) (threshold : R) :
  reachable kg →
  let added := λ names (e : nx.edge),
    e.1.1 ∈ names ∧ e.1.2 ∈ names
    ∧ (1 / 10 < nx.weight e.2 <= 1)%R
    ∧ (Rmin 1 threshold <= nx.weight e.2)%R
    ∧ ∃ description confidence,
        nx.metadata e.2
        = [("description", JStr description); ("confidence", JNum confidence)] in
  (let r := build_graph_from_entities se kg requests entities context threshold in
   built_from entities (added entities) kg r.1
   ∧ (∀ x, x ∈ entities → x ∈ get_entities r.1)
   ∧ requests ≤ r.2
   ∧ (is_Some (client se) →
      r.2 + length (get_entities kg)
      = requests + length (get_entities r.1)
        + length entities * (length entities - 1) / 2))
  ∧ (∀ expansion_order max_per_entity,
       let all_entities :=
         expand_entity_network se requests entities context expansion_order
           max_per_entity in
       let r :=
         expand_graph se kg requests entities context expansion_order
           max_per_entity threshold in
       NoDup all_entities.1
       ∧ (∀ x, x ∈ entities → x ∈ all_entities.1)
       ∧ built_from all_entities.1 (added all_entities.1) kg r.1
       ∧ (∀ x, x ∈ all_entities.1 → x ∈ get_entities r.1)).
Proof.
  intros Hr added.
  assert (Hbuild : ∀ n (names : list string),
            let r := build_graph_from_entities se kg n names context threshold in
            built_from names (added names) kg r.1
            ∧ (∀ x, x ∈ names → x ∈ get_entities r.1)
            ∧ n ≤ r.2
            ∧ (is_Some (client se) →
               r.2 + length (get_entities kg)
               = n + length (get_entities r.1)
                 + length names * (length names - 1) / 2)).
  { clear requests entities. intros requests entities r. subst r.
    unfold build_graph_from_entities.
    destruct (ensure_entities se context entities (added entities) entities
                (kg, requests) Hr ltac:(done))
      as (Hb & Hin & Hrel & Hoff & Hon).
    cbn [fst snd] in *.
    set (st := foldl (ensure_entity se context) (kg, requests) entities) in *.
    cbv zeta. unfold batch_analyze_relationships.
    destruct (batch_loop se context entities ([], st.2))
      as (new & Hnew & Hall & Hboff & Hbon).
    cbn [fst snd app] in Hnew, Hboff, Hbon.
    set (rels := batch_analyze_relationships_from se context entities ([], st.2))
      in *.
    rewrite Hnew.
    assert (Hb3 : built_from entities (added entities) st.1
                    (foldl (add_analyzed threshold) st.1 new)).
    { apply add_analyzed_loop; [apply Hb|].
      intros r Hrin Hth d. destruct (Hall r Hrin) as (H1 & H2 & _ & Hw).
      split; [done|]. split; [done|].
      assert (Hweight : (1 / 10 < Rmax 0 (Rmin 1 (rel.weight r)) <= 1)%R
                        ∧ (Rmin 1 threshold <= Rmax 0 (Rmin 1 (rel.weight r)))%R).
      { unfold Rleb in Hth. destruct (Rle_dec threshold (rel.weight r)); [|done].
        unfold Rmax, Rmin.
        repeat (destruct (Rle_dec _ _)); split; lra. }
      destruct Hweight as [Hw1 Hw2].
      split; (split; [done|]; split; [done|]; split; [done|]; split; [done|];
              cbn; eauto). }
    pose proof (built_from_trans _ _ _ _ _ Hb Hb3) as Hfinal.
    assert (Hsame : get_entities (foldl (add_analyzed threshold) st.1 new)
                    = get_entities st.1).
    { apply prefix_full.
      - apply Hb3.
      - apply (reachable_wf _ (proj1 Hb3)).
      - intros x Hx. destruct Hb3 as (_ & _ & Hn & _).
        destruct (Hn x Hx) as [?|?]; [done|by apply Hin]. }
    cbn [fst snd].
    assert (Hcount : is_Some (client se) →
              rels.2 + length (get_entities kg)
              = requests + length (get_entities st.1)
                + length entities * (length entities - 1) / 2).
    { intros Hc. rewrite (Hbon Hc). specialize (Hon Hc). lia. }
    split; [done|]. split; [by intros x Hx; rewrite Hsame; apply Hin|].
    split; [|by rewrite Hsame].
    destruct (client se) as [c|] eqn:Hc.
    - specialize (Hcount ltac:(eauto)).
      assert (length (get_entities kg) ≤ length (get_entities st.1)).
      { destruct Hb as (_ & [k ->] & _). rewrite length_app. lia. }
      lia.
    - destruct (Hboff eq_refl) as [_ ->]. by destruct (Hoff eq_refl) as [-> _]. }
  split; [apply Hbuild|].
  intros expansion_order max_per_entity all_entities r.
  assert (Hseeds : ∀ x, x ∈ entities → x ∈ all_entities.1).
  { intros x Hx. unfold all_entities, expand_entity_network. cbn [fst].
    apply elem_of_elements.
    apply (expand_levels_grows se context max_per_entity).
    by apply elem_of_list_to_set. }
  split; [apply NoDup_elements|]. split; [done|].
  destruct (Hbuild all_entities.2 all_entities.1) as (H1 & H2 & _).
  by split.
Qed.

(** X22, for an engine whose remote finds A strongly related to B. *)
Lemma build_graph_from_entities_spec_witness :
  let answer :=
    remote.MkRelationship (Some true) (Some "works_with") (Some (9 / 10)%R)
      None None None in
  let se :=
    MkSearchEngine
      (Some (remote.MkClient (λ _ _ _, inl "about") (λ _ _ _ _, inl answer)
               (λ _ _ _ _, inl []))) in
  let r := build_graph_from_entities se kg_init 0 ["A"; "B"] "" (2 / 10) in
  (∀ x, x ∈ ["A"; "B"] → x ∈ get_entities r.1)
  ∧ r.2 + length (get_entities kg_init)
    = 0 + length (get_entities r.1) + 2 * (2 - 1) / 2.
Proof.
  intros answer se r.
  destruct (build_graph_from_entities_spec se kg_init 0 ["A"; "B"] "" (2 / 10)
              reachable_init) as [(_ & H1 & _ & H2) _].
  split; [exact H1|]. apply H2. by eexists.
Defined.

(** * The requests of the engine *)

Section request_facts.
Context (se : SearchEngine) (context : string).



End request_facts.



Lemma discover_related_entities_requests (se : SearchEngine) (context : string)
    (max_per_entity : Z) (n : nat) (entity : string) :
  n ≤ (discover_related_entities se n entity context max_per_entity).2.
Proof.
  unfold discover_related_entities. destruct (client se) as [c|]; [|done].
  destruct (remote.related c n entity context max_per_entity); cbn; lia.
Qed.

Section expansion_requests.
Context (se : SearchEngine) (context : string) (max_per_entity : Z).
Context (D : gset string).
Hypothesis remote_names : ∀ c n e l,
  client se = Some c →
  remote.related c n e context max_per_entity = inl l →
  ∀ x, x ∈ slice_to l max_per_entity → x ∈ D.

Lemma discover_related_entities_named n entity x :
  x ∈ (discover_related_entities se n entity context max_per_entity).1 → x ∈ D.
Proof using remote_names.
  unfold discover_related_entities.
  destruct (client se) as [c|] eqn:Hc; [|by intros ?%elem_of_nil].
  destruct (remote.related c n entity context max_per_entity) as [l|] eqn:Hl;
    [|by intros ?%elem_of_nil].
  cbn. by apply (remote_names c n entity l).
Qed.

Lemma discover_into_named (l : list string) (st : gset string * nat) :
  st.2 ≤ (foldl (discover_into se context max_per_entity) st l).2
  ∧ (foldl (discover_into se context max_per_entity) st l).1 ⊆ st.1 ∪ D.
Proof using remote_names.
  revert st. induction l as [|e l IH]; intros st.
  - split; [done|apply union_subseteq_l].
  - cbn [foldl]. destruct (IH (discover_into se context max_per_entity st e))
      as [Hn Hs].
    split.
    + etrans; [|exact Hn]. apply discover_related_entities_requests.
    + etrans; [exact Hs|]. unfold discover_into. cbn [fst].
      intros x [[Hx|Hx]%elem_of_union|Hx]%elem_of_union; apply elem_of_union;
        [by left|right|by right].
      apply elem_of_list_to_set in Hx.
      by eapply discover_related_entities_named.
Qed.

Lemma expand_levels_named (n : nat) (all_entities current_level : gset string)
    (requests : nat) :
  requests
  ≤ (expand_levels se context max_per_entity n all_entities current_level
       requests).2
  ∧ (expand_levels se context max_per_entity n all_entities current_level
       requests).1 ⊆ all_entities ∪ D.
Proof using remote_names.
  revert all_entities current_level requests.
  induction n as [|n IH]; intros all_entities current_level requests.
  - split; [done|apply union_subseteq_l].
  - cbn [expand_levels]. cbv zeta.
    destruct (discover_into_named (elements current_level) (∅, requests))
      as [Hn Hs]. cbn [fst snd] in Hn, Hs.
    set (st := foldl (discover_into se context max_per_entity) (∅, requests)
                 (elements current_level)) in *.
    assert (Hall : all_entities ∪ st.1 ∖ all_entities ⊆ all_entities ∪ D).
    { intros x [Hx|[Hx _]%elem_of_difference]%elem_of_union;
        apply elem_of_union; [by left|].
      apply Hs in Hx. apply elem_of_union in Hx as [Hx|Hx]; [|by right].
      by apply elem_of_empty in Hx. }
    case_bool_decide.
    + by split.
    + destruct (IH (all_entities ∪ st.1 ∖ all_entities) (st.1 ∖ all_entities)
                  st.2) as [Hn' Hs'].
      split; [lia|]. etrans; [exact Hs'|].
      intros x [Hx|Hx]%elem_of_union; [by apply Hall|].
      apply elem_of_union. by right.
Qed.

End expansion_requests.

(** X24: [expand_entity_network] returns every seed entity and no entity
    twice, and the number of requests never goes down.  When
    [expansion_order] is not positive, or the engine has no client, it makes
    no request and returns the seed entities only.  Whatever it returns
    beyond the seeds was named by the remote: when the related entities the
    engine accepts from the remote all lie in a set, so does every returned
    entity that is no seed. *)
Theorem expand_entity_network_spec (se : SearchEngine) (requests : nat)
    (seed_entities : list string) (context : string)
    (expansion_order max_per_entity : Z) :
  let r :=
    expand_entity_network se requests seed_entities context expansion_order
      max_per_entity in
  NoDup r.1
  ∧ (∀ x, x ∈ seed_entities → x ∈ r.1)
  ∧ requests ≤ r.2
  ∧ ((expansion_order ≤ 0)%Z ∨ client se = None →
     r.2 = requests ∧ ∀ x, x ∈ r.1 ↔ x ∈ seed_entities)
  ∧ (∀ D : gset string,
       (∀ c n e l,
          client se = Some c →
          remote.related c n e context max_per_entity = inl l →
          ∀ x, x ∈ slice_to l max_per_entity → x ∈ D) →
       ∀ x, x ∈ r.1 → x ∈ seed_entities ∨ x ∈ D).
Proof.
  intros r. subst r. unfold expand_entity_network. cbn [fst snd].
  split; [apply NoDup_elements|]. split.
  { intros x Hx. apply elem_of_elements.
    apply (expand_levels_grows se context max_per_entity).
    by apply elem_of_list_to_set. }
  split.
  { destruct (client se) as [c|] eqn:Hc.
    - assert (Hreq : ∀ n (all cur : gset string) k,
                k ≤ (expand_levels se context max_per_entity n all cur k).2).
      { induction n as [|n IH]; intros all cur k; [done|].
        cbn [expand_levels]. cbv zeta.
        assert (Hf : ∀ l (st : gset string * nat),
                  st.2 ≤ (foldl (discover_into se context max_per_entity) st l).2).
        { induction l as [|e l IHl]; intros st; [done|].
          cbn [foldl]. etrans; [|apply IHl].
          apply discover_related_entities_requests. }
        specialize (Hf (elements cur) (∅, k)). cbn [snd] in Hf.
        case_bool_decide; [done|]. etrans; [exact Hf|apply IH]. }
      apply Hreq.
    - by rewrite expand_levels_offline. }
  split.
  { intros [Ho|Hc].
    - replace (Z.to_nat expansion_order) with 0 by lia. cbn.
      split; [done|]. intros x. by rewrite elem_of_elements, elem_of_list_to_set.
    - rewrite expand_levels_offline by done. cbn.
      split; [done|]. intros x. by rewrite elem_of_elements, elem_of_list_to_set. }
  intros D HD x Hx. apply elem_of_elements in Hx.
  destruct (expand_levels_named se context max_per_entity D HD
              (Z.to_nat expansion_order) (list_to_set seed_entities)
              (list_to_set seed_entities) requests) as [_ Hs].
  apply Hs in Hx. apply elem_of_union in Hx as [Hx|Hx]; [left|by right].
  by apply elem_of_list_to_set in Hx.
Qed.

(** X24, for a remote that names B for every entity. *)
Lemma expand_entity_network_spec_witness :
  let se :=
    MkSearchEngine
      (Some (remote.MkClient (λ _ _ _, inl "about")
               (λ _ _ _ _, inr "no analysis") (λ _ _ _ _, inl ["B"]))) in
  let r := expand_entity_network se 0 ["A"] "" 2 3 in
  Forall (λ x, x ∈ ["A"] ∨ x ∈ ({["B"]} : gset string)) r.1
  ∧ (expand_entity_network se 0 ["A"] "" 0 3).2 = 0.
Proof.
  intros se r. split.
  - destruct (expand_entity_network_spec se 0 ["A"] "" 2 3)
      as (_ & _ & _ & _ & H).
    apply Forall_forall. apply (H {["B"]}).
    intros c n e l [= <-] [= <-] x Hx. cbn in Hx.
    apply list_elem_of_singleton in Hx as ->. by apply elem_of_singleton.
  - destruct (expand_entity_network_spec se 0 ["A"] "" 0 3)
      as (_ & _ & _ & H & _).
    apply H. left. lia.
Defined.

(** * Density *)

Lemma filter_other_length (N : list string) (x : string) :
  NoDup N → x ∈ N → length (filter (λ y, y ≠ x) N) + 1 = length N.
Proof.
  induction 1 as [|y N Hy HN IH]; intros Hx; [by apply elem_of_nil in Hx|].
  rewrite filter_cons. destruct (decide (y = x)) as [->|Hne].
  - rewrite decide_False by (by intros ?). simpl.
    assert (filter (λ y, y ≠ x) N = N) as ->; [|lia].
    clear IH HN Hx. induction N as [|z N IH]; [done|].
    apply not_elem_of_cons in Hy as [Hz Hy].
    rewrite filter_cons, decide_True by done. by rewrite IH.
  - rewrite decide_True by done. simpl.
    apply elem_of_cons in Hx as [?|Hx]; [done|]. specialize (IH Hx). lia.
Qed.

Lemma sum_list_const {A} (l : list A) (k : nat) :
  sum_list ((λ _, k) <$> l) = length l * k.
Proof. induction l as [|x l IH]; csimpl; lia. Qed.

(** The ordered pairs of different nodes, and all the ordered pairs *)
Lemma off_diagonal_length (N : list string) :
  NoDup N →
  length (x ← N; (λ y, (x, y)) <$> filter (λ y, y ≠ x) N)
  = length N * (length N - 1).
Proof.
  intros HN. rewrite sum_list_bind_length.
  rewrite (fmap_ext_in _ (λ _, length N - 1)).
  - apply sum_list_const.
  - intros x Hx. rewrite length_fmap.
    pose proof (filter_other_length N x HN Hx). lia.
Qed.

Lemma all_pairs_length (N : list string) :
  length (x ← N; (λ y, (x, y)) <$> N) = length N * length N.
Proof.
  rewrite sum_list_bind_length.
  rewrite (fmap_ext_in _ (λ _, length N)).
  - apply sum_list_const.
  - intros x _. by rewrite length_fmap.
Qed.

Lemma relationships_count (kg : KnowledgeGraph) :
  wf kg →
  length (get_relationships kg) ≤ length (get_entities kg) * length (get_entities kg)
  ∧ ((∀ e, e ∈ get_relationships kg → e.1.1 ≠ e.1.2) →
     length (get_relationships kg)
     ≤ length (get_entities kg) * (length (get_entities kg) - 1)).
Proof.
  intros Hwf. unfold get_relationships, get_entities.
  pose proof (edges_view_perm kg Hwf) as Hperm.
  rewrite (Permutation_length Hperm).
  rewrite <- (length_fmap fst (nx.edges (graph kg))).
  split.
  - rewrite <- all_pairs_length.
    apply submseteq_length, NoDup_submseteq; [apply Hwf|].
    intros [u v] Hin. apply list_elem_of_fmap in Hin as (e & Heq & He).
    destruct (wf_ends kg Hwf e He) as [Hu Hv]. rewrite <- Heq in Hu, Hv.
    apply list_elem_of_bind. exists u. split; [|done].
    apply list_elem_of_fmap. by exists v.
  - intros Hloop. rewrite <- off_diagonal_length by apply Hwf.
    apply submseteq_length, NoDup_submseteq; [apply Hwf|].
    intros [u v] Hin. apply list_elem_of_fmap in Hin as (e & Heq & He).
    destruct (wf_ends kg Hwf e He) as [Hu Hv].
    assert (e.1.1 ≠ e.1.2) as Hne by (apply Hloop; by rewrite Hperm).
    rewrite <- Heq in Hu, Hv, Hne. cbn in Hu, Hv, Hne.
    apply list_elem_of_bind. exists u. split; [|done].
    apply list_elem_of_fmap. exists v. split; [done|].
    apply list_elem_of_filter. split; [by intros ->|done].
Qed.

(** X25: in a graph built through the mutators the density is 0 exactly
    when there is no relationship or one entity at most, and lies between 0
    and 2; it is at most 1 when no entity is related to itself.  With
    relationships of entities to themselves it can exceed 1: two entities
    with all four relationships have the density 2. *)
Theorem calculate_graph_density_bounds (kg : KnowledgeGraph) :
  reachable kg →
  (0 <= calculate_graph_density kg <= 2)%R
  ∧ (calculate_graph_density kg = 0%R
     ↔ get_relationships kg = [] ∨ length (get_entities kg) ≤ 1)
  ∧ ((∀ e, e ∈ get_relationships kg → e.1.1 ≠ e.1.2) →
     (calculate_graph_density kg <= 1)%R)
  ∧ (let kg2 :=
       foldl (λ kg (st : string * string), add_relationship kg st.1 st.2 1 "r" None)
         kg_init [("A", "A"); ("A", "B"); ("B", "A"); ("B", "B")] in
     reachable kg2 ∧ calculate_graph_density kg2 = 2%R).
Proof.
  intros Hr. pose proof (reachable_wf kg Hr) as Hwf.
  destruct (relationships_count kg Hwf) as [Hall Hoff].
  unfold calculate_graph_density, density.
  fold (get_relationships kg) (get_entities kg).
  set (m := length (get_relationships kg)) in *.
  set (n := length (get_entities kg)) in *.
  assert (Hpos : ¬ (m = 0 ∨ n ≤ 1) →
            (0 < INR m)%R ∧ (0 < INR (n * (n - 1)))%R
            ∧ 1 ≤ n * (n - 1) ∧ 2 ≤ n ∧ 1 ≤ m).
  { intros Hn. assert (1 ≤ m ∧ 2 ≤ n) as [Hm Hn2] by lia.
    assert (1 ≤ n * (n - 1)) by nia.
    split_and!; try done; apply (lt_INR 0); lia. }
  assert (Hcases : ((m =? 0) || (n <=? 1) = true ∧ (m = 0 ∨ n ≤ 1))
                   ∨ ((m =? 0) || (n <=? 1) = false ∧ ¬ (m = 0 ∨ n ≤ 1))).
  { destruct (Nat.eqb_spec m 0); [left; by auto|].
    destruct (Nat.leb_spec n 1); [left; by auto|]. right. split; [done|lia]. }
  split; [|split; [|split]].
  - destruct Hcases as [[-> _]|[-> Hn]]; [lra|].
    destruct (Hpos Hn) as (Hm & Hd & Hd1 & Hn2 & _).
    split; [apply Rlt_le, Rdiv_lt_0_compat; done|].
    apply (Rmult_le_reg_r (INR (n * (n - 1)))); [done|].
    unfold Rdiv. rewrite Rmult_assoc, Rinv_l by lra. rewrite Rmult_1_r.
    change 2%R with (INR 2). rewrite <- mult_INR. apply le_INR. nia.
  - destruct Hcases as [[-> Hz]|[-> Hn]].
    + split; [intros _|done]. destruct Hz as [Hz|?]; [left|by right].
      subst m. by destruct (get_relationships kg).
    + destruct (Hpos Hn) as (Hm & Hd & _ & _ & Hm1). split.
      * intros Hzero. pose proof (Rdiv_lt_0_compat _ _ Hm Hd). lra.
      * intros [Hnil|Hle]; [|lia]. subst m. rewrite Hnil in Hm1. simpl in Hm1. lia.
  - intros Hloop. specialize (Hoff Hloop).
    destruct Hcases as [[-> _]|[-> Hn]]; [lra|].
    destruct (Hpos Hn) as (Hm & Hd & _).
    apply (Rmult_le_reg_r (INR (n * (n - 1)))); [done|].
    unfold Rdiv. rewrite Rmult_assoc, Rinv_l by lra. rewrite Rmult_1_r, Rmult_1_l.
    by apply le_INR.
  - split.
    + cbn. repeat constructor.
    + vm_compute. lra.
Qed.

(** X25, for one relationship between two entities. *)
Lemma calculate_graph_density_bounds_witness :
  let kg := add_relationship kg_init "A" "B" 1 "r" None in
  (0 <= calculate_graph_density kg <= 2)%R.
Proof.
  intros kg.
  apply (calculate_graph_density_bounds kg).
  apply reachable_add_relationship, reachable_init.
Defined.
(** * Connectivity of the whole graph *)

Lemma connected_components_head (U : nx.Graph) (v : string) (l : list string) :
  nx.unodes U = v :: l →
  head (nx.connected_components U) = Some (nx.component U v).
Proof.
  intros HU. unfold nx.connected_components. rewrite HU. cbn [foldl].
  apply components_head.
  rewrite bool_decide_eq_false_2 by apply not_elem_of_empty. done.
Qed.

Lemma component_full (U : nx.Graph) (v : string) :
  graph_ok U → v ∈ nx.unodes U →
  size (nx.component U v) = length (nx.unodes U)
  ↔ ∀ x, x ∈ nx.unodes U → connected U v x.
Proof.
  intros HU Hv.
  assert (Hsub : nx.component U v ⊆ list_to_set (nx.unodes U)).
  { intros x Hx. apply elem_of_list_to_set.
    apply (connected_nodes U v x HU Hv). by apply elem_of_component. }
  rewrite <- (size_list_to_set (C := gset string) (nx.unodes U)) by apply HU.
  split.
  - intros Hsize x Hx. apply elem_of_component; [done..|].
    rewrite (set_subseteq_size_eq _ _ Hsub) by lia.
    by apply elem_of_list_to_set.
  - intros Hall. f_equal. apply set_eq. intros x. split; [apply Hsub|].
    intros Hx%elem_of_list_to_set. apply elem_of_component; auto.
Qed.

Lemma one_component (U : nx.Graph) (v : string) (l : list string) :
  graph_ok U → nx.unodes U = v :: l →
  nx.number_connected_components U = 1
  ↔ ∀ x, x ∈ nx.unodes U → connected U v x.
Proof.
  intros HU Hnodes.
  assert (Hv : v ∈ nx.unodes U) by (rewrite Hnodes; left).
  pose proof (connected_components_head U v l Hnodes) as Hhead.
  destruct (connected_components_spec U HU) as (HA & HB & HC).
  unfold nx.number_connected_components.
  destruct (nx.connected_components U) as [|c cs] eqn:Hcs; [done|].
  injection Hhead as ->. split.
  - intros Hlen x Hx. destruct cs; [|done].
    destruct (HB x Hx) as (c & ->%list_elem_of_singleton & Hxc).
    by apply elem_of_component in Hxc.
  - intros Hall. destruct cs as [|c2 cs]; [done|]. exfalso.
    destruct (HA c2 ltac:(right; left)) as (w & Hw & Hc2).
    apply (HC 0 1 (nx.component U v) c2 eq_refl eq_refl ltac:(done) w).
    + apply elem_of_component; auto.
    + apply Hc2, rtc_refl.
Qed.

(** X26: [calculate_diameter] raises the exception of [nx.is_connected],
    [NetworkXPointlessConcept], exactly for a graph without entities.  For a
    graph built through the mutators that has entities, the test
    [nx.is_connected] holds exactly when there is one connected component,
    that is when every entity is connected to the first; the diameter is
    [-1] when there are several components, whatever [nx.diameter] would
    do, and otherwise what [nx.diameter] returns, or [-1] when it raises. *)
Theorem calculate_diameter_spec (nx_diameter : nx.Graph → result Z)
    (kg : KnowledgeGraph) :
  reachable kg →
  let U := nx.to_undirected (graph kg) in
  (calculate_diameter nx_diameter kg = None ↔ get_entities kg = [])
  ∧ (∀ v l, get_entities kg = v :: l →
       (is_connected U = Some true ↔ nx.number_connected_components U = 1)
       ∧ (is_connected U = Some true
          ↔ ∀ x, x ∈ get_entities kg → connected U v x)
       ∧ (nx.number_connected_components U ≠ 1 →
          calculate_diameter nx_diameter kg = Some (-1)%Z)
       ∧ (nx.number_connected_components U = 1 →
          calculate_diameter nx_diameter kg
          = Some (match nx_diameter U with Ok d => d | Raise _ => (-1)%Z end))).
Proof.
  intros Hwf%reachable_wf U.
  pose proof (to_undirected_ok kg Hwf) as HU. fold U in HU.
  unfold calculate_diameter, is_connected. fold U.
  change (nx.unodes U) with (get_entities kg).
  split.
  { destruct (get_entities kg) as [|v l]; [done|]. cbn.
    split; [|done]. case_bool_decide; cbn; [|done].
    by destruct (nx_diameter U). }
  intros v l Hnodes. rewrite Hnodes.
  assert (Hv : v ∈ nx.unodes U)
    by (change (nx.unodes U) with (get_entities kg); rewrite Hnodes; left).
  pose proof (component_full U v HU Hv) as Hfull.
  pose proof (one_component U v l HU Hnodes) as Hone.
  change (nx.unodes U) with (get_entities kg) in Hfull, Hone.
  rewrite Hnodes in Hfull, Hone.
  assert (Hconn : Some (bool_decide (size (nx.component U v) = length (v :: l)))
                  = Some true
                  ↔ ∀ x, x ∈ v :: l → connected U v x).
  { rewrite <- Hfull. split.
    - intros [= Hb]. by apply bool_decide_eq_true in Hb.
    - intros Hs. by rewrite bool_decide_eq_true_2. }
  split; [by rewrite Hconn, Hone|]. split; [done|]. split.
  - intros Hn. rewrite bool_decide_eq_false_2; [done|].
    rewrite Hfull, <- Hone. done.
  - intros H1. rewrite bool_decide_eq_true_2 by (by rewrite Hfull, <- Hone).
    cbn. by destruct (nx_diameter U).
Qed.

(** X26, for the empty graph and for two entities apart. *)
Lemma calculate_diameter_spec_witness :
  let kg := add_entity (add_entity kg_init "A" None) "B" None in
  calculate_diameter (λ _, Ok 0%Z) kg_init = None
  ∧ calculate_diameter (λ _, Ok 0%Z) kg = Some (-1)%Z.
Proof.
  intros kg. split.
  - apply (calculate_diameter_spec (λ _, Ok 0%Z) kg_init reachable_init).
    done.
  - assert (reachable kg) as Hr by (do 2 apply reachable_add_entity; apply reachable_init).
    destruct (calculate_diameter_spec (λ _, Ok 0%Z) kg Hr) as [_ H].
    destruct (H "A" ["B"] ltac:(by vm_compute)) as (_ & _ & H3 & _).
    apply H3. by vm_compute.
Defined.

(** * The influence score and the relationships of the graph *)

Lemma Rsum_perm (l k : list R) : l ≡ₚ k → Rsum l = Rsum k.
Proof.
  induction 1 as [|x l k _ IH|x y l|l1 l2 l3 _ IH1 _ IH2]; unfold Rsum in *;
    simpl; (lra || congruence).
Qed.

Lemma mean_perm (l k : list R) : l ≡ₚ k → mean l = mean k.
Proof.
  intros Hp. unfold mean. by rewrite (Rsum_perm l k Hp), (Permutation_length Hp).
Qed.

Lemma filter_and_or {A} (P Q : A → Prop) `{!∀ x, Decision (P x)}
    `{!∀ x, Decision (Q x)} (l : list A) :
  filter P l ++ filter Q l
  ≡ₚ filter (λ x, P x ∧ Q x) l ++ filter (λ x, P x ∨ Q x) l.
Proof.
  induction l as [|x l IH]; [done|].
  rewrite !filter_cons.
  destruct (decide (P x)) as [HP|HP], (decide (Q x)) as [HQ|HQ].
  - rewrite decide_True, decide_True by auto. cbn.
    rewrite <- !Permutation_middle. by rewrite IH.
  - rewrite decide_False, decide_True by (auto || by intros [? ?]). cbn.
    rewrite <- !Permutation_middle. by rewrite IH.
  - rewrite decide_False, decide_True by (auto || by intros [? ?]).
    rewrite <- !Permutation_middle. by rewrite IH.
  - rewrite decide_False, decide_False by (by intros [? ?] || by intros [?|?]).
    done.
Qed.

(** The relationship of an entity to itself, if there is one *)
Lemma self_relationship (kg : KnowledgeGraph) (entity : string) :
  wf kg →
  filter (λ e : nx.edge, e.1.1 = entity ∧ e.1.2 = entity) (get_relationships kg)
  = match nx.get_edge (graph kg) entity entity with
    | Some d => [(entity, entity, d)]
    | None => []
    end.
Proof.
  intros Hwf. pose proof (relationships_keys_NoDup kg Hwf) as Hnd.
  assert (Hin : ∀ d, (entity, entity, d) ∈ get_relationships kg
                     ↔ nx.get_edge (graph kg) entity entity = Some d).
  { intros d. split; [|by apply get_edge_in_relationships].
    intros [He _]%elem_of_edges_view.
    by apply elem_of_lookup_edge; [apply Hwf|]. }
  revert Hin. generalize (nx.get_edge (graph kg) entity entity).
  induction (get_relationships kg) as [|[[u v] d] l IH]; intros o Hin.
  - destruct o as [d|]; [|done]. exfalso.
    apply (proj1 (elem_of_nil (entity, entity, d))). by apply Hin.
  - csimpl in Hnd. apply NoDup_cons in Hnd as [Hk Hnd].
    rewrite filter_cons. cbn [fst snd].
    destruct (decide (u = entity ∧ v = entity)) as [[-> ->]|Hne].
    + assert (o = Some d) as -> by (apply Hin; left).
      f_equal. apply filter_none. intros [[u v] d'] Hx [Hu Hv]. cbn in Hu, Hv.
      subst. apply Hk. apply list_elem_of_fmap. by exists (entity, entity, d').
    + apply IH; [done|]. intros d'. rewrite <- Hin, elem_of_cons.
      split; [by right|]. intros [[= -> -> ->]|?]; [|done]. by destruct Hne.
Qed.

Lemma connection_weights_code (kg : KnowledgeGraph) (entity : string) :
  wf kg → incident_weights kg entity ≡ₚ connection_weights kg entity.
Proof.
  intros Hwf. unfold incident_weights, connection_weights, weights_from,
    weights_to, get_relationships.
  destruct (decide (entity ∈ get_entities kg)) as [He|He].
  - rewrite outgoing_present, incoming_present by done.
    rewrite <- !list_fmap_compose. unfold nx.edges_view at 1.
    unfold nx.out_edges at 2.
    rewrite (out_edges_of_view _ _ _ (wf_nodes kg Hwf) He).
    apply Permutation_app; [done|].
    unfold nx.in_edges. by rewrite (edges_view_perm kg Hwf).
  - unfold get_entity_relationships, contains.
    rewrite (proj2 (has_node_false _ _) He). cbn.
    rewrite !filter_none; [done|..];
      intros e [Hin _]%elem_of_edges_view Heq;
      destruct (wf_ends kg Hwf e Hin) as [H1 H2]; apply He; by rewrite <- Heq.
Qed.

Lemma influence_score_connections (kg : KnowledgeGraph) (entity : string) :
  wf kg →
  get_entity_influence_score kg entity
  = influence (mean (connection_weights kg entity))
      (length (connection_weights kg entity)).
Proof.
  intros Hwf. rewrite influence_score_formula.
  unfold average_incident_weight, num_connections.
  pose proof (connection_weights_code kg entity Hwf) as Hp.
  change (Rsum (incident_weights kg entity)
          / INR (length (incident_weights kg entity)))%R
    with (mean (incident_weights kg entity)).
  by rewrite (mean_perm _ _ Hp), (Permutation_length Hp).
Qed.

Lemma connection_weights_bounds (kg : KnowledgeGraph) (entity : string) :
  wf kg → Forall (λ w, 0 <= w <= 1)%R (connection_weights kg entity).
Proof.
  intros Hwf. rewrite <- (connection_weights_code kg entity Hwf).
  by apply incident_weights_bounds.
Qed.

(** C5 as the specification words it fails for an entity that is related to
    itself: the graph with the one relationship from A to A, of weight 0.5,
    has one relationship incident to A, so the mean weight is 0.5 and the
    count 1; the score is the one of the count 2, which is greater. *)
Lemma influence_score_self_relationship :
  let kg := add_relationship kg_init "A" "A" (5 / 10) "r" None in
  (λ e : nx.edge, nx.weight e.2) <$> incident_relationships kg "A" = [(5 / 10)%R]
  ∧ get_entity_influence_score kg "A" = influence (5 / 10) 2
  ∧ get_entity_influence_score kg "A" ≠ influence (5 / 10) 1.
Proof.
  intros kg.
  assert (Hw : Rmax 0 (Rmin 1 (5 / 10)) = (5 / 10)%R) by (apply clamp_unit_id; lra).
  assert (Hinc : (λ e : nx.edge, nx.weight e.2) <$> incident_relationships kg "A"
                 = [(5 / 10)%R]).
  { change ((λ e : nx.edge, nx.weight e.2) <$> incident_relationships kg "A")
      with [Rmax 0 (Rmin 1 (5 / 10))]. by rewrite Hw. }
  assert (Hscore : get_entity_influence_score kg "A" = influence (5 / 10) 2).
  { rewrite influence_score_formula.
    change (num_connections kg "A") with 2.
    unfold average_incident_weight.
    change (num_connections kg "A") with 2.
    change (incident_weights kg "A")
      with [Rmax 0 (Rmin 1 (5 / 10)); Rmax 0 (Rmin 1 (5 / 10))].
    rewrite Hw. f_equal. unfold Rsum. simpl. lra. }
  split; [done|]. split; [done|]. rewrite Hscore. unfold influence.
  assert (H23 : (ln 2 < ln 3)%R) by (apply ln_increasing; lra).
  assert (H0 : (0 <= ln 2)%R) by (rewrite <- ln_1; apply ln_le; lra).
  assert (H3 : (ln 3 <= 2)%R).
  { rewrite <- (ln_exp 2). apply ln_le; [lra|].
    pose proof (exp_ineq1_le 2). lra. }
  replace (INR 2 + 1)%R with 3%R by (simpl; lra).
  replace (INR 1 + 1)%R with 2%R by (simpl; lra).
  rewrite !Rmin_right by lra. lra.
Qed.

(** C5, amended.  In a graph built through the mutators the influence score
    of an entity is the one of its connections: the relationships of the
    graph that leave the entity together with those that reach it.  The
    score is 0 when there is no connection, and otherwise
    [min(1.0, avg_weight * (1 + ln(num_connections + 1) / 10))] for the mean
    weight and the number of the connections; it lies between 0 and 1, as
    does every weight of a connection.  For an entity that is not related to
    itself the connections are the relationships incident to it, each once;
    a relationship of the entity to itself is two connections.  As a
    function of a mean weight that is not negative and of the number of
    connections the score does not decrease when either grows. *)
Theorem influence_score :
  (∀ kg entity,
     reachable kg →
     let ws := connection_weights kg entity in
     let score := get_entity_influence_score kg entity in
     score = influence (mean ws) (length ws)
     ∧ (ws = [] → score = 0%R)
     ∧ (ws ≠ [] →
        score = Rmin 1 (mean ws * (1 + ln (INR (length ws) + 1) / 10))%R)
     ∧ (0 <= score <= 1)%R
     ∧ Forall (λ w, 0 <= w <= 1)%R ws
     ∧ (nx.has_edge (graph kg) entity entity = false →
        ws ≡ₚ (λ e : nx.edge, nx.weight e.2) <$> incident_relationships kg entity)
     ∧ (nx.has_edge (graph kg) entity entity = true →
        ∃ d, nx.get_edge (graph kg) entity entity = Some d
             ∧ ws ≡ₚ nx.weight d
                     :: ((λ e : nx.edge, nx.weight e.2)
                           <$> incident_relationships kg entity)))
  ∧ (∀ a1 a2 n1 n2,
       (0 <= a1 <= a2)%R → n1 ≤ n2 → (influence a1 n1 <= influence a2 n2)%R).
Proof.
  split.
  - intros kg entity Hwf%reachable_wf ws score. subst ws score.
    pose proof (influence_score_connections kg entity Hwf) as Hscore.
    pose proof (filter_and_or (λ e : nx.edge, e.1.1 = entity)
                  (λ e : nx.edge, e.1.2 = entity) (get_relationships kg))
      as Hsplit.
    cbv beta in Hsplit.
    rewrite (self_relationship kg entity Hwf) in Hsplit.
    apply (fmap_Permutation (λ e : nx.edge, nx.weight e.2)) in Hsplit.
    rewrite !fmap_app in Hsplit.
    fold (incident_relationships kg entity) in Hsplit.
    change (connection_weights kg entity
            ≡ₚ ((λ e : nx.edge, nx.weight e.2)
                  <$> match nx.get_edge (graph kg) entity entity with
                      | Some d => [(entity, entity, d)]
                      | None => []
                      end)
               ++ ((λ e : nx.edge, nx.weight e.2)
                     <$> incident_relationships kg entity)) in Hsplit.
    split; [done|]. split; [|split; [|split; [|split; [|split]]]].
    + intros Hnil. rewrite Hscore, Hnil. done.
    + intros Hne. rewrite Hscore.
      destruct (connection_weights kg entity) as [|w ws]; [done|].
      unfold influence. cbn [length]. done.
    + split; [by apply influence_score_nonneg|apply influence_score_le_1].
    + by apply connection_weights_bounds.
    + intros Hno. rewrite Hsplit.
      destruct (nx.get_edge (graph kg) entity entity) as [d|] eqn:Hd; [|done].
      unfold nx.has_edge in Hno. rewrite Hd in Hno.
      by rewrite bool_decide_eq_true_2 in Hno by eauto.
    + intros [d Hd]%has_edge_get_edge. exists d. split; [done|].
      by rewrite Hsplit, Hd.
  - apply influence_mono.
Qed.

(** C5, amended, on the graph with the relationships from A to B, of weight
    0.5, and from C to B, of weight 0.8: the one connection of A has the
    mean weight 0.5 and the two connections of B the mean weight 0.65, so
    the score of B is at least the score of A. *)
Lemma influence_score_witness :
  let kg :=
    add_relationship (add_relationship kg_init "A" "B" (5 / 10) "r" None)
      "C" "B" (8 / 10) "r" None in
  get_entity_influence_score kg "A" = influence (5 / 10) 1
  ∧ get_entity_influence_score kg "B" = influence (65 / 100) 2
  ∧ (get_entity_influence_score kg "A" <= get_entity_influence_score kg "B")%R.
Proof.
  intros kg.
  assert (reachable kg) as Hr
    by (do 2 apply reachable_add_relationship; apply reachable_init).
  assert (H5 : Rmax 0 (Rmin 1 (5 / 10)) = (5 / 10)%R) by (apply clamp_unit_id; lra).
  assert (H8 : Rmax 0 (Rmin 1 (8 / 10)) = (8 / 10)%R) by (apply clamp_unit_id; lra).
  assert (HA : connection_weights kg "A" = [(5 / 10)%R]).
  { change (connection_weights kg "A") with [Rmax 0 (Rmin 1 (5 / 10))].
    by rewrite H5. }
  assert (HB : connection_weights kg "B" = [(5 / 10)%R; (8 / 10)%R]).
  { change (connection_weights kg "B")
      with [Rmax 0 (Rmin 1 (5 / 10)); Rmax 0 (Rmin 1 (8 / 10))].
    by rewrite H5, H8. }
  assert (HsA : get_entity_influence_score kg "A" = influence (5 / 10) 1).
  { rewrite (proj1 (proj1 influence_score kg "A" Hr)), HA.
    f_equal. unfold mean, Rsum. simpl. lra. }
  assert (HsB : get_entity_influence_score kg "B" = influence (65 / 100) 2).
  { rewrite (proj1 (proj1 influence_score kg "B" Hr)), HB.
    f_equal. unfold mean, Rsum. simpl. lra. }
  split; [done|]. split; [done|]. rewrite HsA, HsB.
  apply (proj2 influence_score); [lra|lia].
Defined.
